(** * myFM: the factorization-machine scoring engine and the truncated-normal sampler

    A shallow embedding of

    - [src/unnamed/part_000]: [struct FM] with relation blocks
      ([initialize_weight], [predict_score(X, relations)]);
    - [src/includes/FM.hpp]: the earlier [struct FM] ([predict_score(X)]) and
      the sampling utilities ([sample_truncated_normal_left/right]).

    The template parameter [Real] of [FM] is a type class argument: the scoring
    code only adds, subtracts and multiplies, so it is stated over any
    commutative ring (exact arithmetic; the rounding of [float] and [double] is
    outside this model).  The sizes the checks of [predict_score] add up are
    [size_t] values, added modulo [2^64].  The sampler compares and calls
    [sqrt], [log] and [exp]: which branch runs and which deviates are read is
    stated over the real numbers [R], and the bounds on what it returns over
    binary64, the arithmetic of [double]. *)

From Stdlib Require Import String.
From Stdlib Require Import List NArith ZArith Lia Bool Arith.
From Stdlib Require Import Ring Ring_theory.
From Stdlib Require QArith Qcanon.
From Stdlib Require Import Reals Lra.
From Stdlib Require Floats.
Import ListNotations.

Set Implicit Arguments.

(* ================================================================== *)
(** * Part I: definitions                                               *)
(* ================================================================== *)

(** ** The scalar type [Real] *)

Class RealOps (Real : Type) : Type := {
  r0 : Real;
  r1 : Real;
  radd : Real -> Real -> Real;
  rmul : Real -> Real -> Real;
  rsub : Real -> Real -> Real;
  ropp : Real -> Real;
  (** [static_cast<Real>(0.5)] *)
  rhalf : Real
}.

Class RealRing (Real : Type) `{RealOps Real} : Prop :=
  real_ring : ring_theory r0 r1 radd rmul rsub ropp (@eq Real).

Arguments RealRing Real {_}.

Declare Scope real_scope.
Delimit Scope real_scope with real.
Infix "+" := radd : real_scope.
Infix "*" := rmul : real_scope.
Infix "-" := rsub : real_scope.
Notation "- x" := (ropp x) : real_scope.

(** Exact rationals: a computable instance. *)
#[export] Instance Qc_ops : RealOps Qcanon.Qc :=
  {| r0 := Qcanon.Q2Qc (QArith_base.Qmake 0 1);
     r1 := Qcanon.Q2Qc (QArith_base.Qmake 1 1);
     radd := Qcanon.Qcplus; rmul := Qcanon.Qcmult;
     rsub := Qcanon.Qcminus; ropp := Qcanon.Qcopp;
     rhalf := Qcanon.Q2Qc (QArith_base.Qmake 1 2) |}.

#[export] Instance Qc_ring : RealRing Qcanon.Qc := Qcanon.Qcrt.

(** ** Outcomes of a call

    [predict_score] throws [std::invalid_argument] and [std::runtime_error].
    Eigen states its size and index preconditions with [eigen_assert]: a
    violated one aborts the program (and is undefined behaviour when the
    assertions are compiled out).  Every such violation is the outcome
    [EigenAssert]. *)

Inductive outcome (A : Type) : Type :=
| Returns (a : A)
| InvalidArgument (what : string)
| RuntimeError (what : string)
| EigenAssert.

Arguments Returns {A} a.
Arguments InvalidArgument {A} what.
Arguments RuntimeError {A} what.
Arguments EigenAssert {A}.

Definition bind {A B : Type} (c : outcome A) (k : A -> outcome B) : outcome B :=
  match c with
  | Returns a => k a
  | InvalidArgument s => InvalidArgument s
  | RuntimeError s => RuntimeError s
  | EigenAssert => EigenAssert
  end.

Notation "x <- c ;; k" := (bind c (fun x => k))
  (at level 61, c at next level, right associativity).

Definition is_invalid_argument {A : Type} (c : outcome A) : bool :=
  match c with InvalidArgument _ => true | _ => false end.

Definition is_returns {A : Type} (c : outcome A) : bool :=
  match c with Returns _ => true | _ => false end.

(** Nothing was thrown: the call returned or ended in an Eigen assertion. *)
Definition is_eigen_result {A : Type} (c : outcome A) : bool :=
  match c with Returns _ | EigenAssert => true | _ => false end.

(** ** [size_t] and [Eigen::Index]

    [size_t] is an unsigned integer of 64 bits: a sum of two [size_t], and the
    conversion of an [Eigen::Index] to [size_t], is taken modulo [2^64].
    [Eigen::Index] is [std::ptrdiff_t]: the size of a matrix or of a vector is
    below [2^63]. *)

Definition to_size_t (n : nat) : nat :=
  N.to_nat (N.of_nat n mod 2 ^ 64)%N.

Arguments to_size_t n : simpl never.

Definition is_Index (n : nat) : Prop := (N.of_nat n < 2 ^ 63)%N.

(** ** The Eigen operations the code uses *)

Module Eigen.
Section Ops.
Context {Real : Type} `{RealOps Real}.
Local Open Scope real_scope.

(** [Eigen::Matrix<Real, -1, 1>] *)
Definition Vector : Type := list Real.

(** [Eigen::SparseMatrix<Real, Eigen::RowMajor>]: the rows, each with an
    entry for every column (the entries that are not stored are [r0]). *)
Record SparseMatrix : Type := mkSparse {
  sm_cols : nat;
  sm_row : list (list Real)
}.

Definition sm_rows (X : SparseMatrix) : nat := length (sm_row X).

Definition wf_sparse (X : SparseMatrix) : Prop :=
  Forall (fun r => length r = sm_cols X) (sm_row X).

(** [Eigen::Matrix<Real, -1, -1, Eigen::ColMajor>]: the columns. *)
Record DenseMatrix : Type := mkDense {
  dm_rows : nat;
  dm_col : list (list Real)
}.

Definition dm_cols (M : DenseMatrix) : nat := length (dm_col M).

Definition wf_dense (M : DenseMatrix) : Prop :=
  Forall (fun c => length c = dm_rows M) (dm_col M).

(** [sum_j a(j) * b(j)] *)
Fixpoint dot (a b : Vector) : Real :=
  match a, b with
  | x :: a', y :: b' => x * y + dot a' b'
  | _, _ => r0
  end.

(** [v.head(n)] *)
Definition head (v : Vector) (n : nat) : outcome Vector :=
  if n <=? length v then Returns (firstn n v) else EigenAssert.

(** [v.segment(start, n)] *)
Definition segment (v : Vector) (start n : nat) : outcome Vector :=
  if start + n <=? length v then Returns (firstn n (skipn start v))
  else EigenAssert.

(** [M.col(i)] *)
Definition col (M : DenseMatrix) (i : nat) : outcome Vector :=
  match nth_error (dm_col M) i with
  | Some c => Returns c
  | None => EigenAssert
  end.

(** [v(i)] *)
Definition coeff (v : Vector) (i : nat) : outcome Real :=
  match nth_error v i with
  | Some x => Returns x
  | None => EigenAssert
  end.

(** [X * v] for a sparse [X] and a dense vector [v] *)
Definition times (X : SparseMatrix) (v : Vector) : outcome Vector :=
  if sm_cols X =? length v
  then Returns (map (fun r => dot r v) (sm_row X))
  else EigenAssert.

(** [v.array().square()] *)
Definition square (v : Vector) : Vector := map (fun x => x * x) v.

(** [X.cwiseAbs2()] *)
Definition cwiseAbs2 (X : SparseMatrix) : SparseMatrix :=
  mkSparse (sm_cols X) (map square (sm_row X)).

(** A coefficient-wise operation on two arrays of the same size. *)
Fixpoint map2 (f : Real -> Real -> Real) (a b : Vector) : Vector :=
  match a, b with
  | x :: a', y :: b' => f x y :: map2 f a' b'
  | _, _ => []
  end.

Definition cwise (f : Real -> Real -> Real) (a b : Vector) : outcome Vector :=
  if length a =? length b then Returns (map2 f a b) else EigenAssert.

(** [Eigen::Map<Vector> m(buffer, size); m = src;]: a map has a fixed size. *)
Definition map_assign (size : nat) (src : Vector) : outcome Vector :=
  if length src =? size then Returns src else EigenAssert.

(** [sum_i v(i)] *)
Definition sum (v : Vector) : Real := fold_right radd r0 v.

End Ops.

Arguments Vector Real : clear implicits.
Arguments SparseMatrix Real : clear implicits.
Arguments DenseMatrix Real : clear implicits.
End Eigen.

(** ** The standard random-number library, as the code sees it

    [mt19937] is the state of the generator every function receives by
    reference.  A [std::normal_distribution<Real>] object has a state of its
    own; calling it returns a deviate and advances both the object and the
    generator.  [uniform_real_distribution<Real> dist(0, 1)] only advances the
    generator. *)

Class StdRandom (Real mt19937 normal_distribution : Type) : Type := {
  (** [normal_distribution<Real> nd;] and [normal_distribution<Real> dist(0, 1);] *)
  nd_init : normal_distribution;
  (** [nd(gen)] *)
  nd_call : normal_distribution -> mt19937 -> Real * (normal_distribution * mt19937);
  (** [dist(gen)] for [uniform_real_distribution<Real> dist(0, 1)] *)
  urd_call : mt19937 -> Real * mt19937
}.

Section Deviates.
Context {Real mt19937 normal_distribution : Type}
        `{StdRandom Real mt19937 normal_distribution}.

(** The distribution object and the generator after [n] calls [nd(gen)]. *)
Fixpoint nd_after (n : nat) (st : normal_distribution * mt19937)
  : normal_distribution * mt19937 :=
  match n with
  | O => st
  | S n' => nd_after n' (snd (nd_call (fst st) (snd st)))
  end.

(** The deviate that call number [n] (from 0) returns. *)
Definition nd_nth (n : nat) (st : normal_distribution * mt19937) : Real :=
  fst (nd_call (fst (nd_after n st)) (snd (nd_after n st))).
End Deviates.

(** A scripted generator: the deviates are read off a list ([r0] when the
    list is used up). *)
Definition tape_random {Real : Type} `{RealOps Real}
  : StdRandom Real (list Real) unit :=
  {| nd_init := tt;
     nd_call := fun _ gen => (hd r0 gen, (tt, tl gen));
     urd_call := fun gen => (hd r0 gen, tl gen) |}.

(** [u] when it lies in [[0, 1)], and 0 otherwise. *)
Definition clamp01 (u : R) : R :=
  if Rle_dec 0 u then (if Rlt_dec u 1 then u else 0%R) else 0%R.

(** The scripted generator for the sampler: a normal deviate is the next
    entry of the list, a uniform deviate the next entry brought into
    [[0, 1)]. *)
Definition script_random : StdRandom R (list R) unit :=
  {| nd_init := tt;
     nd_call := fun _ gen => (hd 0%R gen, (tt, tl gen));
     urd_call := fun gen => (clamp01 (hd 0%R gen), tl gen) |}.

(** ** [relational::RelationBlock<Real>] *)

Module relational.
Section Block.
Context {Real : Type} `{RealOps Real}.
Local Abbreviation SparseMatrix := (Eigen.SparseMatrix Real).

(** Modelled from the spec: [definitions.hpp], which declares
    [relational::RelationBlock], is not among the sources.  [predict_score]
    reads three members of a block: [original_to_block] (the spec's
    [caseToBlockRow]: one block row index per case), [X] (the spec's
    [blockMatrix], [B] unique rows by [F] columns) and [feature_size]
    (the spec's [F], the number of columns of [X]). *)
Record RelationBlock : Type := mkRelationBlock {
  original_to_block : list nat;
  X : SparseMatrix;
  feature_size : nat
}.

(** The spec's [B], the number of unique rows. *)
Definition block_size (rel : RelationBlock) : nat := Eigen.sm_rows (X rel).

(** The spec's contract for a block: [blockMatrix] is [B x F] and every
    entry of [caseToBlockRow] is in [[0, B)]. *)
Definition wf_block (rel : RelationBlock) : Prop :=
  Eigen.wf_sparse (X rel) /\
  feature_size rel = Eigen.sm_cols (X rel) /\
  Forall (fun i => i < block_size rel) (original_to_block rel).

End Block.

Arguments RelationBlock Real : clear implicits.
End relational.

(** ** [struct FM] of [src/unnamed/part_000] *)

Module FM.
Import Eigen relational.
Section Engine.
Context {Real : Type} `{RealOps Real}.
Local Open Scope real_scope.
Local Abbreviation Vector := (Eigen.Vector Real).
Local Abbreviation SparseMatrix := (Eigen.SparseMatrix Real).
Local Abbreviation DenseMatrix := (Eigen.DenseMatrix Real).
Local Abbreviation RelationBlock := (relational.RelationBlock Real).

Record FM : Type := mkFM {
  n_factors : Z;
  w0 : Real;
  w : Vector;
  V : DenseMatrix;
  initialized : bool
}.

(** [FM(Real w0, const Vector &w, const DenseMatrix &V)] *)
Definition FM_of_weights (w0 : Real) (w : Vector) (V : DenseMatrix) : FM :=
  mkFM (Z.of_nat (dm_cols V)) w0 w V true.

(** *** [initialize_weight] *)
Section Init.
Context {mt19937 normal_distribution : Type}
        `{StdRandom Real mt19937 normal_distribution}.

(** [get_rand]: [nd(gen) * init_std] *)
Definition get_rand (init_std : Real) (st : normal_distribution * mt19937)
  : Real * (normal_distribution * mt19937) :=
  let '(z, st') := nd_call (fst st) (snd st) in (z * init_std, st').

(** [Vector{n}.unaryExpr(get_rand)]: one call per coefficient, in order. *)
Fixpoint rand_vector (n : nat) (init_std : Real)
         (st : normal_distribution * mt19937)
  : Vector * (normal_distribution * mt19937) :=
  match n with
  | O => ([], st)
  | S n' =>
      let '(x, st1) := get_rand init_std st in
      let '(v, st2) := rand_vector n' init_std st1 in
      (x :: v, st2)
  end.

(** [DenseMatrix{rows, cols}.unaryExpr(get_rand)]: the destination is
    column-major, so the coefficients are evaluated column by column. *)
Fixpoint rand_columns (rows cols : nat) (init_std : Real)
         (st : normal_distribution * mt19937)
  : list Vector * (normal_distribution * mt19937) :=
  match cols with
  | O => ([], st)
  | S cols' =>
      let '(c, st1) := rand_vector rows init_std st in
      let '(cs, st2) := rand_columns rows cols' init_std st1 in
      (c :: cs, st2)
  end.

(** [initialize_weight(n_features, init_std, gen)].  Eigen asserts that
    the sizes given to a matrix constructor are not negative. *)
Definition initialize_weight (fm : FM) (n_features : Z) (init_std : Real)
           (gen : mt19937) : outcome (FM * mt19937) :=
  if ((n_features <? 0) || (n_factors fm <? 0))%Z then EigenAssert
  else
    let st0 := (nd_init, gen) in
    let '(Vc, st1) :=
      rand_columns (Z.to_nat n_features) (Z.to_nat (n_factors fm)) init_std st0 in
    let '(wv, st2) := rand_vector (Z.to_nat n_features) init_std st1 in
    let '(b, st3) := get_rand init_std st2 in
    Returns (mkFM (n_factors fm) b wv (mkDense (Z.to_nat n_features) Vc) true,
             snd st3).
End Init.

(** *** [predict_score(X, relations)] *)

(** The first loop: every mapping has one entry per case; the feature
    sizes are added up in the [size_t] variable [feature_size_all]. *)
Fixpoint check_relations (case_size : nat) (relations : list RelationBlock)
         (feature_size_all : nat) : outcome nat :=
  match relations with
  | [] => Returns feature_size_all
  | rel :: rest =>
      if negb (case_size =? length (original_to_block rel))
      then InvalidArgument
             "Relation blocks have inconsistent mapper size with case_size"
      else check_relations case_size rest
             (to_size_t (feature_size_all + feature_size rel))
  end.

(** [size_t j = 0; for (auto i : original_to_block) dst(j++) += src(i);] *)
Fixpoint scatter_add (dst src : Vector) (original_to_block : list nat)
         {struct original_to_block} : outcome Vector :=
  match original_to_block with
  | [] => Returns dst
  | i :: rest =>
      match dst with
      | [] => EigenAssert
      | d :: dst' =>
          c <- coeff src i ;;
          dst'' <- scatter_add dst' src rest ;;
          Returns ((d + c) :: dst'')
      end
  end.

(** The loop over the relation blocks that all three passes share: compute
    the block's cache from the current offset, add it to the per-case vector
    through the mapping, advance the offset.  The offset of a block is the
    end of the segment of the block before it, which Eigen has checked to
    lie inside the vector: this [size_t] addition does not wrap. *)
Fixpoint add_blocks (cache : RelationBlock -> nat -> outcome Vector)
         (relations : list RelationBlock) (offset : nat) (acc : Vector)
  : outcome Vector :=
  match relations with
  | [] => Returns acc
  | rel :: rest =>
      c <- cache rel offset ;;
      acc' <- scatter_add acc c (original_to_block rel) ;;
      add_blocks cache rest (offset + feature_size rel) acc'
  end.

(** [Vector w0_cache = (iter->X) * w.segment(offset, iter->feature_size);] *)
Definition w0_cache (w : Vector) (rel : RelationBlock) (offset : nat)
  : outcome Vector :=
  seg <- segment w offset (feature_size rel) ;;
  times (X rel) seg.

(** [Eigen::Map<Vector> block_cache(buffer_cache.data(), iter->feature_size);
     block_cache = iter->X * V.col(factor_index).segment(offset, iter->feature_size);]
    The map has [feature_size] entries; the product has one entry per row
    of the block. *)
Definition block_cache_q (v : Vector) (rel : RelationBlock) (offset : nat)
  : outcome Vector :=
  seg <- segment v offset (feature_size rel) ;;
  p <- times (X rel) seg ;;
  map_assign (feature_size rel) p.

(** [block_cache = (iter->X.cwiseAbs2()) *
      (V.col(factor_index).segment(offset, iter->feature_size).array().square().matrix());] *)
Definition block_cache_sq (v : Vector) (rel : RelationBlock) (offset : nat)
  : outcome Vector :=
  seg <- segment v offset (feature_size rel) ;;
  p <- times (cwiseAbs2 (X rel)) (square seg) ;;
  map_assign (feature_size rel) p.

(** [buffer_cache.resize(buffer_size)]: the scratch buffer is as long as the
    widest block has columns, and at least 1. *)
Definition buffer_size (relations : list RelationBlock) : nat :=
  fold_left (fun b rel => Nat.max b (feature_size rel)) relations 1.

(** One turn of the loop over [factor_index]. *)
Definition factor_step (fm : FM) (X : SparseMatrix)
           (relations : list RelationBlock) (result : Vector)
           (factor_index : nat) : outcome Vector :=
  v <- col (V fm) factor_index ;;
  vh <- head v (sm_cols X) ;;
  q_cache <- times X vh ;;
  q_cache <- add_blocks (block_cache_q v) relations (sm_cols X) q_cache ;;
  result <- cwise (fun r q => r + q * q * rhalf) result q_cache ;;
  q_cache <- times (cwiseAbs2 X) (square vh) ;;
  q_cache <- add_blocks (block_cache_sq v) relations (sm_cols X) q_cache ;;
  cwise (fun r q => r - q * rhalf) result q_cache.

(** [for (int factor_index = 0; factor_index < n_factors; factor_index++)] *)
Fixpoint factor_loop (fm : FM) (X : SparseMatrix)
         (relations : list RelationBlock) (result : Vector)
         (factor_indices : list nat) : outcome Vector :=
  match factor_indices with
  | [] => Returns result
  | factor_index :: rest =>
      result' <- factor_step fm X relations result factor_index ;;
      factor_loop fm X relations result' rest
  end.

Definition predict_score (fm : FM) (X : SparseMatrix)
           (relations : list RelationBlock) : outcome Vector :=
  let case_size := sm_rows X in
  feature_size_all <-
    check_relations case_size relations (to_size_t (sm_cols X)) ;;
  if negb (feature_size_all =? to_size_t (length (w fm)))
  then InvalidArgument "Total feature size mismatch."
  else if negb (initialized fm)
  then RuntimeError "get_score called before initialization"
  else
    wh <- head (w fm) (sm_cols X) ;;
    xw <- times X wh ;;
    let result := map (fun t => w0 fm + t) xw in
    result <- add_blocks (w0_cache (w fm)) relations (sm_cols X) result ;;
    factor_loop fm X relations result (seq 0 (Z.to_nat (n_factors fm))).

End Engine.

Arguments FM Real : clear implicits.
End FM.

(** ** [struct FM] of [src/includes/FM.hpp]: scoring without relation blocks

    The struct has the same parameters [n_factors], [V], [w], [w0] and
    [initialized]; [FM.FM] is used for both. *)

Module FM_hpp.
Import Eigen.
Section Engine.
Context {Real : Type} `{RealOps Real}.
Local Open Scope real_scope.
Local Abbreviation FM := (FM.FM Real).
Local Abbreviation Vector := (Eigen.Vector Real).
Local Abbreviation SparseMatrix := (Eigen.SparseMatrix Real).
Local Abbreviation DenseMatrix := (Eigen.DenseMatrix Real).

(** [X * V]: the product of a sparse and a dense matrix, column by column. *)
Fixpoint times_dense (X : SparseMatrix) (cols : list Vector)
  : outcome (list Vector) :=
  match cols with
  | [] => Returns []
  | c :: cols' =>
      p <- times X c ;;
      ps <- times_dense X cols' ;;
      Returns (p :: ps)
  end.

(** [M.rowwise().sum()] for a matrix with [rows] rows, given by its
    columns: the columns are added up. *)
Definition rowwise_sum (rows : nat) (cols : list Vector) : Vector :=
  fold_right (map2 radd) (repeat r0 rows) cols.

Definition predict_score (fm : FM) (X : SparseMatrix) : outcome Vector :=
  if negb (FM.initialized fm)
  then RuntimeError "get_score called before initialization"
  else
    xw <- times X (FM.w fm) ;;
    let result := map (fun t => FM.w0 fm + t) xw in
    XV <- (if sm_cols X =? dm_rows (FM.V fm)
           then times_dense X (dm_col (FM.V fm)) else EigenAssert) ;;
    let q := map (fun s => s * rhalf)
                 (rowwise_sum (sm_rows X) (map square XV)) in
    result <- cwise radd result q ;;
    let v2 := map (fun s => rhalf * s)
                  (rowwise_sum (dm_rows (FM.V fm))
                               (map square (dm_col (FM.V fm)))) in
    c <- times (cwiseAbs2 X) v2 ;;
    cwise rsub result c.

End Engine.
End FM_hpp.

(** ** The sampling utilities of [src/includes/FM.hpp] ([MYFM_UTIL_HPP])

    [Real] is [R].  The two [while (true)] loops take a bound on the number of
    turns; [None] is a run that needs more turns than that. *)

Module util.
Section Sampler.
Context {mt19937 normal_distribution : Type}
        `{StdRandom R mt19937 normal_distribution}.
Local Open Scope R_scope.

(** [while (true) { Real z = dist(gen); if (z > mu_minus) return z; }] *)
Fixpoint rejection_loop (fuel : nat) (dist : normal_distribution)
         (gen : mt19937) (mu_minus : R) : option (R * mt19937) :=
  match fuel with
  | O => None
  | S fuel' =>
      let '(z, (dist', gen')) := nd_call dist gen in
      if Rgt_dec z mu_minus then Some (z, gen')
      else rejection_loop fuel' dist' gen' mu_minus
  end.

(** The second loop.  [std::log(0)] is minus infinity: the candidate [z] is
    then plus infinity, [rho] is [exp] of minus infinity, which is 0, and
    no [u] of [[0, 1)] is below 0; the turn is rejected. *)
Fixpoint envelope_loop (fuel : nat) (gen : mt19937) (alpha_star mu_minus : R)
  : option (R * mt19937) :=
  match fuel with
  | O => None
  | S fuel' =>
      let '(u0, gen1) := urd_call gen in
      let '(u, gen2) := urd_call gen1 in
      if Req_dec_T u0 0 then envelope_loop fuel' gen2 alpha_star mu_minus
      else
        let z := - ln u0 / alpha_star + mu_minus in
        let rho := exp (- (z - alpha_star) * (z - alpha_star) / 2) in
        if Rlt_dec u rho then Some (z, gen2)
        else envelope_loop fuel' gen2 alpha_star mu_minus
  end.

Definition sample_truncated_normal_left (fuel : nat) (gen : mt19937)
           (mu_minus : R) : option (R * mt19937) :=
  if Rlt_dec mu_minus 0 then rejection_loop fuel nd_init gen mu_minus
  else
    let alpha_star := (mu_minus + sqrt (mu_minus * mu_minus + 4)) / 2 in
    envelope_loop fuel gen alpha_star mu_minus.

Definition sample_truncated_normal_right (fuel : nat) (gen : mt19937)
           (mu_plus : R) : option (R * mt19937) :=
  match sample_truncated_normal_left fuel gen (- mu_plus) with
  | Some (z, gen') => Some (- z, gen')
  | None => None
  end.

(** *** The words of the specification: plain rejection *)

(** Deviate [k] is the first one above the threshold. *)
Definition first_exceeding (k : nat) (st : normal_distribution * mt19937)
           (mu_minus : R) : Prop :=
  nd_nth k st > mu_minus /\ forall j, (j < k)%nat -> ~ nd_nth j st > mu_minus.

(** "Draw standard normal deviates and accept the first one exceeding the
    threshold": [r] is the result of plain rejection from [gen], within
    [fuel] turns. *)
Definition plain_rejection (fuel : nat) (gen : mt19937) (mu_minus : R)
           (r : option (R * mt19937)) : Prop :=
  match r with
  | Some (z, gen') =>
      exists k, (k < fuel)%nat /\ first_exceeding k (nd_init, gen) mu_minus /\
                z = nd_nth k (nd_init, gen) /\
                gen' = snd (nd_after (S k) (nd_init, gen))
  | None =>
      forall k, (k < fuel)%nat -> ~ nd_nth k (nd_init, gen) > mu_minus
  end.

End Sampler.
End util.

(** ** The words of the specification: the score as a quadratic form *)

Module Spec.
Import Eigen relational.
Section Reference.
Context {Real : Type} `{RealOps Real}.
Local Open Scope real_scope.
Local Abbreviation Vector := (Eigen.Vector Real).
Local Abbreviation SparseMatrix := (Eigen.SparseMatrix Real).
Local Abbreviation RelationBlock := (relational.RelationBlock Real).
Local Abbreviation FM := (FM.FM Real).

(** The data-model invariant: [w.length == V.rows == P] and [V] has
    [n_factors] columns. *)
Definition wf_FM (fm : FM) : Prop :=
  wf_dense (FM.V fm) /\
  dm_rows (FM.V fm) = length (FM.w fm) /\
  FM.n_factors fm = Z.of_nat (dm_cols (FM.V fm)).

(** [x.cwiseAbs2() . v.square()] *)
Definition dsq (a v : Vector) : Real := dot (square a) (square v).

(** The size condition of the scratch map of the quadratic term: the block
    has as many rows as columns. *)
Definition fits_scratch (rel : RelationBlock) : Prop :=
  block_size rel = feature_size rel.

(** One term of the sum over the factors, for the feature row [x] and the
    column [v_f] of [V]: [(x . v_f)^2 - x^2 . v_f^2]. *)
Definition factor_term (x v_f : Vector) : Real :=
  dot x v_f * dot x v_f - dsq x v_f.

(** [bias + x.w + 0.5 * sum_f [(x.v_f)^2 - x^2.v_f^2]] *)
Definition quadratic_form (fm : FM) (x : Vector) : Real :=
  FM.w0 fm + dot x (FM.w fm)
  + rhalf * sum (map (factor_term x) (dm_col (FM.V fm))).

Definition direct_score (fm : FM) (X : SparseMatrix) : Vector :=
  map (quadratic_form fm) (sm_row X).

(** The block row of every case. *)
Definition gather (rel : RelationBlock) : list Vector :=
  map (fun i => nth i (sm_row (relational.X rel)) []) (original_to_block rel).

Fixpoint hstack (a b : list Vector) : list Vector :=
  match a, b with
  | x :: a', y :: b' => (x ++ y) :: hstack a' b'
  | _, _ => []
  end.

(** [concat(X, block.blockMatrix)]: each case of [X] followed by its block
    row. *)
Definition concat (X : SparseMatrix) (rel : RelationBlock) : SparseMatrix :=
  mkSparse (sm_cols X + feature_size rel) (hstack (sm_row X) (gather rel)).

(** The per-case expanded feature matrix: the base columns, then the
    columns of every block in the order of the list. *)
Definition expand (X : SparseMatrix) (relations : list RelationBlock)
  : SparseMatrix :=
  fold_left concat relations X.

(** What [initialize_weight(P, init_std, gen)] leaves behind: [w] of length
    [P], [V] of shape [P x n_factors], every scalar [init_std] times a
    deviate of its own (the coefficients of [V] column by column, then
    those of [w], then the bias), the model initialized, the generator
    advanced by one call per scalar. *)
Definition initialized_from {mt19937 normal_distribution : Type}
           `{StdRandom Real mt19937 normal_distribution}
           (fm : FM) (n_features : Z) (init_std : Real) (gen : mt19937)
           (r : outcome (FM * mt19937)) : Prop :=
  let P := Z.to_nat n_features in
  let K := Z.to_nat (FM.n_factors fm) in
  match r with
  | Returns (fm', gen') =>
      length (FM.w fm') = P /\
      dm_rows (FM.V fm') = P /\ dm_cols (FM.V fm') = K /\
      wf_dense (FM.V fm') /\
      FM.n_factors fm' = FM.n_factors fm /\
      FM.initialized fm' = true /\
      (forall f j, (f < K)%nat -> (j < P)%nat ->
         nth j (nth f (dm_col (FM.V fm')) []) r0
         = nd_nth (f * P + j)%nat (nd_init, gen) * init_std) /\
      (forall j, (j < P)%nat ->
         nth j (FM.w fm') r0
         = nd_nth (K * P + j)%nat (nd_init, gen) * init_std) /\
      FM.w0 fm' = nd_nth (K * P + P)%nat (nd_init, gen) * init_std /\
      gen' = snd (nd_after (K * P + P + 1)%nat (nd_init, gen))
  | _ => False
  end.

(** The identity mapping of a block with one row per case. *)
Definition identity_mapping (rel : RelationBlock) : Prop :=
  original_to_block rel = seq 0 (block_size rel).

(** The two consistency preconditions. *)
Definition mapping_mismatch (X : SparseMatrix) (relations : list RelationBlock)
  : Prop :=
  Exists (fun rel => length (original_to_block rel) <> sm_rows X) relations.

Definition total_feature_width (X : SparseMatrix)
           (relations : list RelationBlock) : nat :=
  sm_cols X + list_sum (map (@feature_size Real) relations).

Definition width_mismatch (fm : FM) (X : SparseMatrix)
           (relations : list RelationBlock) : Prop :=
  total_feature_width X relations <> length (FM.w fm).

(** The width check as the code evaluates it: the sum in [size_t], against
    [static_cast<size_t>(w.rows())]. *)
Definition size_t_width_mismatch (fm : FM) (X : SparseMatrix)
           (relations : list RelationBlock) : Prop :=
  to_size_t (total_feature_width X relations) <> to_size_t (length (FM.w fm)).

(** The start index, in [w] and in the rows of [V], of block number [k]. *)
Definition block_offset (X : SparseMatrix) (relations : list RelationBlock)
           (k : nat) : nat :=
  total_feature_width X (firstn k relations).

(** Row [i] of a matrix, and the block row of case [i]. *)
Definition row (i : nat) (X : SparseMatrix) : Vector := nth i (sm_row X) [].

Definition block_row (rel : RelationBlock) (i : nat) : Vector :=
  row (nth i (original_to_block rel) 0) (relational.X rel).

(** The columns of the expanded matrix: the first [X.cols()] are the base
    columns and block number [k] has the [feature_size] columns from
    [block_offset k] on. *)
Definition positional_layout (X : SparseMatrix)
           (relations : list RelationBlock) : Prop :=
  sm_cols (expand X relations) = total_feature_width X relations /\
  forall i, i < sm_rows X ->
    firstn (sm_cols X) (row i (expand X relations)) = row i X /\
    forall k rel, nth_error relations k = Some rel ->
      firstn (feature_size rel)
             (skipn (block_offset X relations k) (row i (expand X relations)))
      = block_row rel i.

End Reference.
End Spec.

(** ** Concrete inputs *)

Module Examples.
Import Eigen relational FM Spec.

Definition q (n : Z) : Qcanon.Qc := Qcanon.Q2Qc (QArith_base.Qmake n 1).

(** Two features, one factor. *)
Definition fm1 : FM Qcanon.Qc :=
  FM_of_weights (q 0) [q 1; q 1] (mkDense 2 [[q 1; q 1]]).

(** The same parameters, not initialized. *)
Definition fm1_fresh : FM Qcanon.Qc :=
  mkFM 1 (q 0) [q 1; q 1] (mkDense 2 [[q 1; q 1]]) false.

(** Two cases, one base column. *)
Definition X0 : SparseMatrix Qcanon.Qc := mkSparse 1 [[q 1]; [q 2]].

(** Two cases, two base columns. *)
Definition X1 : SparseMatrix Qcanon.Qc := mkSparse 2 [[q 1; q 3]; [q 2; q 3]].

(** A block of two rows and one column with the identity mapping. *)
Definition B_identity : RelationBlock Qcanon.Qc :=
  mkRelationBlock [0; 1] (mkSparse 1 [[q 3]; [q 4]]) 1.

(** A block of one row and one column that both cases share. *)
Definition B_shared : RelationBlock Qcanon.Qc :=
  mkRelationBlock [0; 0] (mkSparse 1 [[q 3]]) 1.

(** A block whose mapping has three entries. *)
Definition B_long : RelationBlock Qcanon.Qc :=
  mkRelationBlock [0; 0; 0] (mkSparse 1 [[q 3]]) 1.

(** A model that [initialize_weight] has not seen yet. *)
Definition fm_empty : FM Qcanon.Qc := mkFM 2 (q 0) [] (mkDense 0 []) false.

(** One case, two base columns. *)
Definition X_one : SparseMatrix Qcanon.Qc := mkSparse 2 [[q 1; q 1]].

(** The largest number of columns of an Eigen matrix, [2^63 - 1]. *)
Definition widest : nat := N.to_nat (2 ^ 63 - 1).

(** A block of one row and [cols] columns with no entry stored, which the
    one case maps to. *)
Definition B_zero (cols : nat) : RelationBlock Qcanon.Qc :=
  mkRelationBlock [0] (mkSparse cols [repeat (q 0) cols]) cols.

(** The deviates of the scripted generator for the sampler. *)
Definition tape0 : list R := [exp (- 1); 0%R].

End Examples.

(** ** More of [src/includes/FM.hpp] *)

(** *** The second branch of the sampler in the words of its loop *)

Module util_mean_std.
Section Sampler.
Context {mt19937 normal_distribution : Type}
        `{StdRandom R mt19937 normal_distribution}.
Local Open Scope R_scope.



(** [alpha_star], the candidate [z] and the acceptance bound [rho] of a turn. *)
Definition alpha_star (mu_minus : R) : R :=
  (mu_minus + sqrt (mu_minus * mu_minus + 4)) / 2.


Definition rho (mu_minus z : R) : R :=
  exp (- (z - alpha_star mu_minus) * (z - alpha_star mu_minus) / 2).



End Sampler.
End util_mean_std.

(** *** [initialize_weight] of [src/includes/FM.hpp]

    There the distribution object [nd] is a member of the model: its state
    is read from the model and kept in it. *)

Module FM_hpp_init.
Import Eigen.
Section Init.
Context {Real : Type} `{RealOps Real}.
Context {mt19937 normal_distribution : Type}
        `{StdRandom Real mt19937 normal_distribution}.
Local Open Scope real_scope.

Record FM : Type := mkFM {
  params : FM.FM Real;
  nd : normal_distribution
}.

(** [FM(int n_factors, size_t n_groups)]: [V] and [w] are empty and [nd] is
    default-constructed; [w0] is not initialized and is whatever [w0] is. *)
Definition FM_new (n_factors : Z) (w0 : Real) : FM :=
  mkFM (FM.mkFM n_factors w0 [] (mkDense 0 []) false) nd_init.

Definition initialize_weight (fm : FM) (n_features : Z) (init_std : Real)
           (gen : mt19937) : outcome (FM * mt19937) :=
  if ((n_features <? 0) || (FM.n_factors (params fm) <? 0))%Z then EigenAssert
  else
    let st0 := (nd fm, gen) in
    let '(Vc, st1) :=
      FM.rand_columns (Z.to_nat n_features)
                      (Z.to_nat (FM.n_factors (params fm))) init_std st0 in
    let '(wv, st2) := FM.rand_vector (Z.to_nat n_features) init_std st1 in
    let '(b, st3) := FM.get_rand init_std st2 in
    Returns (mkFM (FM.mkFM (FM.n_factors (params fm)) b wv
                           (mkDense (Z.to_nat n_features) Vc) true)
                  (fst st3),
             snd st3).

(** What [initialize_weight] of [FM.hpp] leaves behind: as in [part_000], but
    the deviates follow the state [nd] of the model, and the model keeps the
    state the distribution has reached. *)
Definition initialized_with (fm : FM) (n_features : Z) (init_std : Real)
           (gen : mt19937) (r : outcome (FM * mt19937)) : Prop :=
  let P := Z.to_nat n_features in
  let K := Z.to_nat (FM.n_factors (params fm)) in
  let st0 := (nd fm, gen) in
  match r with
  | Returns (fm', gen') =>
      length (FM.w (params fm')) = P /\
      dm_rows (FM.V (params fm')) = P /\ dm_cols (FM.V (params fm')) = K /\
      wf_dense (FM.V (params fm')) /\
      FM.n_factors (params fm') = FM.n_factors (params fm) /\
      FM.initialized (params fm') = true /\
      (forall f j, (f < K)%nat -> (j < P)%nat ->
         nth j (nth f (dm_col (FM.V (params fm'))) []) r0
         = nd_nth (f * P + j)%nat st0 * init_std) /\
      (forall j, (j < P)%nat ->
         nth j (FM.w (params fm')) r0 = nd_nth (K * P + j)%nat st0 * init_std) /\
      FM.w0 (params fm') = nd_nth (K * P + P)%nat st0 * init_std /\
      (nd fm', gen') = nd_after (K * P + P + 1)%nat st0
  | _ => False
  end.

End Init.

Arguments FM Real normal_distribution : clear implicits.
End FM_hpp_init.

(** *** [struct StringBuilder], for arguments that are strings

    [oss_ << arg] appends the characters of a string [arg]. *)

Module StringBuilder.

Record StringBuilder : Type := mkStringBuilder { oss_ : string }.

(** [StringBuilder()] *)
Definition new : StringBuilder := mkStringBuilder EmptyString.

(** [add(arg)] and [operator()(arg)]: [oss_ << arg] *)
Definition add (b : StringBuilder) (arg : string) : StringBuilder :=
  mkStringBuilder (oss_ b ++ arg).

Definition call (b : StringBuilder) (arg : string) : StringBuilder :=
  mkStringBuilder (oss_ b ++ arg).

(** [space_and_add(arg)]: [oss_ << " " << arg] *)
Definition space_and_add (b : StringBuilder) (arg : string) : StringBuilder :=
  mkStringBuilder ((oss_ b ++ " ") ++ arg).

(** [build()] *)
Definition build (b : StringBuilder) : string := oss_ b.

End StringBuilder.

(** ** More words of the specification *)

Module Interaction.
Import Eigen relational Spec.
Section Reference.
Context {Real : Type} `{RealOps Real}.
Local Open Scope real_scope.
Local Abbreviation Vector := (Eigen.Vector Real).
Local Abbreviation SparseMatrix := (Eigen.SparseMatrix Real).
Local Abbreviation FM := (FM.FM Real).

(** [sum_{j<k} a_j * a_k], by the double loop over the pairs. *)
Fixpoint pairwise (a : Vector) : Real :=
  match a with
  | [] => r0
  | y :: a' => y * sum a' + pairwise a'
  end.

(** The factorization-machine model: [bias + sum_j w_j x_j
    + sum_f sum_{j<k} (v_jf x_j) (v_kf x_k)]. *)
Definition interaction_form (fm : FM) (x : Vector) : Real :=
  FM.w0 fm + dot x (FM.w fm)
  + sum (map (fun v_f => pairwise (map2 rmul x v_f)) (dm_col (FM.V fm))).

(** The model with the columns of [V] that the loop over [factor_index]
    reaches. *)
Definition take_factors (fm : FM) : FM :=
  FM.mkFM (FM.n_factors fm) (FM.w0 fm) (FM.w fm)
          (mkDense (dm_rows (FM.V fm))
                   (firstn (Z.to_nat (FM.n_factors fm)) (dm_col (FM.V fm))))
          (FM.initialized fm).

(** The score without the quadratic term. *)
Definition linear_score (fm : FM) (X : SparseMatrix) : Vector :=
  map (fun x => FM.w0 fm + dot x (FM.w fm)) (sm_row X).

End Reference.
End Interaction.

Module Examples2.
Import Eigen relational FM Spec Examples.

(** One factor declared, two columns in [V]. *)
Definition fm_two : FM Qcanon.Qc :=
  mkFM 1 (q 0) [q 1; q 1] (mkDense 2 [[q 1; q 1]; [q 5; q 5]]) true.

(** A negative number of factors, and a [V] of another shape. *)
Definition fm_linear : FM Qcanon.Qc :=
  mkFM (-3) (q 5) [q 1; q 1] (mkDense 7 [[q 1]]) true.

(** A block of two rows and one column; both cases map to its second row. *)
Definition B_wide : RelationBlock Qcanon.Qc :=
  mkRelationBlock [1; 1] (mkSparse 1 [[q 3]; [q 4]]) 1.

(** A model whose [V] has one row for two base columns. *)
Definition fm_short : FM Qcanon.Qc :=
  FM_of_weights (q 0) [q 1; q 1] (mkDense 1 [[q 1]]).

(** Two cases with the same base row. *)
Definition X_same : SparseMatrix Qcanon.Qc := mkSparse 1 [[q 2]; [q 2]].

(** A case without features. *)
Definition X_zero : SparseMatrix Qcanon.Qc := mkSparse 2 [[q 0; q 0]].

(** A model of [FM.hpp] that [initialize_weight] has not seen yet. *)
Definition fm_hpp_new : FM_hpp_init.FM Qcanon.Qc unit :=
  @FM_hpp_init.FM_new _ _ _ tape_random 2 (q 0).

End Examples2.

(** ** Binary64

    [double] is IEEE 754 binary64: the primitive type [PrimFloat.float], whose
    operations the Standard Library specifies on [SpecFloat.spec_float] with
    a precision of 53 bits. *)

(** *** Values by sign *)
Module binary64.
Import SpecFloat.

(** NaN, or the sign bit is clear. *)
Definition sign_clear (x : spec_float) : bool :=
  match x with
  | S754_nan => true
  | S754_zero s | S754_infinity s | S754_finite s _ _ => negb s
  end.

(** NaN, a zero of either sign, or above zero. *)
Definition not_neg (x : spec_float) : bool :=
  match x with
  | S754_nan | S754_zero _ => true
  | S754_infinity s | S754_finite s _ _ => negb s
  end.

Definition is_nan (x : spec_float) : bool :=
  match x with S754_nan => true | _ => false end.

End binary64.

(** *** The sampler in binary64 arithmetic

    [sample_truncated_normal_left] and [sample_truncated_normal_right] of
    [src/includes/FM.hpp] at [Real = double]: every operation rounds to the
    nearest binary64 value (a product and a sum are not contracted into one
    fused operation), [std::sqrt] is the correctly rounded square root, and
    [std::log] and [std::exp] are the functions of the C library. *)

Module util_binary64.
Import PrimFloat.

(** [std::log] and [std::exp] of [<cmath>]. *)
Class Libm : Type := {
  log : float -> float;
  exp : float -> float
}.

Section Sampler.
Context {mt19937 normal_distribution : Type}
        `{StdRandom float mt19937 normal_distribution} `{Libm}.
Local Open Scope float_scope.

(** [while (true) { Real z = dist(gen); if (z > mu_minus) return z; }] *)
Fixpoint rejection_loop (fuel : nat) (dist : normal_distribution)
         (gen : mt19937) (mu_minus : float) : option (float * mt19937) :=
  match fuel with
  | O => None
  | S fuel' =>
      let '(z, (dist', gen')) := nd_call dist gen in
      if (mu_minus <? z)%float then Some (z, gen')
      else rejection_loop fuel' dist' gen' mu_minus
  end.

(** [while (true) {
       Real z = - std::log(dist(gen)) / alpha_star + mu_minus;
       Real rho = std::exp(- (z - alpha_star) * (z - alpha_star) / 2);
       Real u = dist(gen);
       if (u < rho) return z; }] *)
Fixpoint envelope_loop (fuel : nat) (gen : mt19937) (alpha_star mu_minus : float)
  : option (float * mt19937) :=
  match fuel with
  | O => None
  | S fuel' =>
      let '(u0, gen1) := urd_call gen in
      let z := (- log u0) / alpha_star + mu_minus in
      let rho := exp ((- (z - alpha_star)) * (z - alpha_star) / 2) in
      let '(u, gen2) := urd_call gen1 in
      if (u <? rho)%float then Some (z, gen2)
      else envelope_loop fuel' gen2 alpha_star mu_minus
  end.

Definition sample_truncated_normal_left (fuel : nat) (gen : mt19937)
           (mu_minus : float) : option (float * mt19937) :=
  if (mu_minus <? 0)%float then rejection_loop fuel nd_init gen mu_minus
  else
    let alpha_star :=
      ((mu_minus + PrimFloat.sqrt (mu_minus * mu_minus + 4)) / 2)%float in
    envelope_loop fuel gen alpha_star mu_minus.

Definition sample_truncated_normal_right (fuel : nat) (gen : mt19937)
           (mu_plus : float) : option (float * mt19937) :=
  match sample_truncated_normal_left fuel gen (- mu_plus)%float with
  | Some (z, gen') => Some ((- z)%float, gen')
  | None => None
  end.

End Sampler.

(** A scripted generator: a normal deviate is the next entry of the list, a
    uniform deviate the next entry when it lies in [[0, 1)], and 0
    otherwise. *)
Definition clamp01 (u : float) : float :=
  if ((0 <=? u) && (u <? 1))%float then u else 0%float.

Definition script_random : StdRandom float (list float) unit :=
  {| nd_init := tt;
     nd_call := fun _ gen => (hd 0%float gen, (tt, tl gen));
     urd_call := fun gen => (clamp01 (hd 0%float gen), tl gen) |}.

(** A scripted [<cmath>]: [log(0.5)] and [exp(-0)] as the library rounds
    them; elsewhere [log] is [log(0)], minus infinity, and [exp] is
    [exp(-inf)], zero, or NaN for a NaN. *)
Definition script_libm : Libm :=
  {| log := fun u => if (u =? 0.5)%float then (-0x1.62e42fefa39efp-1)%float
                     else PrimFloat.neg_infinity;
     exp := fun x => if PrimFloat.is_nan x then PrimFloat.nan
                     else if (x =? 0)%float then 1%float else 0%float |}.

End util_binary64.

(** *** The sampler with a mean and a standard deviation, in binary64 *)

Module util_binary64_mean_std.
Import PrimFloat.
Section Sampler.
Context {mt19937 normal_distribution : Type}
        `{StdRandom float mt19937 normal_distribution} `{util_binary64.Libm}.
Local Open Scope float_scope.

(** [return mean + std * sample_truncated_normal_left(gen, (mu_minus - mean) / std);] *)
Definition sample_truncated_normal_left (fuel : nat) (gen : mt19937)
           (mean std mu_minus : float) : option (float * mt19937) :=
  match util_binary64.sample_truncated_normal_left
          fuel gen ((mu_minus - mean) / std) with
  | Some (z, gen') => Some (mean + std * z, gen')
  | None => None
  end.

(** [return mean + std * sample_truncated_normal_right(gen, (mu_plus - mean) / std);] *)
Definition sample_truncated_normal_right (fuel : nat) (gen : mt19937)
           (mean std mu_plus : float) : option (float * mt19937) :=
  match util_binary64.sample_truncated_normal_right
          fuel gen ((mu_plus - mean) / std) with
  | Some (z, gen') => Some (mean + std * z, gen')
  | None => None
  end.

End Sampler.
End util_binary64_mean_std.

(* ================================================================== *)
(** * Part II: properties                                               *)
(* ================================================================== *)

(** ** Outcomes *)

Lemma bind_returns_inv {A B : Type} (c : outcome A) (k : A -> outcome B) (b : B) :
  bind c k = Returns b -> exists a, c = Returns a /\ k a = Returns b.
Proof.
  destruct c as [a| | |]; simpl; intros E; try discriminate.
  exists a; split; [reflexivity | exact E].
Qed.

(** Splits an equation [x <- c ;; k = Returns v] found in the context. *)
Ltac bind_inv H :=
  let a := fresh "a" in
  let Ha := fresh "Ha" in
  apply bind_returns_inv in H; destruct H as (a & Ha & H).

(** ** The consistency checks of [predict_score] *)

Module FMChecks.
Import Eigen relational FM Spec.
Section Checks.
Context {Real : Type} `{RealOps Real}.
Local Abbreviation SparseMatrix := (Eigen.SparseMatrix Real).
Local Abbreviation RelationBlock := (relational.RelationBlock Real).
Local Abbreviation FM := (FM.FM Real).

Local Abbreviation mapper_message :=
  ("Relation blocks have inconsistent mapper size with case_size"%string).

Lemma to_size_t_add_l (a b : nat) :
  to_size_t (to_size_t a + b) = to_size_t (a + b).
Proof.
  unfold to_size_t. f_equal.
  rewrite Nat2N.inj_add, N2Nat.id, Nat2N.inj_add.
  apply N.Div0.add_mod_idemp_l.
Qed.

Lemma to_size_t_small (n : nat) :
  (N.of_nat n < 2 ^ 64)%N -> to_size_t n = n.
Proof.
  intros Hn. unfold to_size_t.
  rewrite N.mod_small by exact Hn. apply Nat2N.id.
Qed.

Lemma is_Index_size_t (n : nat) : is_Index n -> to_size_t n = n.
Proof.
  intros Hn. apply to_size_t_small. unfold is_Index in Hn.
  apply (N.lt_trans _ _ _ Hn). reflexivity.
Qed.

(** A sum that wrapped is below the length it is compared with only when the
    two differ by a multiple of [2^64]. *)
Lemma to_size_t_le_eq (t l : nat) :
  t <= l -> (N.of_nat l < 2 ^ 64)%N -> to_size_t t = to_size_t l -> t = l.
Proof.
  intros Hle Hl E.
  rewrite (to_size_t_small l Hl) in E.
  rewrite to_size_t_small in E; [exact E|].
  apply (N.le_lt_trans _ (N.of_nat l)); [|exact Hl]. lia.
Qed.

Lemma check_relations_spec (n : nat) (relations : list RelationBlock) (acc : nat) :
  (Exists (fun rel => length (original_to_block rel) <> n) relations /\
   check_relations n relations (to_size_t acc)
   = InvalidArgument mapper_message)
  \/
  (Forall (fun rel => length (original_to_block rel) = n) relations /\
   check_relations n relations (to_size_t acc)
   = Returns (to_size_t (acc + list_sum (map (@feature_size Real) relations)))).
Proof.
  revert acc; induction relations as [|rel rest IH]; intros acc; simpl.
  - right; split; [constructor | do 2 f_equal; lia].
  - destruct (Nat.eqb_spec n (length (original_to_block rel))) as [E|E]; simpl.
    + rewrite to_size_t_add_l.
      destruct (IH (acc + feature_size rel)) as [[Hex Hc]|[Hall Hc]].
      * left; split; [now apply Exists_cons_tl | exact Hc].
      * right; split; [constructor; [now symmetry | exact Hall]|].
        rewrite Hc; do 2 f_equal; lia.
    + left; split; [apply Exists_cons_hd; congruence | reflexivity].
Qed.

Lemma Exists_Forall_absurd {A : Type} (P : A -> Prop) (l : list A) :
  Exists (fun x => ~ P x) l -> Forall P l -> False.
Proof.
  induction 1 as [x l Hx|x l _ IH]; intros Hall; inversion Hall; subst; auto.
Qed.

(** Inputs whose total width is the length of [w] pass the width check. *)
Lemma width_fits (fm : FM) (X : SparseMatrix) (relations : list RelationBlock) :
  total_feature_width X relations = length (w fm) ->
  ~ size_t_width_mismatch fm X relations.
Proof. intros E Hm. apply Hm. now rewrite E. Qed.

(** When the total width fits [size_t], the check compares the widths. *)
Lemma size_t_width_mismatch_iff (fm : FM) (X : SparseMatrix)
      (relations : list RelationBlock) :
  (N.of_nat (total_feature_width X relations) < 2 ^ 64)%N ->
  is_Index (length (w fm)) ->
  (size_t_width_mismatch fm X relations <-> width_mismatch fm X relations).
Proof.
  intros Ht Hl. unfold size_t_width_mismatch, width_mismatch.
  rewrite (to_size_t_small _ Ht), (is_Index_size_t Hl). reflexivity.
Qed.

(** The three outcomes that come before any arithmetic. *)
Lemma predict_score_checks (fm : FM) (X : SparseMatrix)
      (relations : list RelationBlock) :
  (mapping_mismatch X relations /\
   predict_score fm X relations = InvalidArgument mapper_message)
  \/
  (~ mapping_mismatch X relations /\ size_t_width_mismatch fm X relations /\
   predict_score fm X relations = InvalidArgument "Total feature size mismatch.")
  \/
  (~ mapping_mismatch X relations /\ ~ size_t_width_mismatch fm X relations /\
   initialized fm = false /\
   predict_score fm X relations
   = RuntimeError "get_score called before initialization")
  \/
  (~ mapping_mismatch X relations /\ ~ size_t_width_mismatch fm X relations /\
   initialized fm = true /\
   Forall (fun rel => length (original_to_block rel) = sm_rows X) relations /\
   to_size_t (total_feature_width X relations) = to_size_t (length (w fm)) /\
   predict_score fm X relations
   = (wh <- head (w fm) (sm_cols X) ;;
      xw <- times X wh ;;
      result <- add_blocks (w0_cache (w fm)) relations (sm_cols X)
                           (map (fun t => radd (w0 fm) t) xw) ;;
      factor_loop fm X relations result (seq 0 (Z.to_nat (n_factors fm))))).
Proof.
  unfold predict_score, mapping_mismatch, size_t_width_mismatch,
    total_feature_width.
  destruct (check_relations_spec (sm_rows X) relations (sm_cols X))
    as [[Hex Hc]|[Hall Hc]]; rewrite Hc; simpl.
  - left; split; [exact Hex | reflexivity].
  - right.
    assert (Hno : ~ Exists (fun rel => length (original_to_block rel) <> sm_rows X)
                    relations)
      by (intros Hex; exact (Exists_Forall_absurd Hex Hall)).
    destruct (Nat.eqb_spec
                (to_size_t (sm_cols X + list_sum (map (@feature_size Real) relations)))
                (to_size_t (length (w fm)))) as [E|E]; simpl.
    + right. destruct (initialized fm) eqn:Hi; simpl.
      * right; repeat (split; [assumption || congruence|]). reflexivity.
      * left; repeat (split; [assumption || congruence|]). reflexivity.
    + left; repeat (split; [assumption|]). reflexivity.
Qed.

(** A returned score: the linear term has read [w] up to the total width. *)
Lemma add_blocks_w0_bound (v : Eigen.Vector Real) (relations : list RelationBlock) :
  forall (offset : nat) (acc r : Eigen.Vector Real),
    offset <= length v ->
    add_blocks (w0_cache v) relations offset acc = Returns r ->
    offset + list_sum (map (@feature_size Real) relations) <= length v.
Proof.
  induction relations as [|rel rest IH]; intros offset acc r Ho Hr; simpl in *.
  - lia.
  - bind_inv Hr. bind_inv Hr.
    unfold w0_cache in Ha. bind_inv Ha.
    unfold segment in Ha1.
    destruct (Nat.leb_spec (offset + feature_size rel) (length v)) as [Hs|Hs];
      [|discriminate].
    apply IH in Hr; [lia | exact Hs].
Qed.

Lemma predict_score_returns_width (fm : FM) (X : SparseMatrix)
      (relations : list RelationBlock) (v : Eigen.Vector Real) :
  predict_score fm X relations = Returns v ->
  total_feature_width X relations <= length (w fm) /\
  to_size_t (total_feature_width X relations) = to_size_t (length (w fm)) /\
  Forall (fun rel => length (original_to_block rel) = sm_rows X) relations /\
  initialized fm = true.
Proof.
  intros Hr.
  destruct (predict_score_checks fm X relations)
    as [(_ & E)|[(_ & _ & E)|[(_ & _ & _ & E)|(_ & _ & Hi & Hlen & Htot & E)]]];
    try (rewrite E in Hr; discriminate).
  rewrite E in Hr. bind_inv Hr. bind_inv Hr. bind_inv Hr.
  split; [|repeat split; assumption].
  unfold total_feature_width.
  assert (Hb : sm_cols X <= length (w fm)).
  { unfold head in Ha.
    destruct (Nat.leb_spec (sm_cols X) (length (w fm)));
      [assumption | discriminate]. }
  exact (@add_blocks_w0_bound (w fm) relations (sm_cols X) _ a1 Hb Ha1).
Qed.

End Checks.
End FMChecks.

(** ** Sizes of the vectors [predict_score] builds *)

Module FMSizes.
Import Eigen relational FM Spec.
Section Sizes.
Context {Real : Type} `{RealOps Real}.
Local Abbreviation Vector := (Eigen.Vector Real).
Local Abbreviation SparseMatrix := (Eigen.SparseMatrix Real).
Local Abbreviation RelationBlock := (relational.RelationBlock Real).
Local Abbreviation FM := (FM.FM Real).

Lemma times_length (X : SparseMatrix) (v r : Vector) :
  times X v = Returns r -> length r = sm_rows X.
Proof.
  unfold times, sm_rows. destruct (sm_cols X =? length v); [|discriminate].
  intros [= <-]. apply length_map.
Qed.

Lemma map2_length (f : Real -> Real -> Real) (a b : Vector) :
  length a = length b -> length (map2 f a b) = length a.
Proof.
  revert b; induction a as [|x a IH]; intros [|y b]; simpl; try discriminate; auto.
Qed.

Lemma cwise_length (f : Real -> Real -> Real) (a b r : Vector) :
  cwise f a b = Returns r -> length r = length a.
Proof.
  unfold cwise. destruct (Nat.eqb_spec (length a) (length b)); [|discriminate].
  intros [= <-]. now apply map2_length.
Qed.

Lemma scatter_add_length (src : Vector) (otb : list nat) :
  forall dst r, scatter_add dst src otb = Returns r -> length r = length dst.
Proof.
  induction otb as [|i rest IH]; intros dst r; simpl.
  - now intros [= <-].
  - destruct dst as [|d dst']; [discriminate|].
    intros E. bind_inv E. bind_inv E. injection E as <-.
    simpl. f_equal. eauto.
Qed.

Lemma add_blocks_length (cache : RelationBlock -> nat -> outcome Vector)
      (relations : list RelationBlock) :
  forall offset acc r,
    add_blocks cache relations offset acc = Returns r -> length r = length acc.
Proof.
  induction relations as [|rel rest IH]; intros offset acc r; simpl.
  - now intros [= <-].
  - intros E. bind_inv E. bind_inv E.
    apply IH in E. rewrite E. eapply scatter_add_length; eauto.
Qed.

Lemma factor_step_length (fm : FM) (X : SparseMatrix)
      (relations : list RelationBlock) (result r : Vector) (f : nat) :
  factor_step fm X relations result f = Returns r -> length r = length result.
Proof.
  unfold factor_step. intros E. repeat bind_inv E.
  apply cwise_length in E. rewrite E.
  match goal with Hc : cwise _ result _ = Returns _ |- _ =>
    now apply cwise_length in Hc end.
Qed.

Lemma factor_loop_length (fm : FM) (X : SparseMatrix)
      (relations : list RelationBlock) (fs : list nat) :
  forall result r,
    factor_loop fm X relations result fs = Returns r -> length r = length result.
Proof.
  induction fs as [|f fs IH]; intros result r; simpl.
  - now intros [= <-].
  - intros E. bind_inv E. apply IH in E. rewrite E.
    eapply factor_step_length; eauto.
Qed.

(** The scratch buffer holds the map of every block. *)
Lemma buffer_size_fits (relations : list RelationBlock) (rel : RelationBlock) :
  In rel relations -> feature_size rel <= buffer_size relations.
Proof.
  unfold buffer_size.
  assert (Hmono : forall rels b, b <= fold_left
                    (fun b r => Nat.max b (@feature_size Real r)) rels b).
  { induction rels as [|r rels IH]; intros b; simpl; [lia|].
    specialize (IH (Nat.max b (feature_size r))). lia. }
  generalize 1. induction relations as [|r rels IH]; intros b Hin; simpl.
  - contradiction.
  - destruct Hin as [->|Hin].
    + specialize (Hmono rels (Nat.max b (feature_size rel))). lia.
    + now apply IH.
Qed.

(** The arithmetic of [predict_score] throws nothing. *)
Lemma bind_eigen_result {A B : Type} (c : outcome A) (k : A -> outcome B) :
  is_eigen_result c = true -> (forall a, is_eigen_result (k a) = true) ->
  is_eigen_result (bind c k) = true.
Proof. destruct c; simpl; auto; discriminate. Qed.

Lemma head_eigen_result (v : Vector) (n : nat) :
  is_eigen_result (head v n) = true.
Proof. unfold head. now destruct (n <=? length v). Qed.

Lemma segment_eigen_result (v : Vector) (start n : nat) :
  is_eigen_result (segment v start n) = true.
Proof. unfold segment. now destruct (start + n <=? length v). Qed.

Lemma col_eigen_result (M : Eigen.DenseMatrix Real) (i : nat) :
  is_eigen_result (col M i) = true.
Proof. unfold col. now destruct (nth_error (dm_col M) i). Qed.

Lemma coeff_eigen_result (v : Vector) (i : nat) :
  is_eigen_result (coeff v i) = true.
Proof. unfold coeff. now destruct (nth_error v i). Qed.

Lemma times_eigen_result (X : SparseMatrix) (v : Vector) :
  is_eigen_result (times X v) = true.
Proof. unfold times. now destruct (sm_cols X =? length v). Qed.

Lemma cwise_eigen_result (f : Real -> Real -> Real) (a b : Vector) :
  is_eigen_result (cwise f a b) = true.
Proof. unfold cwise. now destruct (length a =? length b). Qed.

Lemma map_assign_eigen_result (size : nat) (src : Vector) :
  is_eigen_result (map_assign size src) = true.
Proof. unfold map_assign. now destruct (length src =? size). Qed.

Lemma scatter_add_eigen_result (src : Vector) (otb : list nat) :
  forall dst, is_eigen_result (scatter_add dst src otb) = true.
Proof.
  induction otb as [|i rest IH]; intros dst; simpl; [reflexivity|].
  destruct dst as [|d dst']; [reflexivity|].
  apply bind_eigen_result; [apply coeff_eigen_result|]. intros c.
  apply bind_eigen_result; [apply IH|]. reflexivity.
Qed.

Lemma add_blocks_eigen_result (cache : RelationBlock -> nat -> outcome Vector)
      (relations : list RelationBlock) :
  (forall rel offset, is_eigen_result (cache rel offset) = true) ->
  forall offset acc,
    is_eigen_result (add_blocks cache relations offset acc) = true.
Proof.
  intros Hcache.
  induction relations as [|rel rest IH]; intros offset acc; simpl;
    [reflexivity|].
  apply bind_eigen_result; [apply Hcache|]. intros c.
  apply bind_eigen_result; [apply scatter_add_eigen_result|]. intros acc'.
  apply IH.
Qed.

Lemma w0_cache_eigen_result (v : Vector) (rel : RelationBlock) (offset : nat) :
  is_eigen_result (w0_cache v rel offset) = true.
Proof.
  unfold w0_cache.
  apply bind_eigen_result; [apply segment_eigen_result|]. intros seg.
  apply times_eigen_result.
Qed.

Lemma block_cache_q_eigen_result (v : Vector) (rel : RelationBlock)
      (offset : nat) :
  is_eigen_result (block_cache_q v rel offset) = true.
Proof.
  unfold block_cache_q.
  apply bind_eigen_result; [apply segment_eigen_result|]. intros seg.
  apply bind_eigen_result; [apply times_eigen_result|]. intros p.
  apply map_assign_eigen_result.
Qed.

Lemma block_cache_sq_eigen_result (v : Vector) (rel : RelationBlock)
      (offset : nat) :
  is_eigen_result (block_cache_sq v rel offset) = true.
Proof.
  unfold block_cache_sq.
  apply bind_eigen_result; [apply segment_eigen_result|]. intros seg.
  apply bind_eigen_result; [apply times_eigen_result|]. intros p.
  apply map_assign_eigen_result.
Qed.

Lemma factor_step_eigen_result (fm : FM) (X : SparseMatrix)
      (relations : list RelationBlock) (result : Vector) (f : nat) :
  is_eigen_result (factor_step fm X relations result f) = true.
Proof.
  unfold factor_step.
  apply bind_eigen_result; [apply col_eigen_result|]. intros v.
  apply bind_eigen_result; [apply head_eigen_result|]. intros vh.
  apply bind_eigen_result; [apply times_eigen_result|]. intros q.
  apply bind_eigen_result;
    [apply add_blocks_eigen_result, block_cache_q_eigen_result|]. intros q'.
  apply bind_eigen_result; [apply cwise_eigen_result|]. intros r.
  apply bind_eigen_result; [apply times_eigen_result|]. intros c.
  apply bind_eigen_result;
    [apply add_blocks_eigen_result, block_cache_sq_eigen_result|]. intros c'.
  apply cwise_eigen_result.
Qed.

Lemma factor_loop_eigen_result (fm : FM) (X : SparseMatrix)
      (relations : list RelationBlock) (fs : list nat) :
  forall result,
    is_eigen_result (factor_loop fm X relations result fs) = true.
Proof.
  induction fs as [|f fs IH]; intros result; simpl; [reflexivity|].
  apply bind_eigen_result; [apply factor_step_eigen_result|]. apply IH.
Qed.

Lemma score_eigen_result (fm : FM) (X : SparseMatrix)
      (relations : list RelationBlock) :
  is_eigen_result
    (wh <- head (w fm) (sm_cols X) ;;
     xw <- times X wh ;;
     result <- add_blocks (w0_cache (w fm)) relations (sm_cols X)
                          (map (fun t => radd (w0 fm) t) xw) ;;
     factor_loop fm X relations result (seq 0 (Z.to_nat (n_factors fm))))
  = true.
Proof.
  apply bind_eigen_result; [apply head_eigen_result|]. intros wh.
  apply bind_eigen_result; [apply times_eigen_result|]. intros xw.
  apply bind_eigen_result;
    [apply add_blocks_eigen_result, w0_cache_eigen_result|]. intros r.
  apply factor_loop_eigen_result.
Qed.

End Sizes.
End FMSizes.

(** ** Dot products over concatenated rows *)

Module EigenFacts.
Import Eigen.
Section Facts.
Context {Real : Type} `{RR : RealRing Real}.
Local Open Scope real_scope.
Local Abbreviation Vector := (Eigen.Vector Real).

Add Ring real_ring_facts : real_ring.

Lemma dot_nil_r (a : Vector) : dot a [] = r0.
Proof. destruct a; reflexivity. Qed.

Lemma dot_firstn (a v : Vector) (n : nat) :
  length a <= n -> dot a (firstn n v) = dot a v.
Proof.
  revert v n; induction a as [|x a IH]; intros v n Hn; [reflexivity|].
  destruct n as [|n]; [simpl in Hn; lia|].
  destruct v as [|y v]; [reflexivity|].
  simpl. rewrite IH by (simpl in Hn; lia). reflexivity.
Qed.

Lemma dot_app (a b v : Vector) :
  dot (a ++ b) v = dot a v + dot b (skipn (length a) v).
Proof.
  revert v; induction a as [|x a IH]; intros v; simpl.
  - ring.
  - destruct v as [|y v]; simpl.
    + rewrite !dot_nil_r. ring.
    + rewrite IH. ring.
Qed.

(** The second bilinear form of the code: [x.cwiseAbs2() . v.square()]. *)
Lemma square_length (v : Vector) : length (square v) = length v.
Proof. apply length_map. Qed.

Lemma dsq_firstn (a v : Vector) (n : nat) :
  length a <= n ->
  dot (square a) (square (firstn n v)) = dot (square a) (square v).
Proof.
  intros Hn. unfold square at 2. rewrite <- firstn_map.
  apply dot_firstn. now rewrite square_length.
Qed.

Lemma dsq_app (a b v : Vector) :
  dot (square (a ++ b)) (square v)
  = dot (square a) (square v) + dot (square b) (square (skipn (length a) v)).
Proof.
  unfold square at 1. rewrite map_app. fold (square a) (square b).
  rewrite dot_app, square_length.
  unfold square. now rewrite skipn_map.
Qed.

Lemma map2_map_map {A : Type} (f : Real -> Real -> Real)
      (g1 g2 : A -> Real) (l : list A) :
  map2 f (map g1 l) (map g2 l) = map (fun x => f (g1 x) (g2 x)) l.
Proof. induction l as [|x l IH]; simpl; [reflexivity | now rewrite IH]. Qed.

Lemma cwise_map_map {A : Type} (f : Real -> Real -> Real)
      (g1 g2 : A -> Real) (l : list A) :
  cwise f (map g1 l) (map g2 l) = Returns (map (fun x => f (g1 x) (g2 x)) l).
Proof.
  unfold cwise. rewrite !length_map, Nat.eqb_refl. now rewrite map2_map_map.
Qed.

Lemma times_eq (X : SparseMatrix Real) (v : Vector) :
  sm_cols X = length v ->
  times X v = Returns (map (fun r => dot r v) (sm_row X)).
Proof. unfold times. intros ->. now rewrite Nat.eqb_refl. Qed.

Lemma head_eq (v : Vector) (n : nat) :
  n <= length v -> head v n = Returns (firstn n v).
Proof.
  unfold head. intros Hn. now destruct (Nat.leb_spec n (length v)); [|lia].
Qed.

Lemma segment_eq (v : Vector) (start n : nat) :
  start + n <= length v ->
  segment v start n = Returns (firstn n (skipn start v)).
Proof.
  unfold segment. intros Hn.
  now destruct (Nat.leb_spec (start + n) (length v)); [|lia].
Qed.

Lemma map_assign_eq (size : nat) (src : Vector) :
  length src = size -> map_assign size src = Returns src.
Proof. unfold map_assign. intros ->. now rewrite Nat.eqb_refl. Qed.

Lemma map_assign_mismatch (size : nat) (src : Vector) :
  length src <> size -> map_assign size src = EigenAssert.
Proof.
  unfold map_assign. intros Hn.
  now destruct (Nat.eqb_spec (length src) size).
Qed.

Lemma segment_length (v : Vector) (start n : nat) :
  start + n <= length v -> length (firstn n (skipn start v)) = n.
Proof. intros Hn. rewrite length_firstn, length_skipn. lia. Qed.

Lemma wf_cwiseAbs2 (X : SparseMatrix Real) :
  wf_sparse X -> wf_sparse (cwiseAbs2 X).
Proof.
  unfold wf_sparse, cwiseAbs2; simpl. intros Hwf.
  apply Forall_map. eapply Forall_impl; [|exact Hwf].
  intros r Hr. now rewrite square_length.
Qed.

End Facts.
End EigenFacts.

(** ** One pass over the relation blocks

    A pass adds, for every case, the product of the case's block row with a
    segment of a weight vector.  The result is the product of the expanded
    row with the whole vector. *)

Module FMBlocks.
Import Eigen relational FM Spec EigenFacts.
Section Scatter.
Context {Real : Type} `{RR : RealRing Real}.
Local Open Scope real_scope.
Local Abbreviation Vector := (Eigen.Vector Real).
Local Abbreviation SparseMatrix := (Eigen.SparseMatrix Real).
Local Abbreviation RelationBlock := (relational.RelationBlock Real).

Add Ring real_ring_blocks : real_ring.

Lemma coeff_eq (v : Vector) (i : nat) :
  i < length v -> coeff v i = Returns (nth i v r0).
Proof.
  intros Hi. unfold coeff.
  destruct (nth_error v i) as [x|] eqn:E.
  - now rewrite (nth_error_nth _ _ _ E).
  - apply nth_error_None in E. lia.
Qed.

Lemma scatter_add_gather (src : Vector) (otb : list nat) :
  forall dst,
    Forall (fun i => i < length src) otb ->
    length otb = length dst ->
    scatter_add dst src otb
    = Returns (map2 radd dst (map (fun i => nth i src r0) otb)).
Proof.
  induction otb as [|i rest IH]; intros dst Hall Hlen; simpl.
  - destruct dst; [reflexivity | discriminate].
  - destruct dst as [|d dst']; [discriminate|].
    inversion Hall as [|? ? Hi Hrest]; subst.
    rewrite (coeff_eq _ Hi); simpl.
    rewrite (IH dst' Hrest) by (simpl in Hlen; lia). reflexivity.
Qed.

Lemma nth_map_default {A : Type} (h : A -> Real) (d : A) (l : list A) (i : nat) :
  h d = r0 -> nth i (map h l) r0 = h (nth i l d).
Proof. intros <-. apply map_nth. Qed.

Lemma hstack_length (a b : list Vector) :
  length a = length b -> length (hstack a b) = length a.
Proof.
  revert b; induction a as [|x a IH]; intros [|y b]; simpl; try discriminate; auto.
Qed.

Lemma gather_length (rel : RelationBlock) :
  length (gather rel) = length (original_to_block rel).
Proof. apply length_map. Qed.

Lemma gather_rows (rel : RelationBlock) :
  wf_block rel -> Forall (fun b => length b = feature_size rel) (gather rel).
Proof.
  intros (Hwf & HF & Hidx). unfold gather. apply Forall_map.
  eapply Forall_impl; [|exact Hidx]. intros i Hi; simpl in Hi.
  unfold wf_sparse in Hwf. rewrite Forall_forall in Hwf.
  rewrite HF. apply Hwf. apply nth_In. exact Hi.
Qed.

Lemma hstack_rows (a b : list Vector) (p f : nat) :
  Forall (fun x => length x = p) a -> Forall (fun y => length y = f) b ->
  Forall (fun r => length r = (p + f)%nat) (hstack a b).
Proof.
  intros Ha; revert b; induction Ha as [|x a Hx Ha IH]; intros b Hb; simpl.
  - constructor.
  - destruct Hb as [|y b Hy Hb]; constructor.
    + rewrite length_app. lia.
    + now apply IH.
Qed.

Lemma concat_rows (X : SparseMatrix) (rel : RelationBlock) :
  length (original_to_block rel) = sm_rows X ->
  sm_rows (concat X rel) = sm_rows X.
Proof.
  intros Hlen. unfold concat, sm_rows; simpl.
  apply hstack_length. rewrite gather_length. now symmetry.
Qed.

Lemma wf_concat (X : SparseMatrix) (rel : RelationBlock) :
  wf_sparse X -> wf_block rel -> wf_sparse (concat X rel).
Proof.
  intros HX Hrel. unfold wf_sparse, concat; simpl.
  apply hstack_rows; [exact HX | now apply gather_rows].
Qed.

Lemma map2_hstack (g1 g2 gg : Vector -> Real) (a b : list Vector) (p f : nat) :
  (forall x y, length x = p -> length y = f -> g1 x + g2 y = gg (x ++ y)) ->
  Forall (fun x => length x = p) a -> Forall (fun y => length y = f) b ->
  map2 radd (map g1 a) (map g2 b) = map gg (hstack a b).
Proof.
  intros Hg Ha; revert b; induction Ha as [|x a Hx Ha IH]; intros b Hb; simpl.
  - reflexivity.
  - destruct Hb as [|y b Hy Hb]; simpl; [reflexivity|].
    rewrite (Hg x y Hx Hy). f_equal. now apply IH.
Qed.

End Scatter.

Section Pass.
Context {Real : Type} `{RR : RealRing Real}.
Local Open Scope real_scope.
Local Abbreviation Vector := (Eigen.Vector Real).
Local Abbreviation SparseMatrix := (Eigen.SparseMatrix Real).
Local Abbreviation RelationBlock := (relational.RelationBlock Real).

(** The bilinear form of the pass and its three properties. *)
Variable D : Vector -> Vector -> Real.
Hypothesis D_nil : forall v, D [] v = r0.
Hypothesis D_firstn : forall a v n, length a <= n -> D a (firstn n v) = D a v.
Hypothesis D_app :
  forall a b v, D (a ++ b) v = D a v + D b (skipn (length a) v).

(** The weight vector, the block cache, when it is computed, and what is
    done with the product for a case. *)
Variable v : Vector.
Variable cache : RelationBlock -> nat -> outcome Vector.
Variable fits : RelationBlock -> Prop.
Hypothesis cache_eq :
  forall rel offset,
    wf_block rel -> (offset + feature_size rel <= length v)%nat -> fits rel ->
    cache rel offset
    = Returns (map (fun b => D b (firstn (feature_size rel) (skipn offset v)))
                   (sm_row (X rel))).
Variable g : Real -> Real.
Hypothesis g_add : forall t s, g t + s = g (t + s).

Lemma add_block_concat (X : SparseMatrix) (rel : RelationBlock) :
  wf_sparse X -> wf_block rel -> fits rel ->
  length (original_to_block rel) = sm_rows X ->
  (sm_cols X + feature_size rel <= length v)%nat ->
  (c <- cache rel (sm_cols X) ;;
   scatter_add (map (fun x => g (D x v)) (sm_row X)) c (original_to_block rel))
  = Returns (map (fun x => g (D x v)) (sm_row (concat X rel))).
Proof.
  intros HX Hrel Hfit Hlen Hw.
  rewrite (@cache_eq rel (sm_cols X) Hrel Hw Hfit); simpl.
  rewrite scatter_add_gather.
  - f_equal.
    transitivity
      (map2 radd (map (fun x => g (D x v)) (sm_row X))
            (map (fun b => D b (firstn (feature_size rel) (skipn (sm_cols X) v)))
                 (gather rel))).
    + f_equal. unfold gather. rewrite map_map. apply map_ext.
      intros i.
      apply nth_map_default
        with (h := fun b : Vector =>
                     D b (firstn (feature_size rel) (skipn (sm_cols X) v)))
             (d := @nil Real).
      apply D_nil.
    + apply map2_hstack with (p := sm_cols X) (f := feature_size rel);
        [|exact HX | now apply gather_rows].
      intros x y Hx Hy. rewrite g_add. f_equal.
      rewrite D_firstn by lia. rewrite D_app, Hx. reflexivity.
  - rewrite length_map. destruct Hrel as (_ & _ & Hidx). exact Hidx.
  - rewrite length_map. exact Hlen.
Qed.

Lemma add_blocks_cons (rel : RelationBlock) (rest : list RelationBlock)
      (offset : nat) (acc : Vector) :
  add_blocks cache (rel :: rest) offset acc
  = (acc' <- (c <- cache rel offset ;;
              scatter_add acc c (original_to_block rel)) ;;
     add_blocks cache rest (offset + feature_size rel) acc').
Proof. simpl. destruct (cache rel offset); reflexivity. Qed.

Lemma add_blocks_expand (relations : list RelationBlock) :
  forall X : SparseMatrix,
    wf_sparse X -> Forall wf_block relations -> Forall fits relations ->
    Forall (fun rel => length (original_to_block rel) = sm_rows X) relations ->
    (total_feature_width X relations <= length v)%nat ->
    add_blocks cache relations (sm_cols X) (map (fun x => g (D x v)) (sm_row X))
    = Returns (map (fun x => g (D x v)) (sm_row (expand X relations))).
Proof.
  induction relations as [|rel rest IH]; intros X HX Hwf Hfit Hlen Hw.
  - reflexivity.
  - inversion Hwf as [|? ? Hrel Hwf']; subst.
    inversion Hfit as [|? ? Hf Hfit']; subst.
    inversion Hlen as [|? ? Hl Hlen']; subst.
    unfold total_feature_width in Hw; simpl in Hw.
    rewrite add_blocks_cons, add_block_concat by (assumption || lia).
    simpl bind.
    change (sm_cols X + feature_size rel)%nat with (sm_cols (concat X rel)).
    change (expand X (rel :: rest)) with (expand (concat X rel) rest).
    apply IH; try assumption.
    + now apply wf_concat.
    + rewrite concat_rows by assumption. exact Hlen'.
    + unfold total_feature_width; simpl. lia.
Qed.

End Pass.
End FMBlocks.

(** ** The score [predict_score] returns *)

Module FMScore.
Import Eigen relational FM Spec EigenFacts FMBlocks.
Section Score.
Context {Real : Type} `{RR : RealRing Real}.
Local Open Scope real_scope.
Local Abbreviation Vector := (Eigen.Vector Real).
Local Abbreviation SparseMatrix := (Eigen.SparseMatrix Real).
Local Abbreviation RelationBlock := (relational.RelationBlock Real).
Local Abbreviation FM := (FM.FM Real).

Add Ring real_ring_score : real_ring.

Lemma map_rows_ext (X : SparseMatrix) (f g : Vector -> Real) :
  wf_sparse X ->
  (forall x, length x = sm_cols X -> f x = g x) ->
  map f (sm_row X) = map g (sm_row X).
Proof.
  intros HX Hfg. apply map_ext_in. intros x Hx. apply Hfg.
  unfold wf_sparse in HX. rewrite Forall_forall in HX. now apply HX.
Qed.

Lemma w0_cache_eq (v : Vector) (rel : RelationBlock) (offset : nat) :
  wf_block rel -> (offset + feature_size rel <= length v)%nat -> True ->
  w0_cache v rel offset
  = Returns (map (fun b => dot b (firstn (feature_size rel) (skipn offset v)))
                 (sm_row (relational.X rel))).
Proof.
  intros (_ & HF & _) Hw _. unfold w0_cache.
  rewrite segment_eq by exact Hw. simpl.
  apply times_eq. now rewrite segment_length.
Qed.

Lemma block_cache_q_eq (v : Vector) (rel : RelationBlock) (offset : nat) :
  wf_block rel -> (offset + feature_size rel <= length v)%nat ->
  fits_scratch rel ->
  block_cache_q v rel offset
  = Returns (map (fun b => dot b (firstn (feature_size rel) (skipn offset v)))
                 (sm_row (relational.X rel))).
Proof.
  intros (_ & HF & _) Hw Hfit. unfold block_cache_q.
  rewrite segment_eq by exact Hw. simpl.
  rewrite times_eq by (now rewrite segment_length). simpl.
  apply map_assign_eq. rewrite length_map. exact Hfit.
Qed.

Lemma block_cache_sq_eq (v : Vector) (rel : RelationBlock) (offset : nat) :
  wf_block rel -> (offset + feature_size rel <= length v)%nat ->
  fits_scratch rel ->
  block_cache_sq v rel offset
  = Returns (map (fun b => dsq b (firstn (feature_size rel) (skipn offset v)))
                 (sm_row (relational.X rel))).
Proof.
  intros (_ & HF & _) Hw Hfit. unfold block_cache_sq.
  rewrite segment_eq by exact Hw. simpl.
  rewrite times_eq
    by (simpl; now rewrite square_length, segment_length).
  simpl. rewrite map_map.
  apply map_assign_eq. rewrite length_map. exact Hfit.
Qed.

Lemma dsq_nil (v : Vector) : dsq [] v = r0.
Proof. reflexivity. Qed.

Lemma dot_nil (v : Vector) : dot [] v = r0.
Proof. reflexivity. Qed.

(** The three passes, for inputs that satisfy their contracts. *)
Section Passes.
Variable X : SparseMatrix.
Variable relations : list RelationBlock.
Variable v : Vector.
Hypothesis HX : wf_sparse X.
Hypothesis Hwf : Forall wf_block relations.
Hypothesis Hlen :
  Forall (fun rel => length (original_to_block rel) = sm_rows X) relations.
Hypothesis Hw : (total_feature_width X relations <= length v)%nat.

Lemma base_columns : (sm_cols X <= length v)%nat.
Proof. unfold total_feature_width in Hw. lia. Qed.

Lemma linear_pass (b : Real) :
  (wh <- head v (sm_cols X) ;;
   xw <- times X wh ;;
   add_blocks (w0_cache v) relations (sm_cols X) (map (fun t => b + t) xw))
  = Returns (map (fun x => b + dot x v) (sm_row (expand X relations))).
Proof.
  rewrite head_eq by exact base_columns. simpl.
  rewrite times_eq by (rewrite length_firstn; pose proof base_columns; lia).
  simpl. rewrite map_map.
  rewrite (@map_rows_ext X _ (fun x => b + dot x v) HX)
    by (intros x Hx; rewrite dot_firstn by lia; reflexivity).
  apply (add_blocks_expand dot dot_nil dot_firstn dot_app v (w0_cache v)
           (fits := fun _ => True) (@w0_cache_eq v) (fun t => b + t));
    try assumption.
  - intros t s. ring.
  - apply Forall_forall. intros; exact I.
Qed.

Hypothesis Hfit : Forall fits_scratch relations.

Lemma q_pass :
  (vh <- head v (sm_cols X) ;;
   q_cache <- times X vh ;;
   add_blocks (block_cache_q v) relations (sm_cols X) q_cache)
  = Returns (map (fun x => dot x v) (sm_row (expand X relations))).
Proof.
  rewrite head_eq by exact base_columns. simpl.
  rewrite times_eq by (rewrite length_firstn; pose proof base_columns; lia).
  simpl.
  rewrite (@map_rows_ext X _ (fun x => dot x v) HX)
    by (intros x Hx; rewrite dot_firstn by lia; reflexivity).
  apply (add_blocks_expand dot dot_nil dot_firstn dot_app v (block_cache_q v)
           (@block_cache_q_eq v) (fun t => t));
    try assumption.
  reflexivity.
Qed.

Lemma sq_pass :
  (q_cache <- times (cwiseAbs2 X) (square (firstn (sm_cols X) v)) ;;
   add_blocks (block_cache_sq v) relations (sm_cols X) q_cache)
  = Returns (map (fun x => dsq x v) (sm_row (expand X relations))).
Proof.
  rewrite times_eq
    by (simpl; rewrite square_length, length_firstn;
        pose proof base_columns; lia).
  simpl. rewrite map_map.
  rewrite (@map_rows_ext X _ (fun x => dsq x v) HX)
    by (intros x Hx; unfold dsq; rewrite dsq_firstn by lia; reflexivity).
  apply (add_blocks_expand dsq dsq_nil
           (fun a u n Hn => dsq_firstn a u Hn) dsq_app v (block_cache_sq v)
           (@block_cache_sq_eq v) (fun t => t));
    try assumption.
  reflexivity.
Qed.
End Passes.


(** The loop over the factors. *)
Section Factors.
Variable fm : FM.
Variable X : SparseMatrix.
Variable relations : list RelationBlock.
Hypothesis HX : wf_sparse X.
Hypothesis Hwf : Forall wf_block relations.
Hypothesis Hlen :
  Forall (fun rel => length (original_to_block rel) = sm_rows X) relations.
Hypothesis HV : wf_dense (V fm).
Hypothesis Hw : (total_feature_width X relations <= dm_rows (V fm))%nat.
Hypothesis Hfit : Forall fits_scratch relations.

Local Abbreviation rowsE := (sm_row (expand X relations)).
Local Abbreviation step x :=
  (fun acc v_f => acc + dot x v_f * dot x v_f * rhalf - dsq x v_f * rhalf).

Lemma column_length (f : nat) (v : Vector) :
  nth_error (dm_col (V fm)) f = Some v -> length v = dm_rows (V fm).
Proof.
  intros Hf. unfold wf_dense in HV. rewrite Forall_forall in HV.
  apply HV. eapply nth_error_In; eauto.
Qed.

Lemma factor_step_eq (rho : Vector -> Real) (f : nat) (v : Vector) :
  nth_error (dm_col (V fm)) f = Some v ->
  factor_step fm X relations (map rho rowsE) f
  = Returns (map (fun x => step x (rho x) v) rowsE).
Proof.
  intros Hf. pose proof (column_length _ Hf) as Hv.
  assert (Hwv : (total_feature_width X relations <= length v)%nat) by lia.
  unfold factor_step, col. rewrite Hf. simpl.
  pose proof (@q_pass X relations v HX Hwf Hlen Hwv Hfit) as Hq.
  pose proof (@sq_pass X relations v HX Hwf Hlen Hwv Hfit) as Hs.
  rewrite head_eq in Hq |- * by (now apply (@base_columns X relations v)).
  simpl in Hq |- *.
  bind_inv Hq. rewrite Ha. simpl. rewrite Hq. simpl.
  rewrite cwise_map_map. simpl.
  bind_inv Hs. rewrite Ha0. simpl. rewrite Hs. simpl.
  rewrite cwise_map_map. reflexivity.
Qed.

Lemma skipn_nth_error {A : Type} (l : list A) (s : nat) (x : A) :
  nth_error l s = Some x -> skipn s l = x :: skipn (S s) l.
Proof.
  revert s; induction l as [|y l IH]; intros [|s]; simpl; try discriminate.
  - now intros [= ->].
  - intros Hs. now apply IH.
Qed.

Lemma factor_loop_eq (n : nat) :
  forall (s : nat) (rho : Vector -> Real),
    (s + n <= dm_cols (V fm))%nat ->
    factor_loop fm X relations (map rho rowsE) (seq s n)
    = Returns (map (fun x => fold_left (step x)
                                       (firstn n (skipn s (dm_col (V fm))))
                                       (rho x)) rowsE).
Proof.
  induction n as [|n IH]; intros s rho Hs; simpl.
  - reflexivity.
  - destruct (nth_error (dm_col (V fm)) s) as [v|] eqn:Hv;
      [|apply nth_error_None in Hv; unfold dm_cols in Hs; lia].
    rewrite (factor_step_eq rho _ Hv). simpl.
    rewrite IH by lia.
    rewrite (skipn_nth_error _ _ Hv). reflexivity.
Qed.

Lemma fold_step_sum (x : Vector) (cs : list Vector) :
  forall a, fold_left (step x) cs a
            = a + rhalf * sum (map (factor_term x) cs).
Proof.
  induction cs as [|c cs IH]; intros a; simpl.
  - unfold sum; simpl. ring.
  - rewrite IH. unfold sum, factor_term; simpl. ring.
Qed.
End Factors.


(** [predict_score] on inputs that pass the checks, for a model that
    satisfies the data-model invariant: the score of the expanded matrix. *)
Lemma predict_score_returns_le (fm : FM) (X : SparseMatrix)
      (relations : list RelationBlock) :
  wf_sparse X -> Forall wf_block relations -> wf_FM fm ->
  initialized fm = true ->
  Forall (fun rel => length (original_to_block rel) = sm_rows X) relations ->
  (total_feature_width X relations <= length (w fm))%nat ->
  to_size_t (total_feature_width X relations) = to_size_t (length (w fm)) ->
  dm_col (V fm) = [] \/ Forall fits_scratch relations ->
  predict_score fm X relations
  = Returns (direct_score fm (expand X relations)).
Proof.
  intros HX Hwf (HV & HP & HK) Hinit Hlen Htw Htot Hfit.
  destruct (FMChecks.predict_score_checks fm X relations)
    as [(Hm & _)|[(_ & Hwm & _)|[(_ & _ & Hi & _)|(_ & _ & _ & _ & _ & E)]]].
  - exfalso. exact (FMChecks.Exists_Forall_absurd
                      (P := fun rel => length (original_to_block rel) = sm_rows X)
                      Hm Hlen).
  - exfalso. exact (Hwm Htot).
  - congruence.
  - rewrite E; clear E.
    pose proof (@linear_pass X relations (w fm) HX Hwf Hlen Htw (w0 fm)) as Hl.
    bind_inv Hl. rewrite Ha. simpl. bind_inv Hl. rewrite Ha0. simpl.
    rewrite Hl. simpl.
    rewrite HK, Nat2Z.id. unfold direct_score.
    destruct Hfit as [Hnil|Hfit].
    + unfold dm_cols. rewrite Hnil. simpl. f_equal.
      apply map_ext. intros x. unfold quadratic_form. rewrite Hnil.
      unfold sum; simpl. ring.
    + assert (HwV : (total_feature_width X relations <= dm_rows (V fm))%nat) by lia.
      rewrite (@factor_loop_eq fm X relations HX Hwf Hlen HV HwV Hfit
                 (dm_cols (V fm)) 0 (fun x => w0 fm + dot x (w fm)))
        by lia.
      f_equal. apply map_ext. intros x.
      rewrite skipn_O. unfold dm_cols. rewrite firstn_all.
      rewrite fold_step_sum. reflexivity.
Qed.

Lemma predict_score_returns (fm : FM) (X : SparseMatrix)
      (relations : list RelationBlock) :
  wf_sparse X -> Forall wf_block relations -> wf_FM fm ->
  initialized fm = true ->
  Forall (fun rel => length (original_to_block rel) = sm_rows X) relations ->
  total_feature_width X relations = length (w fm) ->
  dm_col (V fm) = [] \/ Forall fits_scratch relations ->
  predict_score fm X relations
  = Returns (direct_score fm (expand X relations)).
Proof.
  intros HX Hwf Hfm Hinit Hlen Htot Hfit.
  apply predict_score_returns_le; try assumption; [lia | now rewrite Htot].
Qed.

(** A block with a different number of rows than columns does not fit the
    scratch map of the quadratic term. *)
Lemma block_cache_q_mismatch (v : Vector) (rel : RelationBlock) (offset : nat) :
  wf_block rel -> (offset + feature_size rel <= length v)%nat ->
  ~ fits_scratch rel ->
  block_cache_q v rel offset = EigenAssert.
Proof.
  intros (_ & HF & _) Hw Hfit. unfold block_cache_q.
  rewrite segment_eq by exact Hw. simpl.
  rewrite times_eq by (now rewrite segment_length). simpl.
  apply map_assign_mismatch. rewrite length_map. exact Hfit.
Qed.

Lemma add_blocks_q_mismatch (v : Vector) (relations : list RelationBlock) :
  forall (offset : nat) (acc : Vector),
    Forall wf_block relations ->
    Forall (fun rel => length (original_to_block rel) = length acc) relations ->
    (offset + list_sum (map (@feature_size Real) relations) <= length v)%nat ->
    Exists (fun rel => ~ fits_scratch rel) relations ->
    add_blocks (block_cache_q v) relations offset acc = EigenAssert.
Proof.
  induction relations as [|rel rest IH]; intros offset acc Hwf Hlen Hw Hex.
  - inversion Hex.
  - inversion Hwf as [|? ? Hrel Hwf']; subst.
    inversion Hlen as [|? ? Hl Hlen']; subst.
    simpl in Hw. simpl.
    destruct (Nat.eq_dec (block_size rel) (feature_size rel)) as [Hfit|Hfit].
    + rewrite (@block_cache_q_eq v rel offset Hrel) by (lia || exact Hfit).
      simpl.
      destruct (scatter_add acc
                  (map (fun b => dot b (firstn (feature_size rel) (skipn offset v)))
                       (sm_row (relational.X rel)))
                  (original_to_block rel)) as [acc'| | |] eqn:Hs;
        try (rewrite scatter_add_gather in Hs;
             [discriminate
             | rewrite length_map; destruct Hrel as (_ & _ & Hidx); exact Hidx
             | exact Hl]).
      simpl. apply IH; try assumption.
      * apply FMSizes.scatter_add_length in Hs. rewrite Hs. exact Hlen'.
      * lia.
      * inversion Hex as [? ? Hn|? ? Hrest]; subst; [contradiction | exact Hrest].
    + rewrite block_cache_q_mismatch by (assumption || lia). reflexivity.
Qed.

Lemma predict_score_scratch_mismatch_le (fm : FM) (X : SparseMatrix)
      (relations : list RelationBlock) :
  wf_sparse X -> Forall wf_block relations -> wf_FM fm ->
  initialized fm = true ->
  Forall (fun rel => length (original_to_block rel) = sm_rows X) relations ->
  (total_feature_width X relations <= length (w fm))%nat ->
  to_size_t (total_feature_width X relations) = to_size_t (length (w fm)) ->
  dm_col (V fm) <> [] ->
  Exists (fun rel => ~ fits_scratch rel) relations ->
  predict_score fm X relations = EigenAssert.
Proof.
  intros HX Hwf (HV & HP & HK) Hinit Hlen Htw Htot HKpos Hex.
  destruct (FMChecks.predict_score_checks fm X relations)
    as [(Hm & _)|[(_ & Hwm & _)|[(_ & _ & Hi & _)|(_ & _ & _ & _ & _ & E)]]].
  - exfalso. exact (FMChecks.Exists_Forall_absurd
                      (P := fun rel => length (original_to_block rel) = sm_rows X)
                      Hm Hlen).
  - exfalso. exact (Hwm Htot).
  - congruence.
  - rewrite E; clear E.
    pose proof (@linear_pass X relations (w fm) HX Hwf Hlen Htw (w0 fm)) as Hl.
    bind_inv Hl. rewrite Ha. simpl. bind_inv Hl. rewrite Ha0. simpl.
    rewrite Hl. simpl.
    rewrite HK, Nat2Z.id. unfold dm_cols.
    destruct (dm_col (V fm)) as [|v cs] eqn:Hcols; [contradiction|].
    simpl. unfold factor_step, col. rewrite Hcols. simpl.
    assert (Hv : length v = dm_rows (V fm)).
    { unfold wf_dense in HV. rewrite Hcols in HV. now inversion HV. }
    unfold total_feature_width in Htw.
    rewrite head_eq by lia. simpl.
    rewrite times_eq by (rewrite length_firstn; lia). simpl.
    rewrite add_blocks_q_mismatch; try assumption.
    + reflexivity.
    + rewrite length_map. exact Hlen.
    + lia.
Qed.

Lemma predict_score_scratch_mismatch (fm : FM) (X : SparseMatrix)
      (relations : list RelationBlock) :
  wf_sparse X -> Forall wf_block relations -> wf_FM fm ->
  initialized fm = true ->
  Forall (fun rel => length (original_to_block rel) = sm_rows X) relations ->
  total_feature_width X relations = length (w fm) ->
  dm_col (V fm) <> [] ->
  Exists (fun rel => ~ fits_scratch rel) relations ->
  predict_score fm X relations = EigenAssert.
Proof.
  intros HX Hwf Hfm Hinit Hlen Htot Hne Hex.
  apply predict_score_scratch_mismatch_le; try assumption;
    [lia | now rewrite Htot].
Qed.

(** One block whose scratch map has the right size: scoring through the
    block is scoring the concatenated matrix. *)
Lemma block_dedup_square (fm : FM) (X : SparseMatrix) (rel : RelationBlock) :
  wf_sparse X -> wf_block rel -> wf_FM fm -> initialized fm = true ->
  length (original_to_block rel) = sm_rows X ->
  (sm_cols X + feature_size rel)%nat = length (w fm) ->
  dm_col (V fm) = [] \/ fits_scratch rel ->
  predict_score fm X [rel] = predict_score fm (concat X rel) [].
Proof.
  intros HX Hrel Hfm Hinit Hlen Htot Hfit.
  rewrite (@predict_score_returns fm X [rel]); try assumption.
  - change (expand X [rel]) with (expand (concat X rel) []).
    symmetry. apply predict_score_returns; try assumption.
    + now apply wf_concat.
    + constructor.
    + constructor.
    + unfold total_feature_width; simpl. lia.
    + right. constructor.
  - now constructor.
  - now constructor.
  - unfold total_feature_width; simpl. lia.
  - destruct Hfit as [Hnil|Hfit]; [now left | right; now constructor].
Qed.

End Score.
End FMScore.

(** ** [predict_score(X)] of [src/includes/FM.hpp] *)

Module FMNoBlock.
Import Eigen FM Spec EigenFacts.
Section NoBlock.
Context {Real : Type} `{RR : RealRing Real}.
Local Open Scope real_scope.
Local Abbreviation Vector := (Eigen.Vector Real).
Local Abbreviation SparseMatrix := (Eigen.SparseMatrix Real).
Local Abbreviation FM := (FM.FM Real).

Add Ring real_ring_noblock : real_ring.

Lemma times_dense_eq (X : SparseMatrix) (cols : list Vector) :
  Forall (fun c => length c = sm_cols X) cols ->
  FM_hpp.times_dense X cols
  = Returns (map (fun c => map (fun r => dot r c) (sm_row X)) cols).
Proof.
  induction 1 as [|c cols Hc _ IH]; simpl; [reflexivity|].
  rewrite times_eq by (now symmetry). simpl. rewrite IH. reflexivity.
Qed.

Lemma map_const_repeat {A : Type} (l : list A) (z : Real) :
  map (fun _ => z) l = repeat z (length l).
Proof. induction l as [|x l IH]; simpl; [reflexivity | now rewrite IH]. Qed.

(** The sum of the columns [r |-> G r c], row by row. *)
Lemma rowwise_sum_rows {A : Type} (G : A -> Vector -> Real) (rows : list A)
      (cols : list Vector) :
  FM_hpp.rowwise_sum (length rows) (map (fun c => map (fun r => G r c) rows) cols)
  = map (fun r => sum (map (G r) cols)) rows.
Proof.
  unfold FM_hpp.rowwise_sum.
  induction cols as [|c cols IH]; simpl.
  - unfold sum; simpl. symmetry. apply map_const_repeat.
  - rewrite IH. rewrite map2_map_map. reflexivity.
Qed.

Lemma rowwise_sum_length (n : nat) (cols : list Vector) :
  Forall (fun c => length c = n) cols ->
  length (FM_hpp.rowwise_sum n cols) = n.
Proof.
  unfold FM_hpp.rowwise_sum.
  induction 1 as [|c cols Hc _ IH]; simpl.
  - apply repeat_length.
  - rewrite FMSizes.map2_length; [exact Hc | now rewrite IH].
Qed.

Lemma dot_repeat0 (a : Vector) (n : nat) : dot a (repeat r0 n) = r0.
Proof.
  revert n; induction a as [|x a IH]; intros [|n]; simpl; try reflexivity.
  rewrite IH. ring.
Qed.

Lemma dot_map2_add (a u u' : Vector) :
  length u = length u' -> dot a (map2 radd u u') = dot a u + dot a u'.
Proof.
  revert u u'; induction a as [|x a IH]; intros [|y u] [|y' u'] Hlen;
    simpl in *; try discriminate; try ring.
  rewrite IH by lia. ring.
Qed.

Lemma dot_scale (a u : Vector) (k : Real) :
  dot a (map (fun s => k * s) u) = k * dot a u.
Proof.
  revert u; induction a as [|x a IH]; intros [|y u]; simpl; try ring.
  rewrite IH. ring.
Qed.

Lemma dot_rowwise_sum (a : Vector) (n : nat) (cols : list Vector) :
  Forall (fun c => length c = n) cols ->
  dot a (FM_hpp.rowwise_sum n cols) = sum (map (dot a) cols).
Proof.
  intros Hc. induction Hc as [|c cols Hc Hcs IH].
  - apply dot_repeat0.
  - change (FM_hpp.rowwise_sum n (c :: cols))
      with (map2 radd c (FM_hpp.rowwise_sum n cols)).
    rewrite dot_map2_add by (now rewrite rowwise_sum_length).
    rewrite IH. reflexivity.
Qed.

Lemma sum_map_sub {A : Type} (f g : A -> Real) (l : list A) :
  sum (map (fun x => f x - g x) l) = sum (map f l) - sum (map g l).
Proof.
  unfold sum. induction l as [|x l IH]; simpl; [ring|]. rewrite IH. ring.
Qed.

Lemma predict_score_eq (fm : FM) (X : SparseMatrix) :
  wf_sparse X -> wf_FM fm -> initialized fm = true ->
  sm_cols X = length (w fm) ->
  FM_hpp.predict_score fm X = Returns (direct_score fm X).
Proof.
  intros HX (HV & HP & HK) Hinit Hcols.
  unfold FM_hpp.predict_score. rewrite Hinit. simpl.
  rewrite times_eq by exact Hcols. simpl.
  assert (HVc : Forall (fun c => length c = sm_cols X) (dm_col (V fm))).
  { eapply Forall_impl; [|exact HV]. intros c Hc; simpl in Hc. lia. }
  replace (sm_cols X =? dm_rows (V fm)) with true
    by (symmetry; apply Nat.eqb_eq; lia).
  rewrite times_dense_eq by exact HVc. simpl.
  rewrite !map_map.
  assert (Hsq : map (fun c => square (map (fun r => dot r c) (sm_row X)))
                    (dm_col (V fm))
                = map (fun c => map (fun r => dot r c * dot r c) (sm_row X))
                      (dm_col (V fm))).
  { apply map_ext. intros c. unfold square. now rewrite map_map. }
  rewrite Hsq; clear Hsq.
  unfold sm_rows.
  rewrite (rowwise_sum_rows (fun r c => dot r c * dot r c)).
  rewrite map_map, cwise_map_map. simpl.
  rewrite times_eq.
  - simpl. rewrite map_map, cwise_map_map. unfold direct_score.
    f_equal. apply map_ext. intros x.
    rewrite dot_scale.
    rewrite (@dot_rowwise_sum (square x) (dm_rows (V fm))).
    + unfold quadratic_form, factor_term. rewrite sum_map_sub.
      rewrite map_map. unfold dsq. ring.
    + apply Forall_map. eapply Forall_impl; [|exact HV].
      intros c Hc; simpl in Hc. now rewrite square_length.
  - simpl. rewrite length_map, rowwise_sum_length; [lia|].
    apply Forall_map. eapply Forall_impl; [|exact HV].
    intros c Hc; simpl in Hc. now rewrite square_length.
Qed.

End NoBlock.
End FMNoBlock.

(** ** The deviates of a generator *)

Module DeviateFacts.
Section Facts.
Context {Real mt19937 normal_distribution : Type}
        `{StdRandom Real mt19937 normal_distribution}.

Lemma nd_after_S (n : nat) (st : normal_distribution * mt19937) :
  nd_after (S n) st = snd (nd_call (fst (nd_after n st)) (snd (nd_after n st))).
Proof.
  revert st; induction n as [|n IH]; intros st; [reflexivity|].
  change (nd_after (S (S n)) st)
    with (nd_after (S n) (snd (nd_call (fst st) (snd st)))).
  rewrite IH. reflexivity.
Qed.

Lemma nd_after_add (a b : nat) (st : normal_distribution * mt19937) :
  nd_after (a + b) st = nd_after b (nd_after a st).
Proof.
  revert st; induction a as [|a IH]; intros st; simpl; [reflexivity|].
  apply IH.
Qed.

Lemma nd_nth_add (a j : nat) (st : normal_distribution * mt19937) :
  nd_nth (a + j) st = nd_nth j (nd_after a st).
Proof. unfold nd_nth. now rewrite nd_after_add. Qed.

Lemma nd_nth_S (j : nat) (st : normal_distribution * mt19937) :
  nd_nth (S j) st = nd_nth j (snd (nd_call (fst st) (snd st))).
Proof. reflexivity. Qed.

End Facts.
End DeviateFacts.

(** ** The truncated-normal sampler *)

Module SamplerFacts.
Import util DeviateFacts.
Section Facts.
Context {mt19937 normal_distribution : Type}
        `{StdRandom R mt19937 normal_distribution}.
Local Open Scope R_scope.

Lemma rejection_loop_S (fuel : nat) (dist : normal_distribution)
      (gen : mt19937) (mu_minus : R) :
  rejection_loop (S fuel) dist gen mu_minus
  = let '(z, (dist', gen')) := nd_call dist gen in
    if Rgt_dec z mu_minus then Some (z, gen')
    else rejection_loop fuel dist' gen' mu_minus.
Proof. reflexivity. Qed.

Lemma nd_after_call (k : nat) (dist dist' : normal_distribution)
      (gen gen' : mt19937) (z : R) :
  nd_call dist gen = (z, (dist', gen')) ->
  nd_after (S k) (dist, gen) = nd_after k (dist', gen').
Proof.
  intros Hcall.
  change (nd_after (S k) (dist, gen))
    with (nd_after k (snd (nd_call dist gen))).
  now rewrite Hcall.
Qed.

Lemma nd_nth_call (k : nat) (dist dist' : normal_distribution)
      (gen gen' : mt19937) (z : R) :
  nd_call dist gen = (z, (dist', gen')) ->
  nd_nth (S k) (dist, gen) = nd_nth k (dist', gen').
Proof.
  intros Hcall. unfold nd_nth. now rewrite (@nd_after_call k _ _ _ _ _ Hcall).
Qed.

Lemma nd_nth_0 (dist dist' : normal_distribution) (gen gen' : mt19937) (z : R) :
  nd_call dist gen = (z, (dist', gen')) -> nd_nth 0 (dist, gen) = z.
Proof.
  intros Hcall.
  change (nd_nth 0 (dist, gen)) with (fst (nd_call dist gen)).
  now rewrite Hcall.
Qed.

(** The first loop is plain rejection. *)
Lemma rejection_loop_first (fuel : nat) :
  forall (dist : normal_distribution) (gen : mt19937) (mu_minus : R),
    match rejection_loop fuel dist gen mu_minus with
    | Some (z, gen') =>
        exists k, (k < fuel)%nat /\ first_exceeding k (dist, gen) mu_minus /\
                  z = nd_nth k (dist, gen) /\
                  gen' = snd (nd_after (S k) (dist, gen))
    | None => forall k, (k < fuel)%nat -> ~ nd_nth k (dist, gen) > mu_minus
    end.
Proof.
  induction fuel as [|fuel IH]; intros dist gen mu_minus.
  - simpl. intros k Hk. lia.
  - rewrite rejection_loop_S.
    destruct (nd_call dist gen) as [z [dist' gen']] eqn:Hcall.
    pose proof (@nd_nth_0 _ _ _ _ _ Hcall) as Hz.
    destruct (Rgt_dec z mu_minus) as [Hgt|Hle].
    + exists 0%nat.
      split; [lia|].
      split; [split; [now rewrite Hz | intros j Hj; lia]|].
      split; [now symmetry|].
      now rewrite (@nd_after_call 0 _ _ _ _ _ Hcall).
    + specialize (IH dist' gen' mu_minus).
      destruct (rejection_loop fuel dist' gen' mu_minus) as [[z' g']|].
      * destruct IH as (k & Hk & (Hfirst & Hbefore) & Hzk & Hg).
        exists (S k).
        split; [lia|].
        split; [split|split].
        -- rewrite (@nd_nth_call k _ _ _ _ _ Hcall). exact Hfirst.
        -- intros [|j] Hj; [now rewrite Hz|].
           rewrite (@nd_nth_call j _ _ _ _ _ Hcall). apply Hbefore. lia.
        -- rewrite (@nd_nth_call k _ _ _ _ _ Hcall). exact Hzk.
        -- rewrite (@nd_after_call (S k) _ _ _ _ _ Hcall). exact Hg.
      * intros [|k] Hk; [now rewrite Hz|].
        rewrite (@nd_nth_call k _ _ _ _ _ Hcall). apply IH. lia.
Qed.

End Facts.
End SamplerFacts.

(** ** [initialize_weight] *)

Module InitFacts.
Import Eigen FM DeviateFacts.
Section Facts.
Context {Real : Type} `{RealOps Real}.
Context {mt19937 normal_distribution : Type}
        `{StdRandom Real mt19937 normal_distribution}.
Local Open Scope real_scope.
Local Abbreviation Vector := (Eigen.Vector Real).

Variable init_std : Real.

Lemma get_rand_eq (st : normal_distribution * mt19937) :
  get_rand init_std st = (nd_nth 0 st * init_std, nd_after 1 st).
Proof.
  unfold get_rand, nd_nth. simpl.
  destruct (nd_call (fst st) (snd st)) as [z st']. reflexivity.
Qed.

Lemma rand_vector_S (n : nat) (st : normal_distribution * mt19937) :
  rand_vector (S n) init_std st
  = (nd_nth 0 st * init_std :: fst (rand_vector n init_std (nd_after 1 st)),
     snd (rand_vector n init_std (nd_after 1 st))).
Proof.
  cbn [rand_vector]. rewrite get_rand_eq.
  destruct (rand_vector n init_std (nd_after 1 st)). reflexivity.
Qed.

Lemma rand_vector_spec (n : nat) :
  forall st : normal_distribution * mt19937,
    snd (rand_vector n init_std st) = nd_after n st /\
    length (fst (rand_vector n init_std st)) = n /\
    forall j, (j < n)%nat ->
              nth j (fst (rand_vector n init_std st)) r0
              = nd_nth j st * init_std.
Proof.
  induction n as [|n IH]; intros st.
  - simpl. repeat split. intros j Hj. lia.
  - rewrite rand_vector_S. cbn [fst snd].
    destruct (IH (nd_after 1 st)) as (Hst & Hlen & Hnth).
    split; [|split].
    + rewrite Hst. now rewrite <- (nd_after_add 1 n).
    + cbn [length]. now rewrite Hlen.
    + intros [|j] Hj; [reflexivity|].
      cbn [nth]. rewrite Hnth by lia. now rewrite <- (nd_nth_add 1 j).
Qed.

Lemma rand_columns_S (rows cols : nat) (st : normal_distribution * mt19937) :
  rand_columns rows (S cols) init_std st
  = (fst (rand_vector rows init_std st)
       :: fst (rand_columns rows cols init_std (nd_after rows st)),
     snd (rand_columns rows cols init_std (nd_after rows st))).
Proof.
  cbn [rand_columns]. destruct (rand_vector_spec rows st) as (Hst & _ & _).
  destruct (rand_vector rows init_std st) as [c st1].
  cbn [fst snd] in Hst |- *. subst st1.
  destruct (rand_columns rows cols init_std (nd_after rows st)). reflexivity.
Qed.

Lemma rand_columns_spec (rows cols : nat) :
  forall st : normal_distribution * mt19937,
    snd (rand_columns rows cols init_std st) = nd_after (cols * rows) st /\
    length (fst (rand_columns rows cols init_std st)) = cols /\
    Forall (fun c => length c = rows) (fst (rand_columns rows cols init_std st)) /\
    forall f j, (f < cols)%nat -> (j < rows)%nat ->
                nth j (nth f (fst (rand_columns rows cols init_std st)) []) r0
                = nd_nth (f * rows + j) st * init_std.
Proof.
  induction cols as [|cols IH]; intros st.
  - simpl. repeat split; [constructor|]. intros f j Hf. lia.
  - rewrite rand_columns_S. cbn [fst snd].
    destruct (IH (nd_after rows st)) as (Hst & Hlen & Hall & Hnth).
    destruct (rand_vector_spec rows st) as (_ & Hvlen & Hvnth).
    split; [|split; [|split]].
    + rewrite Hst. rewrite <- nd_after_add. f_equal; simpl; lia.
    + cbn [length]. now rewrite Hlen.
    + constructor; assumption.
    + intros [|f] j Hf Hj.
      * cbn [nth]. rewrite Hvnth by exact Hj. reflexivity.
      * cbn [nth]. rewrite Hnth by lia.
        rewrite <- nd_nth_add. f_equal; f_equal; simpl; lia.
Qed.

End Facts.
End InitFacts.

(** ** The columns of the expanded matrix *)

Module FMLayout.
Import Eigen relational Spec FMBlocks.
Section Layout.
Context {Real : Type} `{RealOps Real}.
Local Abbreviation Vector := (Eigen.Vector Real).
Local Abbreviation SparseMatrix := (Eigen.SparseMatrix Real).
Local Abbreviation RelationBlock := (relational.RelationBlock Real).

Lemma nth_hstack (a b : list Vector) (i : nat) :
  length a = length b -> i < length a ->
  nth i (hstack a b) [] = nth i a [] ++ nth i b [].
Proof.
  revert b i; induction a as [|x a IH]; intros [|y b] i Hlen Hi;
    simpl in *; try discriminate; try lia.
  destruct i as [|i]; [reflexivity|]. apply IH; lia.
Qed.

Lemma nth_gather (rel : RelationBlock) (i : nat) :
  i < length (original_to_block rel) ->
  nth i (gather rel) [] = block_row rel i.
Proof.
  intros Hi. unfold gather, block_row, row.
  rewrite (nth_indep _ [] (nth 0 (sm_row (X rel)) []))
    by (now rewrite length_map).
  apply (map_nth (fun j => nth j (sm_row (X rel)) [])).
Qed.

Lemma row_length (X : SparseMatrix) (i : nat) :
  wf_sparse X -> i < sm_rows X -> length (row i X) = sm_cols X.
Proof.
  intros HX Hi. unfold wf_sparse in HX. rewrite Forall_forall in HX.
  apply HX. now apply nth_In.
Qed.

Lemma block_row_length (rel : RelationBlock) (i : nat) :
  wf_block rel -> i < length (original_to_block rel) ->
  length (block_row rel i) = feature_size rel.
Proof.
  intros (HX & HF & Hidx) Hi. unfold block_row. rewrite HF.
  apply row_length; [exact HX|].
  rewrite Forall_forall in Hidx. apply Hidx. now apply nth_In.
Qed.

Lemma row_concat (X : SparseMatrix) (rel : RelationBlock) (i : nat) :
  length (original_to_block rel) = sm_rows X -> i < sm_rows X ->
  row i (concat X rel) = row i X ++ block_row rel i.
Proof.
  intros Hlen Hi. unfold row, concat; simpl.
  rewrite nth_hstack.
  - rewrite nth_gather by lia. reflexivity.
  - rewrite gather_length. now symmetry.
  - exact Hi.
Qed.

Lemma expand_layout (relations : list RelationBlock) :
  forall X : SparseMatrix,
    wf_sparse X -> Forall wf_block relations ->
    Forall (fun rel => length (original_to_block rel) = sm_rows X) relations ->
    positional_layout X relations.
Proof.
  induction relations as [|rel rest IH]; intros X HX Hwf Hlen.
  - split.
    + unfold total_feature_width; simpl. lia.
    + intros i Hi. split.
      * apply firstn_all2. simpl. rewrite row_length by assumption. lia.
      * intros [|k] rel' Hk; discriminate.
  - inversion Hwf as [|? ? Hrel Hwf']; subst.
    inversion Hlen as [|? ? Hl Hlen']; subst.
    assert (HX' : wf_sparse (concat X rel)) by (now apply wf_concat).
    assert (Hrows : sm_rows (concat X rel) = sm_rows X)
      by (now apply concat_rows).
    assert (Hlen'' : Forall (fun r => length (original_to_block r)
                                      = sm_rows (concat X rel)) rest)
      by (now rewrite Hrows).
    destruct (IH (concat X rel) HX' Hwf' Hlen'') as [Hcols Hrow].
    unfold positional_layout.
    change (expand X (rel :: rest)) with (expand (concat X rel) rest).
    split.
    + rewrite Hcols. unfold total_feature_width; simpl. lia.
    + intros i Hi.
      assert (Hi' : i < sm_rows (concat X rel)) by (now rewrite Hrows).
      destruct (Hrow i Hi') as [Hbase Hblocks].
      rewrite row_concat in Hbase by assumption.
      change (sm_cols (concat X rel)) with (sm_cols X + feature_size rel)
        in Hbase.
      pose proof (@row_length X i HX Hi) as Hxi.
      assert (Hbi : length (block_row rel i) = feature_size rel)
        by (apply block_row_length; [assumption | lia]).
      split.
      * replace (sm_cols X) with (Nat.min (sm_cols X) (sm_cols X + feature_size rel))
          at 1 by lia.
        rewrite <- firstn_firstn, Hbase.
        rewrite firstn_app, Hxi, Nat.sub_diag. simpl.
        rewrite app_nil_r. apply firstn_all2. lia.
      * intros [|k] rel' Hk; simpl in Hk.
        -- injection Hk as <-.
           unfold block_offset, total_feature_width; simpl.
           rewrite Nat.add_0_r, firstn_skipn_comm, Hbase.
           rewrite skipn_app, Hxi, Nat.sub_diag. simpl.
           rewrite skipn_all2 by lia. reflexivity.
        -- replace (block_offset X (rel :: rest) (S k))
             with (block_offset (concat X rel) rest k)
             by (unfold block_offset, total_feature_width; simpl; lia).
           now apply Hblocks.
Qed.

(** With the identity mapping the block row of case [i] is row [i] of the
    block. *)
Lemma gather_identity (rel : RelationBlock) :
  identity_mapping rel -> gather rel = sm_row (X rel).
Proof.
  unfold identity_mapping, gather, block_size, sm_rows. intros ->.
  induction (sm_row (X rel)) as [|r rows IH] using rev_ind; [reflexivity|].
  rewrite length_app, seq_app, map_app. simpl.
  rewrite app_nth2, Nat.sub_diag by lia. simpl. f_equal.
  rewrite <- IH at 2. apply map_ext_in. intros i Hi.
  apply in_seq in Hi. now rewrite app_nth1 by lia.
Qed.

End Layout.
End FMLayout.

(** ** Binary64 arithmetic *)

Module Binary64Facts.
Import SpecFloat FloatOps FloatAxioms binary64.
Local Open Scope Z_scope.

Local Abbreviation fexp := (SpecFloat.fexp prec emax).

Lemma fexp_eq (e : Z) : fexp e = Z.max (e - 53) (-1074).
Proof. reflexivity. Qed.

Lemma digits2_size (m : positive) : digits2_pos m = Pos.size m.
Proof. induction m as [m IH|m IH|]; simpl; now rewrite ?IH. Qed.

Lemma digits2_log2 (m : positive) : Zpos (digits2_pos m) = Z.log2 (Zpos m) + 1.
Proof.
  rewrite digits2_size.
  destruct m as [m|m|]; simpl; try rewrite Pos2Z.inj_succ; lia.
Qed.

Lemma shr_1_m (r : shr_record) : 0 <= shr_m r -> shr_m (shr_1 r) = shr_m r / 2.
Proof.
  destruct r as [m r s]. simpl. intros Hm. rewrite <- Z.div2_div.
  destruct m as [|[p|p|]|p]; try reflexivity. lia.
Qed.

Lemma pow2_xO (p : positive) : 2 ^ Zpos p~0 = 2 ^ Zpos p * 2 ^ Zpos p.
Proof.
  replace (Zpos p~0) with (Zpos p + Zpos p) by lia.
  apply Z.pow_add_r; lia.
Qed.

Lemma pow2_xI (p : positive) : 2 ^ Zpos p~1 = 2 * (2 ^ Zpos p * 2 ^ Zpos p).
Proof.
  replace (Zpos p~1) with (1 + (Zpos p + Zpos p)) by lia.
  rewrite Z.pow_add_r by lia. rewrite Z.pow_add_r by lia. reflexivity.
Qed.

Lemma shr_iter_m (p : positive) :
  forall r, 0 <= shr_m r -> shr_m (iter_pos shr_1 p r) = shr_m r / 2 ^ Zpos p.
Proof.
  induction p as [p IH|p IH|]; intros r Hr; simpl iter_pos.
  - assert (H1 : 0 <= shr_m (shr_1 r))
      by (rewrite shr_1_m by exact Hr; apply Z.div_pos; lia).
    assert (H2 : 0 <= shr_m (iter_pos shr_1 p (shr_1 r)))
      by (rewrite IH by exact H1; apply Z.div_pos; lia).
    rewrite IH by exact H2. rewrite IH by exact H1. rewrite shr_1_m by exact Hr.
    rewrite !Z.div_div by lia. f_equal.
    rewrite pow2_xI. ring.
  - assert (H2 : 0 <= shr_m (iter_pos shr_1 p r))
      by (rewrite IH by exact Hr; apply Z.div_pos; lia).
    rewrite IH by exact H2. rewrite IH by exact Hr.
    rewrite Z.div_div by lia. f_equal.
    now rewrite pow2_xO.
  - rewrite shr_1_m by exact Hr. reflexivity.
Qed.

(** [shr] by [n] bits: the mantissa is divided by [2^n], the exponent is
    raised by [n]. *)
Lemma shr_spec (r : shr_record) (e n : Z) :
  0 <= shr_m r ->
  shr_m (fst (shr r e n)) = shr_m r / 2 ^ Z.max 0 n /\
  snd (shr r e n) = e + Z.max 0 n.
Proof.
  intros Hr. destruct n as [|p|p]; simpl.
  - rewrite Z.div_1_r. split; [reflexivity | lia].
  - rewrite shr_iter_m by exact Hr. split; reflexivity.
  - rewrite Z.div_1_r. split; [reflexivity | lia].
Qed.

Lemma shr_record_of_loc_m (m : Z) (l : location) :
  shr_m (shr_record_of_loc m l) = m.
Proof. destruct l as [|[]]; reflexivity. Qed.

Lemma round_nearest_even_range (m : Z) (l : location) :
  m <= round_nearest_even m l <= m + 1.
Proof.
  unfold round_nearest_even.
  destruct l as [|[]]; try destruct (Z.even m); lia.
Qed.

Lemma iter_xO (d m : positive) :
  Zpos (Pos.iter xO m d) = Zpos m * 2 ^ Zpos d.
Proof.
  induction d as [|d IH] using Pos.peano_ind.
  - simpl. lia.
  - rewrite Pos.iter_succ, Pos2Z.inj_succ, Z.pow_succ_r by lia.
    change (Zpos (Pos.iter xO m d)~0) with (2 * Zpos (Pos.iter xO m d)).
    rewrite IH. ring.
Qed.

(** [shl_align] to a lower exponent keeps the value. *)
Lemma shl_align_spec (m : positive) (e e' : Z) :
  e' <= e ->
  Zpos (fst (shl_align m e e')) = Zpos m * 2 ^ (e - e').
Proof.
  intros He. unfold shl_align.
  destruct (e' - e) as [|d|d] eqn:Hd; simpl fst.
  - replace (e - e') with 0 by lia. simpl. lia.
  - lia.
  - rewrite iter_xO. f_equal. f_equal. lia.
Qed.

Lemma shl_align_id (m : positive) (e e' : Z) :
  e <= e' -> shl_align m e e' = (m, e).
Proof.
  intros He. unfold shl_align.
  destruct (e' - e) as [|d|d] eqn:Hd; try reflexivity. lia.
Qed.

Lemma Zdigits2_log2 (m : Z) : 0 < m -> Zdigits2 m = Z.log2 m + 1.
Proof.
  destruct m as [|p|p]; try lia. intros _. apply digits2_log2.
Qed.

Lemma pow2_le_log2 (m k : Z) : 0 < m -> 0 <= k <= Z.log2 m -> 2 ^ k <= m.
Proof.
  intros Hm Hk. apply (Z.le_trans _ (2 ^ Z.log2 m)).
  - apply Z.pow_le_mono_r; lia.
  - now apply Z.log2_spec.
Qed.

Lemma shifted_pos (m k : Z) : 0 < m -> 0 <= k <= Z.log2 m -> 0 < m / 2 ^ k.
Proof.
  intros Hm Hk. apply Z.div_str_pos. split.
  - apply Z.pow_pos_nonneg; lia.
  - now apply pow2_le_log2.
Qed.

(** Rounding a positive number that is not below a representable one does
    not go below it. *)
Lemma binary_round_ge (m mt : positive) (e et : Z) :
  fexp (Zpos (digits2_pos mt) + et) = et ->
  e <= et ->
  Zpos mt * 2 ^ (et - e) <= Zpos m ->
  SFleb (S754_finite false mt et) (binary_round prec emax false m e) = true.
Proof.
  intros Hcan He Hval.
  pose proof (digits2_log2 m) as Hd. pose proof (digits2_log2 mt) as Hdt.
  pose proof (Z.log2_nonneg (Zpos m)) as Hl0.
  pose proof (Z.log2_nonneg (Zpos mt)) as Hlt0.
  assert (Hlog : Z.log2 (Zpos mt) + (et - e) <= Z.log2 (Zpos m)).
  { rewrite Z.add_comm, <- Z.log2_mul_pow2 by lia. now apply Z.log2_le_mono. }
  rewrite fexp_eq in Hcan.
  set (f := fexp (Zpos (digits2_pos m) + e)).
  assert (Hf : f = Z.max (Z.log2 (Zpos m) + 1 + e - 53) (-1074))
    by (unfold f; rewrite fexp_eq, Hd; reflexivity).
  assert (Hfe : et <= f) by lia.
  unfold binary_round. fold f. rewrite shl_align_id by lia.
  unfold binary_round_aux, shr_fexp.
  change (Zdigits2 (Zpos m)) with (Zpos (digits2_pos m)). fold f.
  destruct (shr_spec (shr_record_of_loc (Zpos m) loc_Exact) e (f - e))
    as [Hm1 He1]; [simpl; lia|].
  destruct (shr (shr_record_of_loc (Zpos m) loc_Exact) e (f - e))
    as [mrs1 e1] eqn:Hs1.
  cbn [fst snd] in Hm1, He1. rewrite shr_record_of_loc_m in Hm1.
  assert (He1' : e1 = f) by lia. clear He1. subst e1.
  set (m1 := shr_m mrs1) in *.
  assert (Hm1pos : 0 < m1).
  { rewrite Hm1. apply shifted_pos; lia. }
  assert (Hm1t : f = et -> Zpos mt <= m1).
  { intros E. rewrite Hm1.
    replace (Z.max 0 (f - e)) with (et - e) by lia.
    apply Z.div_le_lower_bound; [apply Z.pow_pos_nonneg; lia|].
    rewrite Z.mul_comm. exact Hval. }
  pose proof (round_nearest_even_range m1 (loc_of_shr_record mrs1)) as Hm2.
  set (m2 := round_nearest_even m1 (loc_of_shr_record mrs1)) in *.
  pose proof (Z.log2_nonneg m2) as Hl2.
  destruct (shr_spec (shr_record_of_loc m2 loc_Exact) f
                     (fexp (Zdigits2 m2 + f) - f)) as [Hm3 He3];
    [rewrite shr_record_of_loc_m; lia|].
  destruct (shr (shr_record_of_loc m2 loc_Exact) f (fexp (Zdigits2 m2 + f) - f))
    as [mrs2 e2] eqn:Hs2.
  cbn [fst snd] in Hm3, He3. rewrite shr_record_of_loc_m in Hm3.
  rewrite fexp_eq, Zdigits2_log2 in Hm3, He3 by lia.
  assert (Hm3pos : 0 < shr_m mrs2).
  { rewrite Hm3. apply shifted_pos; lia. }
  destruct (shr_m mrs2) as [|p3|p3] eqn:Hp3; try lia.
  destruct (e2 <=? emax - prec); [|reflexivity].
  unfold SFleb, SFcompare.
  destruct (Z.compare_spec et e2) as [E|E|E]; try reflexivity; [|lia].
  assert (Ef : f = et) by lia.
  assert (E3 : Zpos p3 = m2).
  { rewrite Hm3. replace (Z.max 0 _) with 0 by lia. simpl. apply Z.div_1_r. }
  change (Pos.compare_cont Eq mt p3) with (mt ?= p3)%positive.
  destruct (Pos.compare_spec mt p3) as [E'|E'|E']; try reflexivity.
  specialize (Hm1t Ef). lia.
Qed.

(** *** The sign of a rounded result *)

Lemma binary_round_aux_sign (sx : bool) (mx ex : Z) (lx : location) :
  0 <= mx ->
  match binary_round_aux prec emax sx mx ex lx with
  | S754_nan => False
  | S754_zero s | S754_infinity s | S754_finite s _ _ => s = sx
  end.
Proof.
  intros Hm. unfold binary_round_aux, shr_fexp.
  destruct (shr_spec (shr_record_of_loc mx lx) ex
                     (fexp (Zdigits2 mx + ex) - ex)) as [Hm1 _];
    [rewrite shr_record_of_loc_m; exact Hm|].
  destruct (shr (shr_record_of_loc mx lx) ex (fexp (Zdigits2 mx + ex) - ex))
    as [mrs1 e1].
  cbn [fst] in Hm1. rewrite shr_record_of_loc_m in Hm1.
  assert (Hm1pos : 0 <= shr_m mrs1)
    by (rewrite Hm1; apply Z.div_pos; [exact Hm | apply Z.pow_pos_nonneg; lia]).
  pose proof (round_nearest_even_range (shr_m mrs1) (loc_of_shr_record mrs1))
    as Hm2.
  set (m2 := round_nearest_even (shr_m mrs1) (loc_of_shr_record mrs1)) in *.
  destruct (shr_spec (shr_record_of_loc m2 loc_Exact) e1
                     (fexp (Zdigits2 m2 + e1) - e1)) as [Hm3 _];
    [rewrite shr_record_of_loc_m; lia|].
  destruct (shr (shr_record_of_loc m2 loc_Exact) e1 (fexp (Zdigits2 m2 + e1) - e1))
    as [mrs2 e2].
  cbn [fst] in Hm3. rewrite shr_record_of_loc_m in Hm3.
  assert (Hm3pos : 0 <= shr_m mrs2)
    by (rewrite Hm3; apply Z.div_pos; [lia | apply Z.pow_pos_nonneg; lia]).
  destruct (shr_m mrs2) as [|p|p]; try lia; [reflexivity|].
  destruct (e2 <=? emax - prec); reflexivity.
Qed.

Lemma binary_round_aux_clear (mx ex : Z) (lx : location) :
  0 <= mx -> sign_clear (binary_round_aux prec emax false mx ex lx) = true.
Proof.
  intros Hm. pose proof (binary_round_aux_sign false ex lx Hm) as Hs.
  destruct (binary_round_aux prec emax false mx ex lx); subst; try reflexivity.
Qed.

Lemma sign_clear_not_neg (x : spec_float) :
  sign_clear x = true -> not_neg x = true.
Proof. destruct x as [s|s| |s m e]; simpl; auto. Qed.

Lemma mul_self_clear (x : spec_float) : sign_clear (SF64mul x x) = true.
Proof.
  destruct x as [s|s| |s m e]; simpl;
    [destruct s; reflexivity | destruct s; reflexivity | reflexivity |].
  replace (xorb s s) with false by (destruct s; reflexivity).
  now apply binary_round_aux_clear.
Qed.

(** The sum of two finite numbers above zero: the mantissas are aligned to
    the lower exponent, added, and the sum is rounded. *)
Lemma add_finite (ma mb : positive) (ea eb : Z) :
  SF64add (S754_finite false ma ea) (S754_finite false mb eb)
  = binary_round prec emax false
      (fst (shl_align ma ea (Z.min ea eb)) + fst (shl_align mb eb (Z.min ea eb)))
      (Z.min ea eb).
Proof. reflexivity. Qed.

Lemma binary_round_clear (m : positive) (e : Z) :
  sign_clear (binary_round prec emax false m e) = true.
Proof.
  unfold binary_round. destruct (shl_align _ _ _) as [mz ez].
  now apply binary_round_aux_clear.
Qed.

Lemma add_clear (a b : spec_float) :
  not_neg a = true -> sign_clear b = true -> sign_clear (SF64add a b) = true.
Proof.
  destruct a as [sa|sa| |sa ma ea], b as [sb|sb| |sb mb eb];
    try (intros _ _; reflexivity);
    try (destruct sa; try discriminate); try (destruct sb; try discriminate);
    try (intros _ _; reflexivity).
  intros _ _. rewrite add_finite. apply binary_round_clear.
Qed.

Lemma div_eucl_fst (a b : Z) : fst (Z.div_eucl a b) = a / b.
Proof. unfold Z.div. now destruct (Z.div_eucl a b). Qed.

Lemma div_core_nonneg (m1 m2 : positive) (e1 e2 : Z) :
  0 <= fst (fst (SFdiv_core_binary prec emax (Zpos m1) e1 (Zpos m2) e2)).
Proof.
  unfold SFdiv_core_binary.
  set (s := IntDef.Z.sub (IntDef.Z.sub e1 e2) _).
  set (m' := match s with Z0 => Zpos m1 | Zpos _ => Z.shiftl (Zpos m1) s
                        | Zneg _ => Z0 end).
  assert (Hm' : 0 <= m').
  { unfold m'. destruct s; try lia. apply Z.shiftl_nonneg. lia. }
  pose proof (div_eucl_fst m' (Zpos m2)) as Hq.
  change (IntDef.Z.div_eucl m' (Zpos m2)) with (Z.div_eucl m' (Zpos m2)).
  destruct (Z.div_eucl m' (Zpos m2)) as [q r]. cbn [fst] in *.
  rewrite Hq. apply Z.div_pos; lia.
Qed.

Lemma div_finite_clear (sx sy : bool) (mx my : positive) (ex ey : Z) :
  match SF64div (S754_finite sx mx ex) (S754_finite sy my ey) with
  | S754_nan => False
  | S754_zero s | S754_infinity s | S754_finite s _ _ => s = xorb sx sy
  end.
Proof.
  unfold SF64div, SFdiv.
  pose proof (div_core_nonneg mx my ex ey) as Hq.
  destruct (SFdiv_core_binary prec emax (Zpos mx) ex (Zpos my) ey) as [[q e] l].
  cbn [fst] in Hq. now apply binary_round_aux_sign.
Qed.

Lemma div_not_neg (a b : spec_float) :
  not_neg a = true -> sign_clear b = true -> not_neg (SF64div a b) = true.
Proof.
  destruct a as [sa|sa| |sa ma ea], b as [sb|sb| |sb mb eb];
    try (intros _ _; reflexivity);
    try (destruct sa; try discriminate); try (destruct sb; try discriminate);
    try (intros _ _; reflexivity).
  intros _ _.
  pose proof (div_finite_clear false false ma mb ea eb) as Hs.
  destruct (SF64div _ _); subst; reflexivity.
Qed.

Lemma div_clear (a b : spec_float) :
  sign_clear a = true -> sign_clear b = true -> sign_clear (SF64div a b) = true.
Proof.
  destruct a as [sa|sa| |sa ma ea], b as [sb|sb| |sb mb eb];
    try (intros _ _; reflexivity);
    try (destruct sa; try discriminate); try (destruct sb; try discriminate);
    try (intros _ _; reflexivity).
  intros _ _.
  pose proof (div_finite_clear false false ma mb ea eb) as Hs.
  destruct (SF64div _ _); subst; reflexivity.
Qed.

Lemma sqrt_core_nonneg (m : positive) (e : Z) :
  0 <= fst (fst (SFsqrt_core_binary prec emax (Zpos m) e)).
Proof.
  unfold SFsqrt_core_binary.
  set (s := IntDef.Z.sub e _).
  set (m' := match s with Z0 => Zpos m | Zpos _ => Z.shiftl (Zpos m) s
                        | Zneg _ => Z0 end).
  assert (Hm' : 0 <= m').
  { unfold m'. destruct s; try lia. apply Z.shiftl_nonneg. lia. }
  pose proof (Z.sqrtrem_spec m' Hm') as Hq.
  change (IntDef.Z.sqrtrem m') with (Z.sqrtrem m').
  destruct (Z.sqrtrem m') as [q r]. cbn [fst]. lia.
Qed.

Lemma sqrt_clear (a : spec_float) :
  sign_clear a = true -> sign_clear (SF64sqrt a) = true.
Proof.
  destruct a as [s|s| |s m e]; try (intros _; reflexivity);
    destruct s; try discriminate; try (intros _; reflexivity).
  intros _. unfold SF64sqrt, SFsqrt.
  pose proof (sqrt_core_nonneg m e) as Hq.
  destruct (SFsqrt_core_binary prec emax (Zpos m) e) as [[q e'] l].
  cbn [fst] in Hq. now apply binary_round_aux_clear.
Qed.

(** *** Comparison *)

Lemma compare_refl (x : spec_float) :
  is_nan x = false -> SFcompare x x = Some Eq.
Proof.
  destruct x as [s|s| |s m e]; try discriminate; intros _; simpl.
  - reflexivity.
  - now destruct s.
  - rewrite Z.compare_refl.
    change (Pos.compare_cont Eq m m) with (m ?= m)%positive.
    rewrite Pos.compare_refl. now destruct s.
Qed.

Lemma leb_refl (x : spec_float) : is_nan x = false -> SFleb x x = true.
Proof. intros Hx. unfold SFleb. now rewrite compare_refl. Qed.

(** A number that is not below zero, added to [t], does not give less than
    [t]. *)
Lemma add_ge (q t : spec_float) :
  valid_binary t = true ->
  not_neg q = true -> not_neg t = true ->
  is_nan q = false -> is_nan t = false ->
  SFleb t (SF64add q t) = true.
Proof.
  intros Hv Hq Ht Hnq Hnt.
  destruct q as [sq|sq| |sq mq eq], t as [st|st| |st mt et];
    try discriminate;
    try (destruct sq; try discriminate); try (destruct st; try discriminate);
    try reflexivity.
  - apply (leb_refl (S754_finite false mt et)). reflexivity.
  - apply (leb_refl (S754_finite false mt et)). reflexivity.
  - rewrite add_finite.
    simpl in Hv. unfold bounded, canonical_mantissa in Hv.
    apply andb_prop in Hv. destruct Hv as [Hc _].
    apply Z.eqb_eq in Hc.
    apply binary_round_ge; [exact Hc | apply Z.le_min_r|].
    rewrite Pos2Z.inj_add, (shl_align_spec mt (e := et) (e' := Z.min eq et))
      by apply Z.le_min_r.
    lia.
Qed.

Lemma compare_opp (x y : spec_float) :
  SFcompare (SFopp x) (SFopp y) = SFcompare y x.
Proof.
  destruct x as [sx|sx| |sx mx ex], y as [sy|sy| |sy my ey]; simpl;
    try reflexivity;
    try (destruct sx; reflexivity); try (destruct sy; reflexivity);
    try (destruct sx, sy; reflexivity).
  rewrite (Z.compare_antisym ey ex).
  change (Pos.compare_cont Eq mx my) with (mx ?= my)%positive.
  change (Pos.compare_cont Eq my mx) with (my ?= mx)%positive.
  rewrite (Pos.compare_antisym my mx).
  destruct sx, sy; simpl; try reflexivity;
    destruct (ey ?= ex); simpl; try reflexivity;
    destruct (my ?= mx)%positive; reflexivity.
Qed.

Lemma opp_involutive (x : spec_float) : SFopp (SFopp x) = x.
Proof. destruct x as [s|s| |s m e]; simpl; now rewrite ?negb_involutive. Qed.

End Binary64Facts.

Module SamplerBinary64.
Import PrimFloat SpecFloat FloatOps FloatAxioms binary64 Binary64Facts util_binary64.

Lemma is_nan_spec (x : float) :
  PrimFloat.is_nan x = binary64.is_nan (Prim2SF x).
Proof.
  unfold PrimFloat.is_nan. rewrite eqb_spec. unfold SFeqb.
  destruct (binary64.is_nan (Prim2SF x)) eqn:E.
  - destruct (Prim2SF x); try discriminate. reflexivity.
  - now rewrite compare_refl.
Qed.

Lemma ltb_nan_r (u x : float) :
  PrimFloat.is_nan x = true -> (u <? x)%float = false.
Proof.
  rewrite is_nan_spec, ltb_spec. unfold SFltb.
  destruct (Prim2SF x); try discriminate. intros _.
  now destruct (Prim2SF u).
Qed.

Lemma ltb_leb (x y : float) : (x <? y)%float = true -> (x <=? y)%float = true.
Proof.
  rewrite ltb_spec, leb_spec. unfold SFltb, SFleb.
  destruct (SFcompare (Prim2SF x) (Prim2SF y)) as [[]|]; auto.
Qed.

Lemma add_nan (a b : spec_float) :
  binary64.is_nan (SF64add a b) = false ->
  binary64.is_nan a = false /\ binary64.is_nan b = false.
Proof. destruct a, b; simpl; auto. Qed.

(** The argument of [exp] is NaN when the candidate is. *)
Lemma rho_argument_nan (z a : float) :
  PrimFloat.is_nan z = true ->
  PrimFloat.is_nan ((- (z - a)) * (z - a) / 2)%float = true.
Proof.
  rewrite !is_nan_spec, div_spec, mul_spec, opp_spec, sub_spec.
  destruct (Prim2SF z); try discriminate. reflexivity.
Qed.

Lemma not_below_zero (x : float) :
  (x <? 0)%float = false -> not_neg (Prim2SF x) = true.
Proof.
  rewrite ltb_spec. change (Prim2SF 0) with (S754_zero false).
  unfold SFltb. destruct (Prim2SF x) as [s|s| |s m e]; simpl; try reflexivity;
    destruct s; simpl; congruence.
Qed.

Lemma opp_not_above_zero (l : float) :
  (l <=? 0)%float = true ->
  not_neg (Prim2SF (- l)) = true /\ binary64.is_nan (Prim2SF (- l)) = false.
Proof.
  rewrite leb_spec, opp_spec. change (Prim2SF 0) with (S754_zero false).
  unfold SFleb. destruct (Prim2SF l) as [s|s| |s m e]; simpl; try discriminate;
    try (split; reflexivity); destruct s; simpl; try discriminate; auto.
Qed.

(** [alpha_star] is NaN or has a clear sign bit. *)
Lemma alpha_star_clear (t : float) :
  not_neg (Prim2SF t) = true ->
  sign_clear (Prim2SF ((t + PrimFloat.sqrt (t * t + 4)) / 2)%float) = true.
Proof.
  intros Ht. rewrite div_spec, add_spec, sqrt_spec, add_spec, mul_spec.
  apply div_clear; [|reflexivity].
  apply add_clear; [exact Ht|].
  apply sqrt_clear. apply add_clear; [|reflexivity].
  apply sign_clear_not_neg, mul_self_clear.
Qed.

Section Support.
Context {mt19937 normal_distribution : Type}
        `{StdRandom float mt19937 normal_distribution} `{Libm}.

Hypothesis uniform_range :
  forall g : mt19937,
    (0 <=? fst (urd_call g))%float = true /\ (fst (urd_call g) <? 1)%float = true.
Hypothesis log_not_positive :
  forall u : float,
    (0 <=? u)%float = true -> (u <? 1)%float = true -> (log u <=? 0)%float = true.
Hypothesis exp_nan :
  forall x : float, PrimFloat.is_nan x = true -> PrimFloat.is_nan (exp x) = true.

Lemma rejection_loop_above (fuel : nat) :
  forall (dist : normal_distribution) (gen gen' : mt19937) (t z : float),
    rejection_loop fuel dist gen t = Some (z, gen') -> (t <? z)%float = true.
Proof.
  induction fuel as [|fuel IH]; intros dist gen gen' t z; simpl; [discriminate|].
  destruct (nd_call dist gen) as [z0 [dist' gen0]].
  destruct (t <? z0)%float eqn:E.
  - now intros [= <- _].
  - apply IH.
Qed.

Lemma candidate_not_below (t u0 : float) :
  (t <? 0)%float = false ->
  (0 <=? u0)%float = true -> (u0 <? 1)%float = true ->
  let alpha_star := ((t + PrimFloat.sqrt (t * t + 4)) / 2)%float in
  let z := ((- log u0) / alpha_star + t)%float in
  PrimFloat.is_nan z = false -> (t <=? z)%float = true.
Proof.
  intros Ht Hu0 Hu1 alpha_star z Hz.
  rewrite is_nan_spec in Hz. unfold z in Hz |- *.
  rewrite add_spec in Hz. rewrite leb_spec, add_spec.
  destruct (add_nan _ _ Hz) as [Hq Hnt].
  pose proof (not_below_zero Ht) as Hnn.
  destruct (opp_not_above_zero (log_not_positive Hu0 Hu1)) as [Hl _].
  apply add_ge; try assumption.
  - apply Prim2SF_valid.
  - rewrite div_spec. apply div_not_neg; [exact Hl|].
    now apply alpha_star_clear.
Qed.

Lemma envelope_loop_not_below (t : float) (fuel : nat) :
  (t <? 0)%float = false ->
  forall (gen gen' : mt19937) (z : float),
    envelope_loop fuel gen ((t + PrimFloat.sqrt (t * t + 4)) / 2)%float t
    = Some (z, gen') ->
    (t <=? z)%float = true.
Proof.
  intros Ht. induction fuel as [|fuel IH]; intros gen gen' z; simpl;
    [discriminate|].
  pose proof (uniform_range gen) as [Hu0 Hu1].
  destruct (urd_call gen) as [u0 gen1]. cbn [fst] in Hu0, Hu1.
  destruct (urd_call gen1) as [u gen2].
  match goal with |- context [(u <? exp ?a)%float] =>
    destruct (u <? exp a)%float eqn:E; [|apply IH] end.
  intros [= <- _].
  apply candidate_not_below; try assumption.
  destruct (PrimFloat.is_nan _) eqn:Hn; [|reflexivity].
  apply (rho_argument_nan _ ((t + PrimFloat.sqrt (t * t + 4)) / 2)%float) in Hn.
  apply exp_nan in Hn. rewrite (ltb_nan_r u _ Hn) in E. discriminate.
Qed.

Lemma left_not_below (fuel : nat) (gen gen' : mt19937) (t z : float) :
  sample_truncated_normal_left fuel gen t = Some (z, gen') ->
  (t <=? z)%float = true /\ ((t <? 0)%float = true -> (t <? z)%float = true).
Proof.
  unfold sample_truncated_normal_left.
  destruct (t <? 0)%float eqn:Ht; intros E.
  - apply rejection_loop_above in E. split; [now apply ltb_leb | now intros _].
  - split; [|discriminate]. exact (envelope_loop_not_below fuel Ht _ E).
Qed.

Lemma opp_opp (x : float) : (- (- x))%float = x.
Proof. apply Prim2SF_inj. rewrite !opp_spec. apply opp_involutive. Qed.

Lemma leb_opp (x y : float) : (- x <=? - y)%float = (y <=? x)%float.
Proof. rewrite !leb_spec, !opp_spec. unfold SFleb. now rewrite compare_opp. Qed.

Lemma ltb_opp (x y : float) : (- x <? - y)%float = (y <? x)%float.
Proof. rewrite !ltb_spec, !opp_spec. unfold SFltb. now rewrite compare_opp. Qed.

Lemma right_not_above (fuel : nat) (gen gen' : mt19937) (t z : float) :
  sample_truncated_normal_right fuel gen t = Some (z, gen') ->
  (z <=? t)%float = true /\ ((- t <? 0)%float = true -> (z <? t)%float = true).
Proof.
  unfold sample_truncated_normal_right.
  destruct (sample_truncated_normal_left fuel gen (- t)%float)
    as [[z' g]|] eqn:E; [|discriminate].
  intros [= <- <-]. apply left_not_below in E. destruct E as [Hle Hlt].
  rewrite <- (opp_opp t) at 1 3. rewrite leb_opp, ltb_opp. auto.
Qed.

End Support.

(** *** Thresholds the sampler never passes *)

Lemma sub_nan_argument (z a : float) :
  PrimFloat.is_nan (z - a)%float = true ->
  PrimFloat.is_nan ((- (z - a)) * (z - a) / 2)%float = true.
Proof.
  rewrite !is_nan_spec, div_spec, mul_spec, opp_spec.
  destruct (Prim2SF (z - a)%float); try discriminate. reflexivity.
Qed.

Lemma alpha_star_infinity :
  Prim2SF ((infinity + PrimFloat.sqrt (infinity * infinity + 4)) / 2)%float
  = S754_infinity false.
Proof. reflexivity. Qed.

(** With a threshold that is NaN or plus infinity, the difference
    [z - alpha_star] is NaN whatever the deviate. *)
Lemma candidate_nan `{Libm} (t u0 : float) :
  PrimFloat.is_nan t = true \/ t = infinity ->
  let alpha_star := ((t + PrimFloat.sqrt (t * t + 4)) / 2)%float in
  let z := ((- log u0) / alpha_star + t)%float in
  PrimFloat.is_nan (z - alpha_star)%float = true.
Proof.
  intros [Ht| ->] alpha_star z; rewrite is_nan_spec; unfold z.
  - rewrite is_nan_spec in Ht.
    rewrite sub_spec, add_spec.
    destruct (Prim2SF t); try discriminate.
    now destruct (Prim2SF (- log u0 / alpha_star)%float).
  - unfold alpha_star.
    rewrite sub_spec, add_spec, div_spec, opp_spec, alpha_star_infinity.
    change (Prim2SF infinity) with (S754_infinity false).
    destruct (Prim2SF (log u0)) as [s|s| |s m e]; reflexivity.
Qed.

Lemma not_below_zero_nan (t : float) :
  PrimFloat.is_nan t = true \/ t = infinity -> (t <? 0)%float = false.
Proof.
  intros [Ht| ->]; [|reflexivity].
  rewrite is_nan_spec in Ht. rewrite ltb_spec. unfold SFltb.
  now destruct (Prim2SF t).
Qed.

Section Never.
Context {mt19937 normal_distribution : Type}
        `{StdRandom float mt19937 normal_distribution} `{Libm}.
Hypothesis exp_nan :
  forall x : float, PrimFloat.is_nan x = true -> PrimFloat.is_nan (exp x) = true.

Lemma envelope_loop_never (t : float) (fuel : nat) :
  PrimFloat.is_nan t = true \/ t = infinity ->
  forall gen : mt19937,
    envelope_loop fuel gen ((t + PrimFloat.sqrt (t * t + 4)) / 2)%float t = None.
Proof.
  intros Ht. induction fuel as [|fuel IH]; intros gen; simpl; [reflexivity|].
  destruct (urd_call gen) as [u0 gen1].
  destruct (urd_call gen1) as [u gen2].
  rewrite ltb_nan_r; [apply IH|].
  apply exp_nan, sub_nan_argument, candidate_nan, Ht.
Qed.

Lemma left_never (t : float) (fuel : nat) (gen : mt19937) :
  PrimFloat.is_nan t = true \/ t = infinity ->
  sample_truncated_normal_left fuel gen t = None.
Proof.
  intros Ht. unfold sample_truncated_normal_left.
  rewrite (not_below_zero_nan Ht). now apply envelope_loop_never.
Qed.

Lemma opp_nan (t : float) :
  PrimFloat.is_nan t = true -> PrimFloat.is_nan (- t)%float = true.
Proof.
  rewrite !is_nan_spec, opp_spec. now destruct (Prim2SF t).
Qed.

(** [(x - x) / 0] is NaN for a finite [x]. *)
Lemma zero_over_zero (x s : float) :
  PrimFloat.is_finite x = true -> (s =? 0)%float = true ->
  PrimFloat.is_nan ((x - x) / s)%float = true.
Proof.
  unfold PrimFloat.is_finite, PrimFloat.is_infinity.
  rewrite is_nan_spec with (x := x). rewrite !eqb_spec, abs_spec.
  rewrite is_nan_spec, div_spec, sub_spec.
  change (Prim2SF 0) with (S754_zero false).
  change (Prim2SF infinity) with (S754_infinity false).
  destruct (Prim2SF s) as [ss|ss| |ss ms es]; simpl; try discriminate;
    try (destruct ss; discriminate).
  intros Hx _.
  destruct (Prim2SF x) as [sx|sx| |sx mx ex]; simpl in Hx; try discriminate.
  - now destruct sx.
  - unfold SF64sub, SFsub.
    change (IntDef.Z.min ex ex) with (Z.min ex ex).
    set (a := cond_Zopp sx (Zpos (fst (shl_align mx ex (Z.min ex ex))))).
    change (IntDef.Z.sub a a) with (a - a)%Z.
    rewrite Z.sub_diag. reflexivity.
Qed.

Lemma mean_std_never (fuel : nat) (gen : mt19937) (mean std : float) :
  PrimFloat.is_finite mean = true -> (std =? 0)%float = true ->
  util_binary64_mean_std.sample_truncated_normal_left fuel gen mean std mean
  = None /\
  util_binary64_mean_std.sample_truncated_normal_right fuel gen mean std mean
  = None.
Proof.
  intros Hm Hs. pose proof (@zero_over_zero mean std Hm Hs) as Hn.
  unfold util_binary64_mean_std.sample_truncated_normal_left,
    util_binary64_mean_std.sample_truncated_normal_right,
    sample_truncated_normal_right.
  rewrite left_never by (now left).
  rewrite left_never by (left; now apply opp_nan).
  split; reflexivity.
Qed.

End Never.

Lemma clamp01_range (u : float) :
  (0 <=? clamp01 u)%float = true /\ (clamp01 u <? 1)%float = true.
Proof.
  unfold clamp01.
  destruct ((0 <=? u) && (u <? 1))%float eqn:E.
  - now apply andb_prop in E.
  - split; reflexivity.
Qed.

Lemma script_log_not_positive (u : float) :
  (@log script_libm u <=? 0)%float = true.
Proof. simpl. destruct (u =? 0.5)%float; reflexivity. Qed.

Lemma script_exp_nan (x : float) :
  PrimFloat.is_nan x = true -> PrimFloat.is_nan (@exp script_libm x) = true.
Proof. simpl. intros ->. reflexivity. Qed.

Lemma sample_left_1e10 :
  @sample_truncated_normal_left _ _ script_random script_libm 1
    [0.5; 0.5]%float 1e10%float
  = Some (1e10%float, []).
Proof. vm_compute. reflexivity. Qed.

End SamplerBinary64.

(* ================================================================== *)
(** * Part III: the claims                                              *)
(* ================================================================== *)

Module Claims.
Import Eigen relational Spec Examples.

(** ** The scoring engine *)

(** C1 (no-block equivalence).  For a model that satisfies the data-model
    invariant and is initialized, and a base matrix with as many columns as
    [w] has entries, [predict_score(X, {})] of [part_000] returns the direct
    quadratic form [w0 + X.w + 0.5 * sum_f [(X.v_f)^2 - X^2.v_f^2]], and so
    does the scoring function without relation blocks of [FM.hpp]. *)
Theorem no_block_equivalence {Real : Type} `{RR : RealRing Real}
        (fm : FM.FM Real) (X : SparseMatrix Real) :
  wf_sparse X -> wf_FM fm -> FM.initialized fm = true ->
  sm_cols X = length (FM.w fm) ->
  FM.predict_score fm X [] = Returns (direct_score fm X) /\
  FM_hpp.predict_score fm X = Returns (direct_score fm X).
Proof.
  intros HX Hfm Hinit Hcols. split.
  - change (direct_score fm X) with (direct_score fm (expand X [])).
    apply FMScore.predict_score_returns; try assumption.
    + constructor.
    + constructor.
    + unfold total_feature_width; simpl. lia.
    + right. constructor.
  - now apply FMNoBlock.predict_score_eq.
Qed.

Lemma no_block_equivalence_witness :
  wf_sparse X1 /\ wf_FM fm1 /\ FM.initialized fm1 = true /\
  sm_cols X1 = length (FM.w fm1) /\
  FM.predict_score fm1 X1 [] = Returns (direct_score fm1 X1) /\
  FM_hpp.predict_score fm1 X1 = Returns (direct_score fm1 X1).
Proof.
  assert (HX : wf_sparse X1) by (repeat constructor).
  assert (Hfm : wf_FM fm1) by (repeat constructor).
  repeat (split; [assumption || reflexivity|]).
  apply (@no_block_equivalence _ _ Qc_ring fm1 X1 HX Hfm eq_refl eq_refl).
Defined.

(** C2 (block-deduplication equivalence), at a failing input.  Two cases,
    one base column, and a block of two rows and one column with the identity
    mapping; the model has one factor.  The scratch map of the quadratic term
    has [feature_size = 1] entries and is assigned a product with
    [block_size = 2] rows: [predict_score(X, {block})] ends in Eigen's size
    assertion, while [predict_score(concat(X, block.X), {})] returns the
    score of the concatenated matrix. *)
Theorem identity_block_scratch_mismatch :
  identity_mapping B_identity /\
  block_size B_identity = sm_rows X0 /\
  wf_sparse X0 /\ wf_block B_identity /\ wf_FM fm1 /\
  concat X0 B_identity = mkSparse 2 [[q 1; q 3]; [q 2; q 4]] /\
  FM.predict_score fm1 X0 [B_identity] = EigenAssert /\
  FM.predict_score fm1 (concat X0 B_identity) []
  = Returns (direct_score fm1 (concat X0 B_identity)).
Proof.
  assert (HX : wf_sparse X0) by (repeat constructor).
  assert (HB : wf_block B_identity) by (repeat constructor).
  assert (Hfm : wf_FM fm1) by (repeat constructor).
  split; [reflexivity|]. split; [reflexivity|].
  split; [exact HX|]. split; [exact HB|]. split; [exact Hfm|].
  split; [reflexivity|].
  split; [vm_compute; reflexivity|].
  change (direct_score fm1 (concat X0 B_identity))
    with (direct_score fm1 (expand (concat X0 B_identity) [])).
  apply FMScore.predict_score_returns; try assumption.
  - now apply FMBlocks.wf_concat.
  - constructor.
  - reflexivity.
  - constructor.
  - reflexivity.
  - right; constructor.
Qed.

(** The inputs of C3 and C9: one case with two base columns, and twice a
    block of one row and [cols = 2^63 - 1] columns.  The widths add up to
    [2^64], which is 0 in [size_t], the length of the [w] of a new model. *)
Lemma wrapped_total_width (cols : nat) :
  N.of_nat cols = (2 ^ 63 - 1)%N ->
  N.of_nat (total_feature_width X_one [B_zero cols; B_zero cols]) = (2 ^ 64)%N.
Proof.
  intros Hc.
  replace (total_feature_width X_one [B_zero cols; B_zero cols])
    with (2 + cols + cols) by (unfold total_feature_width; simpl; lia).
  rewrite !Nat2N.inj_add, Hc. reflexivity.
Qed.

Lemma wrapped_inputs_wf (cols : nat) :
  wf_sparse X_one /\ Forall wf_block [B_zero cols; B_zero cols] /\
  ~ mapping_mismatch X_one [B_zero cols; B_zero cols].
Proof.
  assert (HB : wf_block (B_zero cols)).
  { split; [|split].
    - constructor; [apply repeat_length | constructor].
    - reflexivity.
    - constructor; [unfold block_size, sm_rows; simpl; lia | constructor]. }
  split; [repeat constructor|].
  split; [constructor; [exact HB | constructor; [exact HB | constructor]]|].
  intros Hm. unfold mapping_mismatch in Hm.
  apply Exists_exists in Hm. destruct Hm as (rel & Hin & Hne).
  destruct Hin as [<-|[<-|[]]]; apply Hne; reflexivity.
Qed.

Lemma wrapped_width_mismatch (cols : nat) :
  N.of_nat cols = (2 ^ 63 - 1)%N ->
  width_mismatch fm_empty X_one [B_zero cols; B_zero cols].
Proof.
  intros Hc Hw. unfold width_mismatch in Hw.
  pose proof (@wrapped_total_width cols Hc) as Ht. rewrite Hw in Ht.
  discriminate Ht.
Qed.

Lemma wrapped_width_passes (cols : nat) :
  N.of_nat cols = (2 ^ 63 - 1)%N ->
  FM.predict_score fm_empty X_one [B_zero cols; B_zero cols]
  = RuntimeError "get_score called before initialization".
Proof.
  intros Hc.
  destruct (FMChecks.predict_score_checks fm_empty X_one [B_zero cols; B_zero cols])
    as [(Hm & _)|[(_ & Hwm & _)|[(_ & _ & _ & E)|(_ & _ & Hi & _)]]].
  - destruct (wrapped_inputs_wf cols) as (_ & _ & Hno). contradiction.
  - exfalso. apply Hwm. unfold to_size_t.
    rewrite (@wrapped_total_width cols Hc). reflexivity.
  - exact E.
  - discriminate Hi.
Qed.

Lemma widest_N : N.of_nat widest = (2 ^ 63 - 1)%N.
Proof. apply N2Nat.id. Qed.

(** C3 (InvalidArgument), at a failing input.  One case with two base
    columns and two blocks of one row and [2^63 - 1] columns each, for a new
    model, whose [w] is empty.  The inputs are well formed and every mapping
    has one entry per case.  The total width is [2^64], not the length 0 of
    [w]; added up in [size_t] it is 0, so the width check passes and
    [predict_score] throws the [std::runtime_error] of the initialization
    check, not [std::invalid_argument]. *)
Theorem width_sum_wraps :
  wf_sparse X_one /\ Forall wf_block [B_zero widest; B_zero widest] /\
  ~ mapping_mismatch X_one [B_zero widest; B_zero widest] /\
  N.of_nat (total_feature_width X_one [B_zero widest; B_zero widest])
  = (2 ^ 64)%N /\
  length (FM.w fm_empty) = 0 /\
  width_mismatch fm_empty X_one [B_zero widest; B_zero widest] /\
  FM.predict_score fm_empty X_one [B_zero widest; B_zero widest]
  = RuntimeError "get_score called before initialization".
Proof.
  destruct (wrapped_inputs_wf widest) as (HX & HB & Hm).
  split; [exact HX|]. split; [exact HB|]. split; [exact Hm|].
  split; [exact (@wrapped_total_width widest widest_N)|].
  split; [reflexivity|].
  split; [exact (@wrapped_width_mismatch widest widest_N)|].
  exact (@wrapped_width_passes widest widest_N).
Qed.

(** C8 (frame).  [predict_score] is a [const] member that takes its inputs
    by [const] reference: it is a function of the model, the base matrix and
    the blocks, with no other result than its outcome.  When it returns, the
    vector has one entry per case. *)
Theorem predict_score_length {Real : Type} `{RealOps Real}
        (fm : FM.FM Real) (X : SparseMatrix Real)
        (relations : list (RelationBlock Real)) (v : Vector Real) :
  FM.predict_score fm X relations = Returns v -> length v = sm_rows X.
Proof.
  intros Hr.
  destruct (FMChecks.predict_score_checks fm X relations)
    as [(_ & E)|[(_ & _ & E)|[(_ & _ & _ & E)|(_ & _ & _ & _ & _ & E)]]];
    rewrite E in Hr; try discriminate.
  bind_inv Hr. bind_inv Hr. bind_inv Hr.
  apply FMSizes.factor_loop_length in Hr. rewrite Hr.
  match goal with Hb : FM.add_blocks _ _ _ _ = Returns _ |- _ =>
    apply FMSizes.add_blocks_length in Hb; rewrite Hb end.
  rewrite length_map.
  match goal with Ht : times _ _ = Returns _ |- _ =>
    now apply FMSizes.times_length in Ht end.
Qed.

Lemma predict_score_length_witness :
  match FM.predict_score fm1 X0 [B_shared] with
  | Returns v => length v = 2
  | _ => False
  end.
Proof.
  destruct (FM.predict_score fm1 X0 [B_shared]) as [v|what|what|] eqn:E;
    try (vm_compute in E; discriminate E).
  exact (@predict_score_length _ _ fm1 X0 [B_shared] v E).
Defined.

(** C9 (order of the checks), at a failing input: the inputs of C3.  The
    model is not initialized and the total width [2^64] is not the length of
    [w], yet no [std::invalid_argument] is thrown: the sum of the widths
    wraps, the width check passes, and the initialization check throws. *)
Theorem wrapped_width_reaches_initialization_check :
  FM.initialized fm_empty = false /\
  (mapping_mismatch X_one [B_zero widest; B_zero widest] \/
   width_mismatch fm_empty X_one [B_zero widest; B_zero widest]) /\
  is_invalid_argument
    (FM.predict_score fm_empty X_one [B_zero widest; B_zero widest]) = false /\
  exists what,
    FM.predict_score fm_empty X_one [B_zero widest; B_zero widest]
    = RuntimeError what.
Proof.
  split; [reflexivity|].
  split; [right; exact (@wrapped_width_mismatch widest widest_N)|].
  rewrite (@wrapped_width_passes widest widest_N).
  split; [reflexivity | eauto].
Qed.

(** C10 (positional partition).  For a model and inputs that satisfy the
    data-model invariants, whatever [predict_score] returns is the quadratic
    form of the expanded matrix, whose first [X.cols()] columns are the base
    columns and in which block number [k] of the list has the [feature_size]
    columns that start where the blocks before it end: entry [j] of [w] and
    row [j] of [V] meet column [j] of the expanded row, in the linear term
    and in every factor. *)
Theorem predict_score_positional {Real : Type} `{RR : RealRing Real}
        (fm : FM.FM Real) (X : SparseMatrix Real)
        (relations : list (RelationBlock Real)) (v : Vector Real) :
  wf_sparse X -> Forall wf_block relations -> wf_FM fm ->
  FM.predict_score fm X relations = Returns v ->
  v = direct_score fm (expand X relations) /\ positional_layout X relations.
Proof.
  intros HX Hwf Hfm Hr.
  destruct (FMChecks.predict_score_returns_width _ _ _ Hr)
    as (Htw & Htot & Hlen & Hi).
  split; [|now apply FMLayout.expand_layout].
  assert (Hcases : dm_col (FM.V fm) = [] \/ Forall fits_scratch relations
                   \/ (dm_col (FM.V fm) <> [] /\
                       Exists (fun rel => ~ fits_scratch rel) relations)).
  { destruct (dm_col (FM.V fm)) as [|c cs]; [now left|]. right.
    destruct (Forall_Exists_dec fits_scratch
                (fun rel => Nat.eq_dec (block_size rel) (feature_size rel))
                relations) as [Hall|Hex].
    - now left.
    - right. split; [discriminate | exact Hex]. }
  destruct Hcases as [Hnil|[Hfit|(Hne & Hex)]].
  - rewrite FMScore.predict_score_returns_le in Hr by (assumption || now left).
    now injection Hr as <-.
  - rewrite FMScore.predict_score_returns_le in Hr by (assumption || now right).
    now injection Hr as <-.
  - rewrite FMScore.predict_score_scratch_mismatch_le in Hr by assumption.
    discriminate.
Qed.

Lemma predict_score_positional_witness :
  wf_sparse X0 /\ Forall wf_block [B_shared] /\ wf_FM fm1 /\
  match FM.predict_score fm1 X0 [B_shared] with
  | Returns v => v = direct_score fm1 (expand X0 [B_shared]) /\
                 positional_layout X0 [B_shared]
  | _ => False
  end.
Proof.
  assert (HX : wf_sparse X0) by (repeat constructor).
  assert (HB : Forall wf_block [B_shared]) by (repeat constructor).
  assert (Hfm : wf_FM fm1) by (repeat constructor).
  split; [exact HX|]. split; [exact HB|]. split; [exact Hfm|].
  destruct (FM.predict_score fm1 X0 [B_shared]) as [v|what|what|] eqn:E;
    try (vm_compute in E; discriminate E).
  exact (@predict_score_positional _ _ Qc_ring fm1 X0 [B_shared] v HX HB Hfm E).
Defined.

(** ** Initialization *)

(** C7 (initialization).  For sizes that are not negative,
    [initialize_weight(P, init_std, gen)] returns with [w] of length [P], [V]
    of shape [P x n_factors], the model initialized, and every coefficient of
    [V] and [w] and the bias equal to [init_std] times a deviate of its own,
    drawn from [gen] in this order. *)
Theorem initialize_weight_shape {Real : Type} `{RealOps Real}
        {mt19937 normal_distribution : Type}
        `{StdRandom Real mt19937 normal_distribution}
        (fm : FM.FM Real) (n_features : Z) (init_std : Real) (gen : mt19937) :
  (0 <= n_features)%Z -> (0 <= FM.n_factors fm)%Z ->
  initialized_from fm n_features init_std gen
                   (FM.initialize_weight fm n_features init_std gen).
Proof.
  intros HP HK. unfold FM.initialize_weight.
  replace ((n_features <? 0) || (FM.n_factors fm <? 0))%Z with false
    by (symmetry; apply orb_false_intro; apply Z.ltb_ge; assumption).
  set (P := Z.to_nat n_features). set (K := Z.to_nat (FM.n_factors fm)).
  set (st0 := (nd_init, gen)).
  destruct (InitFacts.rand_columns_spec init_std P K st0)
    as (Hst1 & Hlen & Hall & Hnth).
  destruct (FM.rand_columns P K init_std st0) as [Vc st1].
  cbn [fst snd] in Hst1, Hlen, Hall, Hnth.
  destruct (InitFacts.rand_vector_spec init_std P st1) as (Hst2 & Hwlen & Hwnth).
  destruct (FM.rand_vector P init_std st1) as [wv st2].
  cbn [fst snd] in Hst2, Hwlen, Hwnth.
  rewrite InitFacts.get_rand_eq.
  unfold initialized_from. fold P K st0.
  cbn [FM.w FM.V FM.w0 FM.n_factors FM.initialized dm_rows dm_col dm_cols snd].
  subst st1 st2.
  repeat split; try assumption.
  - intros j Hj. rewrite Hwnth by exact Hj.
    now rewrite (DeviateFacts.nd_nth_add (K * P) j st0).
  - rewrite <- (DeviateFacts.nd_after_add (K * P) P st0).
    rewrite <- (DeviateFacts.nd_nth_add (K * P + P) 0 st0).
    f_equal. f_equal. lia.
  - rewrite <- (DeviateFacts.nd_after_add (K * P) P st0).
    now rewrite <- (DeviateFacts.nd_after_add (K * P + P) 1 st0).
Qed.

Lemma initialize_weight_shape_witness :
  (0 <= 2)%Z /\ (0 <= FM.n_factors fm_empty)%Z /\
  @initialized_from _ _ _ _ tape_random fm_empty 2 (q 2) [q 1; q 2; q 3]
    (@FM.initialize_weight _ _ _ _ tape_random fm_empty 2 (q 2) [q 1; q 2; q 3]).
Proof.
  assert (H2 : (0 <= 2)%Z) by lia.
  split; [exact H2|]. split; [exact H2|].
  exact (@initialize_weight_shape _ _ _ _ tape_random fm_empty 2 (q 2)
           [q 1; q 2; q 3] H2 H2).
Defined.

(** ** The truncated-normal sampler *)

Lemma clamp01_id (u : R) : (0 <= u < 1)%R -> clamp01 u = u.
Proof.
  intros [H0 H1]. unfold clamp01.
  destruct (Rle_dec 0 u); [destruct (Rlt_dec u 1)|]; lra.
Qed.

Lemma exp_minus_1_range : (0 < exp (- 1) < 1)%R.
Proof.
  split; [apply exp_pos|].
  rewrite <- exp_0. apply exp_increasing. lra.
Qed.

(** The sampler at the threshold 0, on the deviates [exp(-1)] and [0]: the
    second branch takes [alpha_star = 1], the candidate [z = 1] and
    [rho = 1], and accepts. *)
Lemma sample_left_tape0 :
  @util.sample_truncated_normal_left _ _ script_random 1 tape0 0
  = Some (1%R, []).
Proof.
  pose proof exp_minus_1_range as [He0 He1].
  unfold util.sample_truncated_normal_left.
  destruct (Rlt_dec 0 0) as [Hlt|_]; [lra|].
  replace ((0 + sqrt (0 * 0 + 4)) / 2)%R with 1%R.
  2:{ replace (0 * 0 + 4)%R with (2 * 2)%R by lra.
      rewrite sqrt_square by lra. lra. }
  unfold util.envelope_loop, tape0.
  cbn [urd_call script_random hd tl].
  rewrite (clamp01_id (u := exp (- 1))) by lra.
  rewrite (clamp01_id (u := 0%R)) by lra.
  destruct (Req_dec_T (exp (- 1)) 0) as [Hz|_]; [lra|].
  rewrite ln_exp.
  replace (- -1 / 1 + 0)%R with 1%R by lra.
  replace (- (1 - 1) * (1 - 1) / 2)%R with 0%R by lra.
  rewrite exp_0.
  destruct (Rlt_dec 0 1) as [_|Hn]; [reflexivity | lra].
Qed.

(** C4 (plain rejection), as amended: for every threshold below 0 the sampler
    is plain rejection: it returns the first standard normal deviate above the
    threshold and leaves the generator after that draw (and needs more turns
    when none of the first [fuel] deviates is above the threshold). *)
Theorem plain_rejection_below_zero {mt19937 normal_distribution : Type}
        `{StdRandom R mt19937 normal_distribution}
        (fuel : nat) (gen : mt19937) (mu_minus : R) :
  (mu_minus < 0)%R ->
  util.plain_rejection fuel gen mu_minus
                       (util.sample_truncated_normal_left fuel gen mu_minus).
Proof.
  intros Hmu. unfold util.sample_truncated_normal_left.
  destruct (Rlt_dec mu_minus 0) as [_|Hn]; [|contradiction].
  exact (SamplerFacts.rejection_loop_first fuel nd_init gen mu_minus).
Qed.

Lemma plain_rejection_below_zero_witness :
  (- 1 < 0)%R /\
  @util.plain_rejection _ _ script_random 2 tape0 (- 1)
    (@util.sample_truncated_normal_left _ _ script_random 2 tape0 (- 1)).
Proof.
  assert (Hmu : (- 1 < 0)%R) by lra.
  split; [exact Hmu|].
  exact (@plain_rejection_below_zero _ _ script_random 2 tape0 (- 1) Hmu).
Defined.

(** C4, as stated, fails at the threshold 0, which is not below 0: on the
    deviates [exp(-1)] and [0] the sampler returns 1, which is not a deviate
    of the generator; plain rejection would return [exp(-1)]. *)
Lemma plain_rejection_fails_at_zero :
  (0 <= 0)%R /\
  ~ @util.plain_rejection _ _ script_random 1 tape0 0
      (@util.sample_truncated_normal_left _ _ script_random 1 tape0 0).
Proof.
  split; [lra|].
  rewrite sample_left_tape0. unfold util.plain_rejection.
  intros (k & Hk & _ & Hz & _).
  assert (k = 0)%nat by lia. subst k.
  change (@nd_nth _ _ _ script_random 0 (@nd_init _ _ _ script_random, tape0))
    with (exp (- 1)) in Hz.
  pose proof exp_minus_1_range. lra.
Qed.

Section Binary64.
Import PrimFloat.

(** C5 (support), as amended, in binary64.  With uniform deviates in
    [[0, 1)], a [std::log] that is not above zero on [[0, 1)] and a
    [std::exp] that gives NaN for NaN, a value the sampler returns is not
    below the threshold, and it is above the threshold on the first branch
    (a threshold below 0). *)
Theorem sample_left_not_below_threshold
        {mt19937 normal_distribution : Type}
        `{StdRandom float mt19937 normal_distribution} `{util_binary64.Libm}
        (fuel : nat) (gen gen' : mt19937) (t z : float) :
  (forall g : mt19937,
     (0 <=? fst (urd_call g))%float = true /\
     (fst (urd_call g) <? 1)%float = true) ->
  (forall u : float,
     (0 <=? u)%float = true -> (u <? 1)%float = true ->
     (util_binary64.log u <=? 0)%float = true) ->
  (forall x : float, is_nan x = true -> is_nan (util_binary64.exp x) = true) ->
  util_binary64.sample_truncated_normal_left fuel gen t = Some (z, gen') ->
  (t <=? z)%float = true /\
  ((t <? 0)%float = true -> (t <? z)%float = true).
Proof.
  intros Hrange Hlog Hexp. now apply SamplerBinary64.left_not_below.
Qed.

Lemma sample_left_not_below_threshold_witness :
  (forall g : list float,
     (0 <=? fst (@urd_call _ _ _ util_binary64.script_random g))%float = true /\
     (fst (@urd_call _ _ _ util_binary64.script_random g) <? 1)%float = true) /\
  (forall u : float,
     (0 <=? u)%float = true -> (u <? 1)%float = true ->
     (@util_binary64.log util_binary64.script_libm u <=? 0)%float = true) /\
  (forall x : float,
     is_nan x = true ->
     is_nan (@util_binary64.exp util_binary64.script_libm x) = true) /\
  @util_binary64.sample_truncated_normal_left
    _ _ util_binary64.script_random util_binary64.script_libm 1
    [0.5; 0.5]%float 1e10%float
  = Some (1e10%float, []) /\
  (1e10 <=? 1e10)%float = true /\
  ((1e10 <? 0)%float = true -> (1e10 <? 1e10)%float = true).
Proof.
  assert (Hrange : forall g : list float,
            (0 <=? fst (@urd_call _ _ _ util_binary64.script_random g))%float
            = true /\
            (fst (@urd_call _ _ _ util_binary64.script_random g) <? 1)%float
            = true)
    by (intros g; apply SamplerBinary64.clamp01_range).
  assert (Hlog : forall u : float,
            (0 <=? u)%float = true -> (u <? 1)%float = true ->
            (@util_binary64.log util_binary64.script_libm u <=? 0)%float = true)
    by (intros u _ _; apply SamplerBinary64.script_log_not_positive).
  split; [exact Hrange|]. split; [exact Hlog|].
  split; [exact SamplerBinary64.script_exp_nan|].
  split; [exact SamplerBinary64.sample_left_1e10|].
  exact (@sample_left_not_below_threshold
           _ _ util_binary64.script_random util_binary64.script_libm 1
           [0.5; 0.5]%float [] 1e10%float 1e10%float
           Hrange Hlog SamplerBinary64.script_exp_nan
           SamplerBinary64.sample_left_1e10).
Defined.

(** C5, as stated, fails in binary64 at the threshold [1e10], which is
    finite.  [alpha_star] is [1e10]; on the uniform deviates [0.5] and [0.5],
    with [log(0.5) = -0x1.62e42fefa39efp-1] and [exp(-0) = 1], the candidate
    [-log(0.5) / 1e10 + 1e10] rounds to [1e10], [rho] is 1, and the sampler
    returns [1e10], which is not above the threshold. *)
Lemma sample_left_returns_threshold :
  is_finite 1e10 = true /\
  @util_binary64.sample_truncated_normal_left
    _ _ util_binary64.script_random util_binary64.script_libm 1
    [0.5; 0.5]%float 1e10%float
  = Some (1e10%float, []) /\
  (1e10 <? 1e10)%float = false.
Proof.
  split; [reflexivity|].
  split; [exact SamplerBinary64.sample_left_1e10 | reflexivity].
Qed.

End Binary64.

(** C6 (right truncation).  [sample_truncated_normal_right(gen, mu_plus)] is
    the negation of [sample_truncated_normal_left(gen, -mu_plus)] from the
    same generator, and leaves the generator in the same state. *)
Theorem sample_right_negates_left {mt19937 normal_distribution : Type}
        `{StdRandom R mt19937 normal_distribution}
        (fuel : nat) (gen : mt19937) (mu_plus : R) :
  util.sample_truncated_normal_right fuel gen mu_plus
  = option_map (fun r => ((- fst r)%R, snd r))
               (util.sample_truncated_normal_left fuel gen (- mu_plus)).
Proof.
  unfold util.sample_truncated_normal_right.
  destruct (util.sample_truncated_normal_left fuel gen (- mu_plus))
    as [[z gen']|]; reflexivity.
Qed.

End Claims.

(* ================================================================== *)
(** * Part IV: more properties of the code                              *)
(* ================================================================== *)

(** ** The sampler *)

Module SamplerMore.
Import util util_mean_std.
Section Facts.
Context {mt19937 normal_distribution : Type}
        `{StdRandom R mt19937 normal_distribution}.
Local Open Scope R_scope.








End Facts.
End SamplerMore.

(** ** The scoring engine *)

Module FMMore.
Import Eigen relational FM Spec Interaction EigenFacts FMBlocks.
Section Facts.
Context {Real : Type} `{RR : RealRing Real}.
Local Open Scope real_scope.
Local Abbreviation Vector := (Eigen.Vector Real).
Local Abbreviation SparseMatrix := (Eigen.SparseMatrix Real).
Local Abbreviation RelationBlock := (relational.RelationBlock Real).
Local Abbreviation FM := (FM.FM Real).

Add Ring real_ring_more : real_ring.

(** The expanded rows of two cases with the same base row and the same
    block rows. *)
Lemma row_expand_eq (relations : list RelationBlock) :
  forall (X : SparseMatrix) (i j : nat),
    Forall (fun rel => length (original_to_block rel) = sm_rows X) relations ->
    (i < sm_rows X)%nat -> (j < sm_rows X)%nat ->
    row i X = row j X ->
    Forall (fun rel => nth i (original_to_block rel) 0%nat
                       = nth j (original_to_block rel) 0%nat) relations ->
    row i (expand X relations) = row j (expand X relations).
Proof.
  induction relations as [|rel rest IH]; intros X i j Hlen Hi Hj Hrow Hmap.
  - exact Hrow.
  - inversion Hlen as [|? ? Hl Hlen']; subst.
    inversion Hmap as [|? ? Hm Hmap']; subst.
    change (expand X (rel :: rest)) with (expand (concat X rel) rest).
    pose proof (@concat_rows _ X rel Hl) as Hrows.
    apply IH.
    + now rewrite Hrows.
    + now rewrite Hrows.
    + now rewrite Hrows.
    + rewrite !FMLayout.row_concat by assumption.
      unfold block_row. now rewrite Hrow, Hm.
    + exact Hmap'.
Qed.

Lemma expand_rows (relations : list RelationBlock) :
  forall X : SparseMatrix,
    Forall (fun rel => length (original_to_block rel) = sm_rows X) relations ->
    sm_rows (expand X relations) = sm_rows X.
Proof.
  induction relations as [|rel rest IH]; intros X Hlen; [reflexivity|].
  inversion Hlen as [|? ? Hl Hlen']; subst.
  change (expand X (rel :: rest)) with (expand (concat X rel) rest).
  pose proof (@concat_rows _ X rel Hl) as Hrows.
  rewrite IH by (now rewrite Hrows). exact Hrows.
Qed.

Lemma nth_map_row (f : Vector -> Real) (X : SparseMatrix) (i : nat) :
  (i < sm_rows X)%nat -> nth i (map f (sm_row X)) r0 = f (row i X).
Proof.
  intros Hi. unfold row.
  rewrite (nth_indep _ r0 (f [])) by (now rewrite length_map).
  apply map_nth.
Qed.

(** Rows of zeros. *)
Lemma dot_zeros (x v : Vector) : Forall (eq r0) x -> dot x v = r0.
Proof.
  intros Hx; revert v; induction Hx as [|y x Hy Hx IH]; intros [|c v];
    simpl; try reflexivity.
  subst y. rewrite IH. ring.
Qed.

Lemma square_zeros (x : Vector) : Forall (eq r0) x -> Forall (eq r0) (square x).
Proof.
  intros Hx. unfold square. apply Forall_map.
  eapply Forall_impl; [|exact Hx]. intros y <-. ring.
Qed.

Lemma quadratic_form_zeros (fm : FM) (x : Vector) :
  Forall (eq r0) x -> quadratic_form fm x = w0 fm.
Proof.
  intros Hx. unfold quadratic_form. rewrite (dot_zeros _ Hx).
  assert (Hs : sum (map (factor_term x) (dm_col (V fm))) = r0).
  { induction (dm_col (V fm)) as [|c cs IH]; [reflexivity|].
    unfold sum in *. simpl. rewrite IH.
    unfold factor_term, dsq.
    rewrite (dot_zeros _ Hx), (dot_zeros _ (square_zeros Hx)). ring. }
  rewrite Hs. ring.
Qed.

(** The interaction identity. *)
Lemma dot_sum (x v : Vector) : dot x v = sum (map2 rmul x v).
Proof.
  revert v; induction x as [|y x IH]; intros [|c v]; simpl; try reflexivity.
  unfold sum in *. simpl. now rewrite IH.
Qed.

Lemma dsq_sum (x v : Vector) : dsq x v = sum (square (map2 rmul x v)).
Proof.
  unfold dsq.
  revert v; induction x as [|y x IH]; intros [|c v]; simpl; try reflexivity.
  unfold sum in *. simpl. rewrite IH. ring.
Qed.

Lemma square_of_sum (a : Vector) :
  sum a * sum a = sum (square a) + (pairwise a + pairwise a).
Proof.
  induction a as [|y a IH].
  - unfold sum. simpl. ring.
  - change (sum (y :: a)) with (y + sum a).
    change (sum (square (y :: a))) with (y * y + sum (square a)).
    change (pairwise (y :: a)) with (y * sum a + pairwise a).
    set (S := sum a) in *. set (Q := sum (square a)) in *.
    set (P := pairwise a) in *.
    assert (E : (y + S) * (y + S) = y * y + (y * S + y * S) + S * S) by ring.
    rewrite E, IH. ring.
Qed.

Lemma quadratic_form_interaction (fm : FM) (x : Vector) :
  rhalf + rhalf = r1 -> quadratic_form fm x = interaction_form fm x.
Proof.
  intros Hhalf. unfold quadratic_form, interaction_form. f_equal.
  induction (dm_col (V fm)) as [|c cs IH].
  - unfold sum. simpl. ring.
  - change (sum (map (factor_term x) (c :: cs)))
      with (factor_term x c + sum (map (factor_term x) cs)).
    change (sum (map (fun v_f => pairwise (map2 rmul x v_f)) (c :: cs)))
      with (pairwise (map2 rmul x c)
            + sum (map (fun v_f => pairwise (map2 rmul x v_f)) cs)).
    rewrite <- IH.
    set (T := sum (map (factor_term x) cs)).
    unfold factor_term.
    rewrite dsq_sum, dot_sum, square_of_sum.
    set (p := pairwise (map2 rmul x c)).
    set (s := sum (square (map2 rmul x c))).
    assert (E : rhalf * (s + (p + p) - s + T) = (rhalf + rhalf) * p + rhalf * T)
      by ring.
    rewrite E, Hhalf. ring.
Qed.

(** The loop over the factors reaches the first [n_factors] columns. *)
Lemma predict_score_take_factors (fm : FM) (X : SparseMatrix)
      (relations : list RelationBlock) :
  wf_sparse X -> Forall wf_block relations ->
  wf_dense (V fm) -> dm_rows (V fm) = length (w fm) ->
  (Z.to_nat (n_factors fm) <= dm_cols (V fm))%nat ->
  initialized fm = true ->
  Forall (fun rel => length (original_to_block rel) = sm_rows X) relations ->
  total_feature_width X relations = length (w fm) ->
  Z.to_nat (n_factors fm) = 0%nat \/ Forall fits_scratch relations ->
  predict_score fm X relations
  = Returns (direct_score (take_factors fm) (expand X relations)).
Proof.
  intros HX Hwf HV HP HK Hinit Hlen Htot Hfit.
  destruct (FMChecks.predict_score_checks fm X relations)
    as [(Hm & _)|[(_ & Hwm & _)|[(_ & _ & Hi & _)|(_ & _ & _ & _ & _ & E)]]].
  - exfalso. exact (FMChecks.Exists_Forall_absurd
                      (P := fun rel => length (original_to_block rel) = sm_rows X)
                      Hm Hlen).
  - exfalso. exact (FMChecks.width_fits Htot Hwm).
  - congruence.
  - rewrite E; clear E.
    assert (Htw : (total_feature_width X relations <= length (w fm))%nat) by lia.
    pose proof (@FMScore.linear_pass _ _ RR X relations (w fm) HX Hwf Hlen Htw
                  (w0 fm)) as Hl.
    bind_inv Hl. rewrite Ha. simpl. bind_inv Hl. rewrite Ha0. simpl.
    rewrite Hl. simpl.
    unfold direct_score, quadratic_form, take_factors.
    cbn [FM.w0 FM.w FM.V dm_col].
    destruct Hfit as [Hzero|Hfit].
    + rewrite Hzero. simpl. f_equal. apply map_ext. intros x.
      unfold sum; simpl. ring.
    + assert (HwV : (total_feature_width X relations <= dm_rows (V fm))%nat)
        by lia.
      rewrite (@FMScore.factor_loop_eq _ _ RR fm X relations HX Hwf Hlen HV HwV
                 Hfit (Z.to_nat (n_factors fm)) 0
                 (fun x => w0 fm + dot x (w fm))) by lia.
      f_equal. apply map_ext. intros x.
      rewrite skipn_O. rewrite FMScore.fold_step_sum. reflexivity.
Qed.

(** Without factors the score is linear; [V] is not read. *)
Lemma predict_score_linear (fm : FM) (X : SparseMatrix)
      (relations : list RelationBlock) :
  wf_sparse X -> Forall wf_block relations ->
  (n_factors fm <= 0)%Z ->
  initialized fm = true ->
  Forall (fun rel => length (original_to_block rel) = sm_rows X) relations ->
  total_feature_width X relations = length (w fm) ->
  predict_score fm X relations
  = Returns (linear_score fm (expand X relations)).
Proof.
  intros HX Hwf HK Hinit Hlen Htot.
  destruct (FMChecks.predict_score_checks fm X relations)
    as [(Hm & _)|[(_ & Hwm & _)|[(_ & _ & Hi & _)|(_ & _ & _ & _ & _ & E)]]].
  - exfalso. exact (FMChecks.Exists_Forall_absurd
                      (P := fun rel => length (original_to_block rel) = sm_rows X)
                      Hm Hlen).
  - exfalso. exact (FMChecks.width_fits Htot Hwm).
  - congruence.
  - rewrite E; clear E.
    assert (Htw : (total_feature_width X relations <= length (w fm))%nat) by lia.
    pose proof (@FMScore.linear_pass _ _ RR X relations (w fm) HX Hwf Hlen Htw
                  (w0 fm)) as Hl.
    bind_inv Hl. rewrite Ha. simpl. bind_inv Hl. rewrite Ha0. simpl.
    rewrite Hl. simpl.
    replace (Z.to_nat (n_factors fm)) with 0%nat by lia. reflexivity.
Qed.

(** A [V] with fewer rows than the base matrix has columns. *)
Lemma predict_score_short_V (fm : FM) (X : SparseMatrix)
      (relations : list RelationBlock) :
  wf_sparse X -> Forall wf_block relations ->
  wf_dense (V fm) -> dm_col (V fm) <> [] -> (0 < n_factors fm)%Z ->
  (dm_rows (V fm) < sm_cols X)%nat ->
  initialized fm = true ->
  Forall (fun rel => length (original_to_block rel) = sm_rows X) relations ->
  total_feature_width X relations = length (w fm) ->
  predict_score fm X relations = EigenAssert.
Proof.
  intros HX Hwf HV Hne HK Hshort Hinit Hlen Htot.
  destruct (FMChecks.predict_score_checks fm X relations)
    as [(Hm & _)|[(_ & Hwm & _)|[(_ & _ & Hi & _)|(_ & _ & _ & _ & _ & E)]]].
  - exfalso. exact (FMChecks.Exists_Forall_absurd
                      (P := fun rel => length (original_to_block rel) = sm_rows X)
                      Hm Hlen).
  - exfalso. exact (FMChecks.width_fits Htot Hwm).
  - congruence.
  - rewrite E; clear E.
    assert (Htw : (total_feature_width X relations <= length (w fm))%nat) by lia.
    pose proof (@FMScore.linear_pass _ _ RR X relations (w fm) HX Hwf Hlen Htw
                  (w0 fm)) as Hl.
    bind_inv Hl. rewrite Ha. simpl. bind_inv Hl. rewrite Ha0. simpl.
    rewrite Hl. simpl.
    destruct (Z.to_nat (n_factors fm)) as [|n] eqn:Hn; [lia|].
    simpl. unfold factor_step, col.
    destruct (dm_col (V fm)) as [|v cs] eqn:Hcols; [contradiction|].
    simpl.
    assert (Hv : length v = dm_rows (V fm)).
    { unfold wf_dense in HV. rewrite Hcols in HV. now inversion HV. }
    unfold head.
    destruct (Nat.leb_spec (sm_cols X) (length v)); [lia|]. reflexivity.
Qed.

End Facts.
End FMMore.

(** ** Initialization *)

Module InitMore.
Import Eigen Spec DeviateFacts.
Section Facts.
Context {Real : Type} `{RealOps Real}.
Context {mt19937 normal_distribution : Type}
        `{StdRandom Real mt19937 normal_distribution}.
Local Open Scope real_scope.

(** [initialize_weight] of [part_000] establishes the data-model invariant,
    whatever the model held before. *)
Lemma initialize_weight_wf (fm : FM.FM Real) (n_features : Z)
      (init_std : Real) (gen : mt19937) :
  (0 <= n_features)%Z -> (0 <= FM.n_factors fm)%Z ->
  exists fm' gen',
    FM.initialize_weight fm n_features init_std gen = Returns (fm', gen') /\
    wf_FM fm' /\ FM.initialized fm' = true /\
    length (FM.w fm') = Z.to_nat n_features /\
    FM.n_factors fm' = FM.n_factors fm.
Proof.
  intros HP HK. unfold FM.initialize_weight.
  replace ((n_features <? 0) || (FM.n_factors fm <? 0))%Z with false
    by (symmetry; apply orb_false_intro; apply Z.ltb_ge; assumption).
  set (P := Z.to_nat n_features). set (K := Z.to_nat (FM.n_factors fm)).
  set (st0 := (nd_init, gen)).
  destruct (InitFacts.rand_columns_spec init_std P K st0)
    as (_ & Hlen & Hall & _).
  destruct (FM.rand_columns P K init_std st0) as [Vc st1].
  cbn [fst snd] in Hlen, Hall.
  destruct (InitFacts.rand_vector_spec init_std P st1) as (_ & Hwlen & _).
  destruct (FM.rand_vector P init_std st1) as [wv st2].
  cbn [fst snd] in Hwlen.
  rewrite InitFacts.get_rand_eq.
  eexists. eexists. split; [reflexivity|].
  unfold wf_FM. cbn [FM.w FM.V FM.n_factors FM.initialized dm_rows dm_col dm_cols].
  repeat split; try assumption.
  - now rewrite Hwlen.
  - unfold dm_cols. cbn [dm_col].
    transitivity (Z.of_nat K); [|apply f_equal; symmetry; exact Hlen].
    unfold K. now rewrite Z2Nat.id.
Qed.

(** [initialize_weight] of [FM.hpp]. *)
Lemma initialize_weight_hpp (fm : FM_hpp_init.FM Real normal_distribution)
      (n_features : Z) (init_std : Real) (gen : mt19937) :
  (0 <= n_features)%Z -> (0 <= FM.n_factors (FM_hpp_init.params fm))%Z ->
  FM_hpp_init.initialized_with fm n_features init_std gen
    (FM_hpp_init.initialize_weight fm n_features init_std gen).
Proof.
  intros HP HK. unfold FM_hpp_init.initialize_weight.
  replace ((n_features <? 0)
           || (FM.n_factors (FM_hpp_init.params fm) <? 0))%Z with false
    by (symmetry; apply orb_false_intro; apply Z.ltb_ge; assumption).
  unfold FM_hpp_init.initialized_with.
  set (P := Z.to_nat n_features).
  set (K := Z.to_nat (FM.n_factors (FM_hpp_init.params fm))).
  set (st0 := (FM_hpp_init.nd fm, gen)).
  destruct (InitFacts.rand_columns_spec init_std P K st0)
    as (Hst1 & Hlen & Hall & Hnth).
  destruct (FM.rand_columns P K init_std st0) as [Vc st1].
  cbn [fst snd] in Hst1, Hlen, Hall, Hnth.
  destruct (InitFacts.rand_vector_spec init_std P st1) as (Hst2 & Hwlen & Hwnth).
  destruct (FM.rand_vector P init_std st1) as [wv st2].
  cbn [fst snd] in Hst2, Hwlen, Hwnth.
  rewrite InitFacts.get_rand_eq.
  cbn [FM_hpp_init.params FM_hpp_init.nd FM.w FM.V FM.w0 FM.n_factors
       FM.initialized dm_rows dm_col dm_cols fst snd].
  subst st1 st2.
  repeat split; try assumption.
  - intros j Hj. rewrite Hwnth by exact Hj.
    now rewrite (nd_nth_add (K * P) j st0).
  - rewrite <- (nd_after_add (K * P) P st0).
    rewrite <- (nd_nth_add (K * P + P) 0 st0).
    f_equal. f_equal. lia.
  - rewrite <- (nd_after_add (K * P) P st0).
    rewrite <- (nd_after_add (K * P + P) 1 st0).
    now destruct (nd_after (K * P + P + 1) st0).
Qed.

End Facts.
End InitMore.

(** ** Scoring in [FM.hpp] *)

Module FMHppMore.
Import Eigen Spec EigenFacts.
Section Facts.
Context {Real : Type} `{RR : RealRing Real}.
Local Open Scope real_scope.

(** [predict_score(X)] reads every column of [V], whatever [n_factors] is. *)
Lemma predict_score_all_columns (fm : FM.FM Real) (X : SparseMatrix Real) :
  wf_sparse X -> wf_dense (FM.V fm) -> dm_rows (FM.V fm) = length (FM.w fm) ->
  FM.initialized fm = true -> sm_cols X = length (FM.w fm) ->
  FM_hpp.predict_score fm X = Returns (direct_score fm X).
Proof.
  intros HX HV HP Hinit Hcols.
  set (fm' := FM.mkFM (Z.of_nat (dm_cols (FM.V fm))) (FM.w0 fm) (FM.w fm)
                      (FM.V fm) (FM.initialized fm)).
  change (FM_hpp.predict_score fm X) with (FM_hpp.predict_score fm' X).
  change (direct_score fm X) with (direct_score fm' X).
  apply FMNoBlock.predict_score_eq; try assumption.
  repeat split; assumption.
Qed.

Lemma predict_score_not_initialized (fm : FM.FM Real) (X : SparseMatrix Real) :
  FM.initialized fm = false ->
  FM_hpp.predict_score fm X
  = RuntimeError "get_score called before initialization".
Proof. intros Hi. unfold FM_hpp.predict_score. now rewrite Hi. Qed.

Lemma predict_score_width (fm : FM.FM Real) (X : SparseMatrix Real) :
  FM.initialized fm = true -> sm_cols X <> length (FM.w fm) ->
  FM_hpp.predict_score fm X = EigenAssert.
Proof.
  intros Hi Hw. unfold FM_hpp.predict_score. rewrite Hi. simpl.
  unfold times.
  destruct (Nat.eqb_spec (sm_cols X) (length (FM.w fm))); [contradiction|].
  reflexivity.
Qed.

End Facts.
End FMHppMore.

(** ** [StringBuilder] *)

Module StringBuilderFacts.
Import StringBuilder.
Local Open Scope string_scope.

Lemma append_assoc (a b c : string) : (a ++ b) ++ c = a ++ (b ++ c).
Proof. induction a as [|ch a IH]; simpl; [reflexivity | now rewrite IH]. Qed.

Lemma append_empty (a : string) : a ++ "" = a.
Proof. induction a as [|ch a IH]; simpl; [reflexivity | now rewrite IH]. Qed.

Lemma build_adds (args : list string) :
  forall b, build (fold_left add args b) = build b ++ String.concat "" args.
Proof.
  induction args as [|x xs IH]; intros b.
  - simpl. now rewrite append_empty.
  - change (fold_left add (x :: xs) b) with (fold_left add xs (add b x)).
    rewrite IH. unfold build, add; simpl oss_.
    rewrite append_assoc. f_equal.
    destruct xs as [|y ys]; [simpl; now rewrite append_empty | reflexivity].
Qed.

Lemma build_words (args : list string) :
  forall b, args <> [] ->
    build (fold_left space_and_add args b)
    = build b ++ " " ++ String.concat " " args.
Proof.
  induction args as [|x xs IH]; intros b Hne; [contradiction|].
  change (fold_left space_and_add (x :: xs) b)
    with (fold_left space_and_add xs (space_and_add b x)).
  destruct xs as [|y ys].
  - simpl. unfold build, space_and_add; simpl oss_. now rewrite append_assoc.
  - rewrite IH by discriminate.
    unfold build, space_and_add; simpl oss_.
    change (String.concat " " (x :: y :: ys))
      with (x ++ " " ++ String.concat " " (y :: ys)).
    now rewrite !append_assoc.
Qed.

End StringBuilderFacts.

(** ** What [predict_score] returns *)

Module FMValue.
Import Eigen relational FM Spec.
Section Facts.
Context {Real : Type} `{RR : RealRing Real}.

Lemma predict_score_value (fm : FM.FM Real) (X : SparseMatrix Real)
      (relations : list (RelationBlock Real)) (v : Vector Real) :
  wf_sparse X -> Forall wf_block relations -> wf_FM fm ->
  predict_score fm X relations = Returns v ->
  v = direct_score fm (expand X relations) /\
  Forall (fun rel => length (original_to_block rel) = sm_rows X) relations /\
  (dm_col (V fm) = [] \/ Forall fits_scratch relations).
Proof.
  intros HX Hwf Hfm Hr.
  destruct (FMChecks.predict_score_returns_width _ _ _ Hr)
    as (Htw & Htot & Hlen & Hi).
  assert (Hcases : dm_col (V fm) = [] \/ Forall fits_scratch relations
                   \/ (dm_col (V fm) <> [] /\
                       Exists (fun rel => ~ fits_scratch rel) relations)).
  { destruct (dm_col (V fm)) as [|c cs]; [now left|]. right.
    destruct (Forall_Exists_dec fits_scratch
                (fun rel => Nat.eq_dec (block_size rel) (feature_size rel))
                relations) as [Hall|Hex].
    - now left.
    - right. split; [discriminate | exact Hex]. }
  destruct Hcases as [Hnil|[Hfit|(Hne & Hex)]].
  - rewrite FMScore.predict_score_returns_le in Hr by (assumption || now left).
    injection Hr as <-. repeat split; [assumption | now left].
  - rewrite FMScore.predict_score_returns_le in Hr by (assumption || now right).
    injection Hr as <-. repeat split; [assumption | now right].
  - rewrite FMScore.predict_score_scratch_mismatch_le in Hr by assumption.
    discriminate.
Qed.

End Facts.
End FMValue.

(** ** The properties *)

Module Extras.
Import Eigen relational Spec Interaction Examples Examples2.

(** X1 (shared block rows).  Two cases with the same base row that map to
    the same row of every block get the same score. *)
Theorem shared_rows_same_score {Real : Type} `{RR : RealRing Real}
        (fm : FM.FM Real) (X : SparseMatrix Real)
        (relations : list (RelationBlock Real)) (v : Vector Real) (i j : nat) :
  wf_sparse X -> Forall wf_block relations -> wf_FM fm ->
  FM.predict_score fm X relations = Returns v ->
  i < sm_rows X -> j < sm_rows X ->
  row i X = row j X ->
  Forall (fun rel => nth i (original_to_block rel) 0
                     = nth j (original_to_block rel) 0) relations ->
  nth i v r0 = nth j v r0.
Proof.
  intros HX Hwf Hfm Hr Hi Hj Hrow Hmap.
  destruct (FMValue.predict_score_value HX Hwf Hfm Hr) as (-> & Hlen & _).
  unfold direct_score.
  rewrite !FMMore.nth_map_row by (now rewrite FMMore.expand_rows).
  f_equal. now apply FMMore.row_expand_eq.
Qed.

Lemma shared_rows_same_score_witness :
  wf_sparse X_same /\ Forall wf_block [B_shared] /\ wf_FM fm1 /\
  0 < sm_rows X_same /\ 1 < sm_rows X_same /\
  row 0 X_same = row 1 X_same /\
  Forall (fun rel => nth 0 (original_to_block rel) 0
                     = nth 1 (original_to_block rel) 0) [B_shared] /\
  match FM.predict_score fm1 X_same [B_shared] with
  | Returns v => nth 0 v r0 = nth 1 v r0
  | _ => False
  end.
Proof.
  assert (HX : wf_sparse X_same) by (repeat constructor).
  assert (HB : Forall wf_block [B_shared]) by (repeat constructor).
  assert (Hfm : wf_FM fm1) by (repeat constructor).
  assert (H0 : 0 < sm_rows X_same) by (cbv; lia).
  assert (H1 : 1 < sm_rows X_same) by (cbv; lia).
  assert (Hm : Forall (fun rel => nth 0 (original_to_block rel) 0
                                  = nth 1 (original_to_block rel) 0) [B_shared])
    by (repeat constructor).
  split; [exact HX|]. split; [exact HB|]. split; [exact Hfm|].
  split; [exact H0|]. split; [exact H1|]. split; [reflexivity|].
  split; [exact Hm|].
  destruct (FM.predict_score fm1 X_same [B_shared]) as [v|what|what|] eqn:E;
    try (vm_compute in E; discriminate E).
  exact (@shared_rows_same_score _ _ Qc_ring fm1 X_same [B_shared] v 0 1
           HX HB Hfm E H0 H1 eq_refl Hm).
Defined.

(** X2 (when a score is returned).  For a model and inputs that satisfy the
    data-model invariants, with a [w] whose length is an [Eigen::Index],
    [predict_score] returns a score exactly when both consistency checks
    pass, the model is initialized, and either [V] has no column or every
    block has as many rows as columns (the size of the scratch map of the
    quadratic term). *)
Theorem predict_score_returns_iff {Real : Type} `{RR : RealRing Real}
        (fm : FM.FM Real) (X : SparseMatrix Real)
        (relations : list (RelationBlock Real)) :
  wf_sparse X -> Forall wf_block relations -> wf_FM fm ->
  is_Index (length (FM.w fm)) ->
  (is_returns (FM.predict_score fm X relations) = true <->
   ~ mapping_mismatch X relations /\ ~ width_mismatch fm X relations /\
   FM.initialized fm = true /\
   (dm_col (FM.V fm) = [] \/ Forall fits_scratch relations)).
Proof.
  intros HX Hwf Hfm Hidx. split.
  - intros Hret.
    destruct (FM.predict_score fm X relations) as [v| | |] eqn:Hr;
      try discriminate.
    destruct (FMValue.predict_score_value HX Hwf Hfm Hr) as (_ & Hlen & Hfit).
    destruct (FMChecks.predict_score_returns_width _ _ _ Hr)
      as (Htw & Htot & _ & Hi).
    split; [|split; [|split; assumption]].
    + intros Hm.
      exact (FMChecks.Exists_Forall_absurd
               (P := fun rel => length (original_to_block rel) = sm_rows X)
               Hm Hlen).
    + intros Hw. apply Hw.
      apply FMChecks.to_size_t_le_eq; [exact Htw | | exact Htot].
      unfold is_Index in Hidx. apply (N.lt_trans _ _ _ Hidx). reflexivity.
  - intros (Hm & Hw & Hi & Hfit).
    assert (Htot : total_feature_width X relations = length (FM.w fm)).
    { unfold width_mismatch in Hw.
      destruct (Nat.eq_dec (total_feature_width X relations)
                           (length (FM.w fm))); [assumption | contradiction]. }
    assert (Hlen : Forall (fun rel => length (original_to_block rel) = sm_rows X)
                          relations).
    { apply Forall_forall. intros rel Hin.
      destruct (Nat.eq_dec (length (original_to_block rel)) (sm_rows X))
        as [E|E]; [exact E|].
      exfalso. apply Hm. apply Exists_exists. eauto. }
    now rewrite FMScore.predict_score_returns.
Qed.

Lemma predict_score_returns_iff_witness :
  wf_sparse X0 /\ Forall wf_block [B_identity] /\ wf_FM fm1 /\
  is_Index (length (FM.w fm1)) /\
  (is_returns (FM.predict_score fm1 X0 [B_identity]) = true <->
   ~ mapping_mismatch X0 [B_identity] /\ ~ width_mismatch fm1 X0 [B_identity] /\
   FM.initialized fm1 = true /\
   (dm_col (FM.V fm1) = [] \/ Forall fits_scratch [B_identity])).
Proof.
  assert (HX : wf_sparse X0) by (repeat constructor).
  assert (HB : Forall wf_block [B_identity]) by (repeat constructor).
  assert (Hfm : wf_FM fm1) by (repeat constructor).
  assert (Hidx : is_Index (length (FM.w fm1))) by reflexivity.
  split; [exact HX|]. split; [exact HB|]. split; [exact Hfm|].
  split; [exact Hidx|].
  exact (@predict_score_returns_iff _ _ Qc_ring fm1 X0 [B_identity] HX HB Hfm
           Hidx).
Defined.

(** X3 (the factors that are read).  With [n_factors] not above the number of
    columns of [V], the loop over the factors reads the first [n_factors]
    columns of [V] and no other: the score is the quadratic form of the model
    with those columns. *)
Theorem predict_score_first_factors {Real : Type} `{RR : RealRing Real}
        (fm : FM.FM Real) (X : SparseMatrix Real)
        (relations : list (RelationBlock Real)) :
  wf_sparse X -> Forall wf_block relations ->
  wf_dense (FM.V fm) -> dm_rows (FM.V fm) = length (FM.w fm) ->
  Z.to_nat (FM.n_factors fm) <= dm_cols (FM.V fm) ->
  FM.initialized fm = true ->
  Forall (fun rel => length (original_to_block rel) = sm_rows X) relations ->
  total_feature_width X relations = length (FM.w fm) ->
  Z.to_nat (FM.n_factors fm) = 0 \/ Forall fits_scratch relations ->
  FM.predict_score fm X relations
  = Returns (direct_score (take_factors fm) (expand X relations)).
Proof. apply FMMore.predict_score_take_factors. Qed.

Lemma predict_score_first_factors_witness :
  FM.predict_score fm_two X1 []
  = Returns (direct_score (take_factors fm_two) (expand X1 [])).
Proof.
  apply (@predict_score_first_factors _ _ Qc_ring fm_two X1 []).
  - repeat constructor.
  - constructor.
  - repeat constructor.
  - reflexivity.
  - cbv; lia.
  - reflexivity.
  - constructor.
  - reflexivity.
  - right. constructor.
Defined.

(** X4 (no factors).  With [n_factors <= 0] the loop over the factors does
    not run: the score is the bias plus the linear term of the expanded row,
    whatever [V] holds and whatever the shapes of the blocks. *)
Theorem predict_score_without_factors {Real : Type} `{RR : RealRing Real}
        (fm : FM.FM Real) (X : SparseMatrix Real)
        (relations : list (RelationBlock Real)) :
  wf_sparse X -> Forall wf_block relations ->
  (FM.n_factors fm <= 0)%Z ->
  FM.initialized fm = true ->
  Forall (fun rel => length (original_to_block rel) = sm_rows X) relations ->
  total_feature_width X relations = length (FM.w fm) ->
  FM.predict_score fm X relations
  = Returns (linear_score fm (expand X relations)).
Proof. apply FMMore.predict_score_linear. Qed.

Lemma predict_score_without_factors_witness :
  ~ fits_scratch B_wide /\
  FM.predict_score fm_linear X0 [B_wide]
  = Returns (linear_score fm_linear (expand X0 [B_wide])).
Proof.
  split; [discriminate|].
  apply (@predict_score_without_factors _ _ Qc_ring fm_linear X0 [B_wide]).
  - repeat constructor.
  - repeat constructor.
  - now vm_compute.
  - reflexivity.
  - repeat constructor.
  - reflexivity.
Defined.

(** X5 (a factor matrix with too few rows).  [FM(w0, w, V)] does not compare
    the shapes of [w] and [V].  With at least one factor and a [V] of fewer
    rows than the base matrix has columns, [predict_score] throws nothing and
    returns nothing: [V.col(0).head(X.cols())] fails Eigen's size check. *)
Theorem predict_score_short_factor_matrix {Real : Type} `{RR : RealRing Real}
        (fm : FM.FM Real) (X : SparseMatrix Real)
        (relations : list (RelationBlock Real)) :
  wf_sparse X -> Forall wf_block relations ->
  wf_dense (FM.V fm) -> dm_col (FM.V fm) <> [] -> (0 < FM.n_factors fm)%Z ->
  dm_rows (FM.V fm) < sm_cols X ->
  FM.initialized fm = true ->
  Forall (fun rel => length (original_to_block rel) = sm_rows X) relations ->
  total_feature_width X relations = length (FM.w fm) ->
  FM.predict_score fm X relations = EigenAssert.
Proof. apply FMMore.predict_score_short_V. Qed.

Lemma predict_score_short_factor_matrix_witness :
  FM.predict_score fm_short X1 [] = EigenAssert.
Proof.
  apply (@predict_score_short_factor_matrix _ _ Qc_ring fm_short X1 []).
  - repeat constructor.
  - constructor.
  - repeat constructor.
  - discriminate.
  - now vm_compute.
  - cbv; lia.
  - reflexivity.
  - constructor.
  - reflexivity.
Defined.

(** X6 (a case without features).  A case whose base row is all zeros, scored
    without relation blocks, gets the bias [w0]. *)
Theorem zero_row_scores_bias {Real : Type} `{RR : RealRing Real}
        (fm : FM.FM Real) (X : SparseMatrix Real) (v : Vector Real) (i : nat) :
  wf_sparse X -> wf_FM fm ->
  FM.predict_score fm X [] = Returns v ->
  i < sm_rows X -> Forall (eq r0) (row i X) ->
  nth i v r0 = FM.w0 fm.
Proof.
  intros HX Hfm Hr Hi Hzero.
  destruct (@FMValue.predict_score_value _ _ RR fm X [] v HX (Forall_nil _) Hfm Hr)
    as (-> & _ & _).
  unfold direct_score. simpl expand.
  rewrite FMMore.nth_map_row by exact Hi.
  now apply FMMore.quadratic_form_zeros.
Qed.

Lemma zero_row_scores_bias_witness :
  wf_sparse X_zero /\ wf_FM fm1 /\ 0 < sm_rows X_zero /\
  Forall (eq r0) (row 0 X_zero) /\
  match FM.predict_score fm1 X_zero [] with
  | Returns v => nth 0 v r0 = FM.w0 fm1
  | _ => False
  end.
Proof.
  assert (HX : wf_sparse X_zero) by (repeat constructor).
  assert (Hfm : wf_FM fm1) by (repeat constructor).
  assert (H0 : 0 < sm_rows X_zero) by (cbv; lia).
  assert (Hz : Forall (eq r0) (row 0 X_zero)) by (repeat constructor).
  split; [exact HX|]. split; [exact Hfm|]. split; [exact H0|].
  split; [exact Hz|].
  destruct (FM.predict_score fm1 X_zero []) as [v|what|what|] eqn:E;
    try (vm_compute in E; discriminate E).
  exact (@zero_row_scores_bias _ _ Qc_ring fm1 X_zero v 0 HX Hfm E H0 Hz).
Defined.

(** X7 (the factorization-machine model).  When [static_cast<Real>(0.5)] is
    one half, the score [predict_score] returns is the bias, plus the linear
    term, plus for every factor the sum over the pairs [j < k] of columns of
    [(v_jf x_j) (v_kf x_k)], as the double loop over the pairs computes it. *)
Theorem predict_score_pairwise {Real : Type} `{RR : RealRing Real}
        (fm : FM.FM Real) (X : SparseMatrix Real)
        (relations : list (RelationBlock Real)) (v : Vector Real) :
  radd rhalf rhalf = r1 ->
  wf_sparse X -> Forall wf_block relations -> wf_FM fm ->
  FM.predict_score fm X relations = Returns v ->
  v = map (interaction_form fm) (sm_row (expand X relations)).
Proof.
  intros Hhalf HX Hwf Hfm Hr.
  destruct (FMValue.predict_score_value HX Hwf Hfm Hr) as (-> & _ & _).
  unfold direct_score. apply map_ext. intros x.
  now apply FMMore.quadratic_form_interaction.
Qed.

Lemma Qc_half : @radd _ Qc_ops rhalf rhalf = r1.
Proof. apply Qcanon.Qc_is_canon. reflexivity. Qed.

Lemma predict_score_pairwise_witness :
  @radd _ Qc_ops rhalf rhalf = r1 /\
  wf_sparse X0 /\ Forall wf_block [B_shared] /\ wf_FM fm1 /\
  match FM.predict_score fm1 X0 [B_shared] with
  | Returns v => v = map (interaction_form fm1) (sm_row (expand X0 [B_shared]))
  | _ => False
  end.
Proof.
  assert (HX : wf_sparse X0) by (repeat constructor).
  assert (HB : Forall wf_block [B_shared]) by (repeat constructor).
  assert (Hfm : wf_FM fm1) by (repeat constructor).
  split; [exact Qc_half|].
  split; [exact HX|]. split; [exact HB|]. split; [exact Hfm|].
  destruct (FM.predict_score fm1 X0 [B_shared]) as [v|what|what|] eqn:E;
    try (vm_compute in E; discriminate E).
  exact (@predict_score_pairwise _ _ Qc_ring fm1 X0 [B_shared] v Qc_half
           HX HB Hfm E).
Defined.

(** X8 (initialize, then score).  After [initialize_weight(P, init_std, gen)]
    on a model with [n_factors >= 0], whatever it held before, the model
    satisfies the data-model invariant and [predict_score(X, {})] returns the
    quadratic form for every base matrix with [P] columns. *)
Theorem initialize_then_score {Real : Type} `{RR : RealRing Real}
        {mt19937 normal_distribution : Type}
        `{StdRandom Real mt19937 normal_distribution}
        (fm : FM.FM Real) (n_features : Z) (init_std : Real) (gen : mt19937)
        (X : SparseMatrix Real) :
  (0 <= n_features)%Z -> (0 <= FM.n_factors fm)%Z ->
  wf_sparse X -> sm_cols X = Z.to_nat n_features ->
  exists fm' gen',
    FM.initialize_weight fm n_features init_std gen = Returns (fm', gen') /\
    wf_FM fm' /\
    FM.predict_score fm' X [] = Returns (direct_score fm' X).
Proof.
  intros HP HK HX Hcols.
  destruct (InitMore.initialize_weight_wf fm init_std gen HP HK)
    as (fm' & gen' & E & Hwf & Hinit & Hlen & _).
  exists fm', gen'. split; [exact E|]. split; [exact Hwf|].
  change (direct_score fm' X) with (direct_score fm' (expand X [])).
  apply FMScore.predict_score_returns; try assumption.
  - constructor.
  - constructor.
  - unfold total_feature_width; simpl. lia.
  - right. constructor.
Qed.

Lemma initialize_then_score_witness :
  exists fm' gen',
    @FM.initialize_weight _ _ _ _ tape_random fm_empty 1 (q 2) [q 1; q 2]
    = Returns (fm', gen') /\
    wf_FM fm' /\
    FM.predict_score fm' X0 [] = Returns (direct_score fm' X0).
Proof.
  apply (@initialize_then_score _ _ Qc_ring _ _ tape_random fm_empty 1 (q 2)
           [q 1; q 2] X0).
  - now vm_compute.
  - now vm_compute.
  - repeat constructor.
  - reflexivity.
Defined.

(** X9 ([initialize_weight] of [FM.hpp]).  For sizes that are not negative
    it returns with the shapes [P] and [P x n_factors], the model initialized
    and every scalar [init_std] times a deviate of its own; the deviates
    follow the state of the distribution object the model holds, and the
    model keeps the state that object has reached. *)
Theorem initialize_weight_hpp_shape {Real : Type} `{RealOps Real}
        {mt19937 normal_distribution : Type}
        `{StdRandom Real mt19937 normal_distribution}
        (fm : FM_hpp_init.FM Real normal_distribution)
        (n_features : Z) (init_std : Real) (gen : mt19937) :
  (0 <= n_features)%Z -> (0 <= FM.n_factors (FM_hpp_init.params fm))%Z ->
  FM_hpp_init.initialized_with fm n_features init_std gen
    (FM_hpp_init.initialize_weight fm n_features init_std gen).
Proof. apply InitMore.initialize_weight_hpp. Qed.

Lemma initialize_weight_hpp_shape_witness :
  @FM_hpp_init.initialized_with _ _ _ _ tape_random fm_hpp_new 2 (q 2)
    [q 1; q 2; q 3]
    (@FM_hpp_init.initialize_weight _ _ _ _ tape_random fm_hpp_new 2 (q 2)
       [q 1; q 2; q 3]).
Proof.
  apply (@initialize_weight_hpp_shape _ _ _ _ tape_random fm_hpp_new 2 (q 2)
           [q 1; q 2; q 3]).
  - now vm_compute.
  - now vm_compute.
Defined.

(** X10 ([predict_score(X)] of [FM.hpp]).  For a well-formed base matrix and a
    [V] with as many rows as [w] has entries: a model that is not initialized
    gets the [std::runtime_error] before any size is looked at; an
    initialized model returns the quadratic form over all the columns of [V]
    (whatever [n_factors] is) when [X] has as many columns as [w] has
    entries, and ends in Eigen's size assertion otherwise; no
    [std::invalid_argument] is thrown. *)
Theorem predict_score_hpp_outcome {Real : Type} `{RR : RealRing Real}
        (fm : FM.FM Real) (X : SparseMatrix Real) :
  wf_sparse X -> wf_dense (FM.V fm) ->
  dm_rows (FM.V fm) = length (FM.w fm) ->
  FM_hpp.predict_score fm X
  = if negb (FM.initialized fm)
    then RuntimeError "get_score called before initialization"
    else if sm_cols X =? length (FM.w fm)
         then Returns (direct_score fm X)
         else EigenAssert.
Proof.
  intros HX HV HP.
  destruct (FM.initialized fm) eqn:Hi; simpl.
  - destruct (Nat.eqb_spec (sm_cols X) (length (FM.w fm))) as [E|E].
    + now apply FMHppMore.predict_score_all_columns.
    + now apply FMHppMore.predict_score_width.
  - now apply FMHppMore.predict_score_not_initialized.
Qed.

Lemma predict_score_hpp_outcome_witness :
  FM_hpp.predict_score fm_two X1 = Returns (direct_score fm_two X1).
Proof.
  apply (@predict_score_hpp_outcome _ _ Qc_ring fm_two X1).
  - repeat constructor.
  - repeat constructor.
  - reflexivity.
Defined.

(** X11 (which exception).  For a total width that fits [size_t] and a [w]
    whose length is an [Eigen::Index]: a mapping of the wrong length gets the
    message about the mapper size, also when the total width is wrong too; a
    wrong total width alone gets the message about the feature size; with
    both checks passed, a model that is not initialized gets the
    [std::runtime_error]. *)
Theorem predict_score_messages {Real : Type} `{RealOps Real}
        (fm : FM.FM Real) (X : SparseMatrix Real)
        (relations : list (RelationBlock Real)) :
  (N.of_nat (total_feature_width X relations) < 2 ^ 64)%N ->
  is_Index (length (FM.w fm)) ->
  (mapping_mismatch X relations ->
   FM.predict_score fm X relations
   = InvalidArgument
       "Relation blocks have inconsistent mapper size with case_size") /\
  (~ mapping_mismatch X relations -> width_mismatch fm X relations ->
   FM.predict_score fm X relations
   = InvalidArgument "Total feature size mismatch.") /\
  (~ mapping_mismatch X relations -> ~ width_mismatch fm X relations ->
   FM.initialized fm = false ->
   FM.predict_score fm X relations
   = RuntimeError "get_score called before initialization").
Proof.
  intros Ht Hl.
  pose proof (FMChecks.size_t_width_mismatch_iff fm X relations Ht Hl) as Hiff.
  destruct (FMChecks.predict_score_checks fm X relations)
    as [(Hm & E)|[(Hm & Hw & E)|[(Hm & Hw & Hi & E)|(Hm & Hw & Hi & _)]]];
    try rewrite Hiff in Hw.
  - split; [|split]; intros; [exact E | contradiction | contradiction].
  - split; [|split]; intros; [contradiction | exact E | contradiction].
  - split; [|split]; intros; [contradiction | contradiction | exact E].
  - split; [|split]; intros; [contradiction | contradiction | congruence].
Qed.

Lemma predict_score_messages_witness :
  (N.of_nat (total_feature_width X0 [B_long]) < 2 ^ 64)%N /\
  is_Index (length (FM.w fm1_fresh)) /\
  mapping_mismatch X0 [B_long] /\
  FM.predict_score fm1_fresh X0 [B_long]
  = InvalidArgument
      "Relation blocks have inconsistent mapper size with case_size".
Proof.
  assert (Ht : (N.of_nat (total_feature_width X0 [B_long]) < 2 ^ 64)%N)
    by reflexivity.
  assert (Hl : is_Index (length (FM.w fm1_fresh))) by reflexivity.
  assert (Hm : mapping_mismatch X0 [B_long])
    by (apply Exists_cons_hd; simpl; discriminate).
  split; [exact Ht|]. split; [exact Hl|]. split; [exact Hm|].
  exact (proj1 (@predict_score_messages _ _ fm1_fresh X0 [B_long] Ht Hl) Hm).
Defined.

Section Binary64.
Import PrimFloat.

(** X12 (right truncation, support, in binary64).  With uniform deviates in
    [[0, 1)], a [std::log] that is not above zero on [[0, 1)] and a
    [std::exp] that gives NaN for NaN, a value
    [sample_truncated_normal_right(gen, mu_plus)] returns is not above
    [mu_plus], and it is below [mu_plus] when [-mu_plus < 0], where the left
    sampler takes its first branch. *)
Theorem sample_right_not_above_threshold
        {mt19937 normal_distribution : Type}
        `{StdRandom float mt19937 normal_distribution} `{util_binary64.Libm}
        (fuel : nat) (gen gen' : mt19937) (t z : float) :
  (forall g : mt19937,
     (0 <=? fst (urd_call g))%float = true /\
     (fst (urd_call g) <? 1)%float = true) ->
  (forall u : float,
     (0 <=? u)%float = true -> (u <? 1)%float = true ->
     (util_binary64.log u <=? 0)%float = true) ->
  (forall x : float, is_nan x = true -> is_nan (util_binary64.exp x) = true) ->
  util_binary64.sample_truncated_normal_right fuel gen t = Some (z, gen') ->
  (z <=? t)%float = true /\
  ((- t <? 0)%float = true -> (z <? t)%float = true).
Proof.
  intros Hrange Hlog Hexp. now apply SamplerBinary64.right_not_above.
Qed.

Lemma sample_right_not_above_threshold_witness :
  (forall g : list float,
     (0 <=? fst (@urd_call _ _ _ util_binary64.script_random g))%float = true /\
     (fst (@urd_call _ _ _ util_binary64.script_random g) <? 1)%float = true) /\
  (forall u : float,
     (0 <=? u)%float = true -> (u <? 1)%float = true ->
     (@util_binary64.log util_binary64.script_libm u <=? 0)%float = true) /\
  (forall x : float,
     is_nan x = true ->
     is_nan (@util_binary64.exp util_binary64.script_libm x) = true) /\
  @util_binary64.sample_truncated_normal_right
    _ _ util_binary64.script_random util_binary64.script_libm 1
    [-0.25]%float 1%float
  = Some (0.25%float, []) /\
  (0.25 <=? 1)%float = true /\
  ((- 1 <? 0)%float = true -> (0.25 <? 1)%float = true).
Proof.
  assert (Hrange : forall g : list float,
            (0 <=? fst (@urd_call _ _ _ util_binary64.script_random g))%float
            = true /\
            (fst (@urd_call _ _ _ util_binary64.script_random g) <? 1)%float
            = true)
    by (intros g; apply SamplerBinary64.clamp01_range).
  assert (Hlog : forall u : float,
            (0 <=? u)%float = true -> (u <? 1)%float = true ->
            (@util_binary64.log util_binary64.script_libm u <=? 0)%float = true)
    by (intros u _ _; apply SamplerBinary64.script_log_not_positive).
  assert (E : @util_binary64.sample_truncated_normal_right
                _ _ util_binary64.script_random util_binary64.script_libm 1
                [-0.25]%float 1%float
              = Some (0.25%float, []))
    by (vm_compute; reflexivity).
  split; [exact Hrange|]. split; [exact Hlog|].
  split; [exact SamplerBinary64.script_exp_nan|].
  split; [exact E|].
  exact (@sample_right_not_above_threshold
           _ _ util_binary64.script_random util_binary64.script_libm 1
           [-0.25]%float [] 1%float 0.25%float
           Hrange Hlog SamplerBinary64.script_exp_nan E).
Defined.

(** X20 (a threshold that is never passed, in binary64).  With a [std::exp]
    that gives NaN for NaN, [sample_truncated_normal_left(gen, mu_minus)]
    does not return for a [mu_minus] that is NaN or plus infinity, whatever
    the generator yields: [z - alpha_star] is NaN in every turn of the second
    loop, so is [rho], and [u < rho] is false. *)
Theorem sample_left_never_returns
        {mt19937 normal_distribution : Type}
        `{StdRandom float mt19937 normal_distribution} `{util_binary64.Libm}
        (t : float) :
  (forall x : float, is_nan x = true -> is_nan (util_binary64.exp x) = true) ->
  is_nan t = true \/ t = infinity ->
  forall (fuel : nat) (gen : mt19937),
    util_binary64.sample_truncated_normal_left fuel gen t = None.
Proof.
  intros Hexp Ht fuel gen. now apply SamplerBinary64.left_never.
Qed.

Lemma sample_left_never_returns_witness :
  (forall x : float,
     is_nan x = true ->
     is_nan (@util_binary64.exp util_binary64.script_libm x) = true) /\
  (is_nan infinity = true \/ infinity = infinity) /\
  @util_binary64.sample_truncated_normal_left
    _ _ util_binary64.script_random util_binary64.script_libm 2
    [0.5; 0.5; 0.5; 0.5]%float infinity
  = None.
Proof.
  assert (Ht : is_nan infinity = true \/ infinity = infinity) by now right.
  split; [exact SamplerBinary64.script_exp_nan|]. split; [exact Ht|].
  exact (@sample_left_never_returns
           _ _ util_binary64.script_random util_binary64.script_libm infinity
           SamplerBinary64.script_exp_nan Ht 2 [0.5; 0.5; 0.5; 0.5]%float).
Defined.

(** X21 (a standard deviation of zero, in binary64).  With a [std::exp] that
    gives NaN for NaN, a finite [mean] and a [std] of zero,
    [sample_truncated_normal_left(gen, mean, std, mean)] and
    [sample_truncated_normal_right(gen, mean, std, mean)] do not return: the
    standardized threshold [(mean - mean) / std] is NaN. *)
Theorem sample_zero_std_never_returns
        {mt19937 normal_distribution : Type}
        `{StdRandom float mt19937 normal_distribution} `{util_binary64.Libm}
        (mean std : float) :
  (forall x : float, is_nan x = true -> is_nan (util_binary64.exp x) = true) ->
  is_finite mean = true -> (std =? 0)%float = true ->
  forall (fuel : nat) (gen : mt19937),
    util_binary64_mean_std.sample_truncated_normal_left fuel gen mean std mean
    = None /\
    util_binary64_mean_std.sample_truncated_normal_right fuel gen mean std mean
    = None.
Proof.
  intros Hexp Hm Hs fuel gen. now apply SamplerBinary64.mean_std_never.
Qed.

Lemma sample_zero_std_never_returns_witness :
  (forall x : float,
     is_nan x = true ->
     is_nan (@util_binary64.exp util_binary64.script_libm x) = true) /\
  is_finite 1 = true /\ (0 =? 0)%float = true /\
  @util_binary64_mean_std.sample_truncated_normal_left
    _ _ util_binary64.script_random util_binary64.script_libm 2
    [0.5; 0.5; 0.5; 0.5]%float 1%float 0%float 1%float
  = None /\
  @util_binary64_mean_std.sample_truncated_normal_right
    _ _ util_binary64.script_random util_binary64.script_libm 2
    [0.5; 0.5; 0.5; 0.5]%float 1%float 0%float 1%float
  = None.
Proof.
  assert (Hm : is_finite 1 = true) by reflexivity.
  assert (Hs : (0 =? 0)%float = true) by reflexivity.
  split; [exact SamplerBinary64.script_exp_nan|].
  split; [exact Hm|]. split; [exact Hs|].
  exact (@sample_zero_std_never_returns
           _ _ util_binary64.script_random util_binary64.script_libm 1%float
           0%float SamplerBinary64.script_exp_nan Hm Hs 2
           [0.5; 0.5; 0.5; 0.5]%float).
Defined.

End Binary64.



(** X17 ([StringBuilder], [add]).  The string [build()] returns after a run
    of [add] calls (or [operator()] calls) on a new builder is the
    concatenation of the arguments in the order of the calls. *)
Theorem string_builder_adds (args : list string) :
  StringBuilder.build (fold_left StringBuilder.add args StringBuilder.new)
  = String.concat "" args /\
  StringBuilder.build (fold_left StringBuilder.call args StringBuilder.new)
  = String.concat "" args.
Proof.
  split.
  - now rewrite StringBuilderFacts.build_adds.
  - change StringBuilder.call with StringBuilder.add.
    now rewrite StringBuilderFacts.build_adds.
Qed.

(** X18 ([StringBuilder], [space_and_add]).  After a run of [space_and_add]
    calls on a new builder, [build()] returns the arguments separated by one
    space each, with a space before the first one. *)
Theorem string_builder_words (args : list string) :
  args <> [] ->
  StringBuilder.build
    (fold_left StringBuilder.space_and_add args StringBuilder.new)
  = String.append " " (String.concat " " args).
Proof.
  intros Hne. now rewrite StringBuilderFacts.build_words.
Qed.

Lemma string_builder_words_witness :
  ["n"; "k"]%string <> [] /\
  StringBuilder.build
    (fold_left StringBuilder.space_and_add ["n"; "k"]%string StringBuilder.new)
  = " n k"%string.
Proof.
  assert (Hne : ["n"; "k"]%string <> []) by discriminate.
  split; [exact Hne|].
  exact (string_builder_words Hne).
Defined.

(** X19 (the exceptions, within the range of [size_t]).  For a total width
    that fits [size_t] and a [w] whose length is an [Eigen::Index],
    [predict_score] throws [std::invalid_argument] exactly when the mapping
    of some block does not have one entry per case or the base columns and
    the block widths do not add up to the length of [w]; it throws the
    [std::runtime_error] exactly when both checks pass and the model is not
    initialized; a score is returned only when all three checks pass. *)
Theorem invalid_argument_iff_in_range {Real : Type} `{RealOps Real}
        (fm : FM.FM Real) (X : SparseMatrix Real)
        (relations : list (RelationBlock Real)) :
  (N.of_nat (total_feature_width X relations) < 2 ^ 64)%N ->
  is_Index (length (FM.w fm)) ->
  ((exists what, FM.predict_score fm X relations = InvalidArgument what)
   <-> mapping_mismatch X relations \/ width_mismatch fm X relations) /\
  ((exists what, FM.predict_score fm X relations = RuntimeError what)
   <-> ~ mapping_mismatch X relations /\ ~ width_mismatch fm X relations /\
       FM.initialized fm = false) /\
  (is_returns (FM.predict_score fm X relations) = true
   -> ~ mapping_mismatch X relations /\ ~ width_mismatch fm X relations /\
      FM.initialized fm = true).
Proof.
  intros Ht Hl.
  pose proof (FMChecks.size_t_width_mismatch_iff fm X relations Ht Hl) as Hiff.
  destruct (FMChecks.predict_score_checks fm X relations)
    as [(Hm & E)|[(Hm & Hwm & E)|[(Hm & Hwm & Hi & E)|(Hm & Hwm & Hi & _ & _ & E)]]];
    try rewrite Hiff in Hwm.
  - rewrite E. split; [|split].
    + split; [intros _; now left | intros _; eauto].
    + split; [intros (what & Hw); discriminate
             | intros (Hno & _); contradiction].
    + discriminate.
  - rewrite E. split; [|split].
    + split; [intros _; now right | intros _; eauto].
    + split; [intros (what & Hw); discriminate
             | intros (_ & Hno & _); contradiction].
    + discriminate.
  - rewrite E. split; [|split].
    + split; [intros (what & Hw); discriminate
             | intros [Hc|Hc]; contradiction].
    + split; [intros _; repeat split; assumption | intros _; eauto].
    + discriminate.
  - pose proof (FMSizes.score_eigen_result fm X relations) as Hne.
    rewrite <- E in Hne.
    split; [|split].
    + split.
      * intros (what & Hw). rewrite Hw in Hne. discriminate.
      * intros [Hc|Hc]; contradiction.
    + split.
      * intros (what & Hw). rewrite Hw in Hne. discriminate.
      * intros (_ & _ & Hc). congruence.
    + intros _. repeat split; assumption.
Qed.

Lemma invalid_argument_iff_in_range_witness :
  (N.of_nat (total_feature_width X0 [B_identity]) < 2 ^ 64)%N /\
  is_Index (length (FM.w fm1)) /\
  ~ mapping_mismatch X0 [B_identity] /\ ~ width_mismatch fm1 X0 [B_identity] /\
  FM.initialized fm1 = true /\
  ~ (exists what, FM.predict_score fm1 X0 [B_identity] = InvalidArgument what) /\
  ~ (exists what, FM.predict_score fm1 X0 [B_identity] = RuntimeError what).
Proof.
  assert (Ht : (N.of_nat (total_feature_width X0 [B_identity]) < 2 ^ 64)%N)
    by reflexivity.
  assert (Hl : is_Index (length (FM.w fm1))) by reflexivity.
  assert (Hm : ~ mapping_mismatch X0 [B_identity]).
  { intros Hm. apply Exists_exists in Hm. destruct Hm as (rel & [<-|[]] & Hne).
    apply Hne. reflexivity. }
  assert (Hw : ~ width_mismatch fm1 X0 [B_identity])
    by (intros Hw; apply Hw; reflexivity).
  destruct (@invalid_argument_iff_in_range _ _ fm1 X0 [B_identity] Ht Hl)
    as (Hinv & Hrun & _).
  split; [exact Ht|]. split; [exact Hl|]. split; [exact Hm|].
  split; [exact Hw|]. split; [reflexivity|]. split.
  - intros Hex. apply Hinv in Hex. destruct Hex; contradiction.
  - intros Hex. apply Hrun in Hex. destruct Hex as (_ & _ & Hi). discriminate Hi.
Defined.

End Extras.
